(** * libsensors feature access: a shallow embedding of lib/access.c

    The development follows the C file function by function.  Integers are
    [Z], C strings are [string], [double] is the primitive binary64 type,
    arrays with a count (or with a terminating null entry) are lists, and a
    pointer that may be null is an [option].  The calls that leave the file
    (the /proc backend, the parse-error callback, libm) are parameters of
    the section [Access]; every call to the backend or to the callback is
    recorded in a trace, so that statements about what is written, and in
    which order, can be made. *)

From Stdlib Require Import ZArith List String Ascii Bool Lia.
From Stdlib Require Import Floats.PrimFloat.
Import ListNotations.
Local Open Scope Z_scope.

(** ** Constants of the headers *)

(** Modelled from the spec: error.h is not among the sources.  These are the
    error kinds of the spec's taxonomy (WildcardsNotAllowed, UnknownFeature,
    IOError, DivisionByZero, AccessDenied for writing and for reading), with
    the numbers the library's header gives them.  The theorems below only
    use that they are positive and pairwise different. *)
Definition SENSORS_ERR_WILDCARDS : Z := 1.
Definition SENSORS_ERR_NO_ENTRY : Z := 2.
Definition SENSORS_ERR_PROC : Z := 4.
Definition SENSORS_ERR_DIV_ZERO : Z := 5.
Definition SENSORS_ERR_ACCESS_W : Z := 9.
Definition SENSORS_ERR_ACCESS_R : Z := 10.

(** Modelled from the spec: sensors.h is not among the sources.  The bus
    selectors ISA, ANY, AnyI2C, DUMMY and PCI of the spec's BusSelector (a
    non-negative bus is an I2C bus number), the ANY address, the NONE of a
    mapping, and the read and write bits of an access mode.  The ANY prefix
    is the null pointer, [None] below. *)
Definition SENSORS_CHIP_NAME_BUS_ISA : Z := -1.
Definition SENSORS_CHIP_NAME_BUS_ANY : Z := -2.
Definition SENSORS_CHIP_NAME_BUS_ANY_I2C : Z := -3.
Definition SENSORS_CHIP_NAME_BUS_DUMMY : Z := -4.
Definition SENSORS_CHIP_NAME_BUS_PCI : Z := -5.
Definition SENSORS_CHIP_NAME_ADDR_ANY : Z := -1.
Definition SENSORS_NO_MAPPING : Z := -1.
Definition SENSORS_MODE_R : Z := 1.
Definition SENSORS_MODE_W : Z := 2.

(** ** Strings *)

(** [tolower] and [strcasecmp] of the C library, on ASCII. *)
Definition tolower (c : ascii) : Z :=
  let n := Z.of_N (N_of_ascii c) in
  if (65 <=? n) && (n <=? 90) then n + 32 else n.

Fixpoint strcasecmp (s1 s2 : string) : Z :=
  match s1, s2 with
  | EmptyString, EmptyString => 0
  | EmptyString, String c2 _ => - tolower c2
  | String c1 _, EmptyString => tolower c1
  | String c1 r1, String c2 r2 =>
      let d := tolower c1 - tolower c2 in
      if d =? 0 then strcasecmp r1 r2 else d
  end.

(** The test [!strcasecmp(a, b)]. *)
Definition same_name (a b : string) : bool := strcasecmp a b =? 0.

(** ** Data (sensors.h, data.h) *)

Record sensors_chip_name := {
  prefix : option string;      (* null: SENSORS_CHIP_NAME_PREFIX_ANY *)
  bus : Z;
  addr : Z
}.

Record sensors_feature_data := {
  number : Z;
  data_name : string;
  mapping : Z;
  compute_mapping : Z;
  mode : Z
}.

Record sensors_chip_feature := { data : sensors_feature_data }.

Record sensors_chip_features := {
  features_prefix : string;
  features_feature : list sensors_chip_feature
}.

Inductive sensors_operation :=
| sensors_add | sensors_sub | sensors_multiply | sensors_divide
| sensors_negate | sensors_exp | sensors_log.

(** [sub2] is null for the unary operations. *)
#[local] Unset Elimination Schemes.
Inductive sensors_expr :=
| sensors_kind_val (val : float)
| sensors_kind_source
| sensors_kind_var (var : string)
| sensors_kind_sub (op : sensors_operation) (sub1 : sensors_expr)
                   (sub2 : option sensors_expr).
#[local] Set Elimination Schemes.

(** Induction on expression trees, through the optional second operand. *)
Fixpoint sensors_expr_induction (P : sensors_expr -> Prop)
    (Hval : forall v, P (sensors_kind_val v))
    (Hsource : P sensors_kind_source)
    (Hvar : forall var, P (sensors_kind_var var))
    (Hunary : forall op sub1, P sub1 -> P (sensors_kind_sub op sub1 None))
    (Hbinary : forall op sub1 e2, P sub1 -> P e2 ->
                                  P (sensors_kind_sub op sub1 (Some e2)))
    (expr : sensors_expr) {struct expr} : P expr :=
  match expr with
  | sensors_kind_val v => Hval v
  | sensors_kind_source => Hsource
  | sensors_kind_var var => Hvar var
  | sensors_kind_sub op sub1 None =>
      Hunary op sub1
        (sensors_expr_induction P Hval Hsource Hvar Hunary Hbinary sub1)
  | sensors_kind_sub op sub1 (Some e2) =>
      Hbinary op sub1 e2
        (sensors_expr_induction P Hval Hsource Hvar Hunary Hbinary sub1)
        (sensors_expr_induction P Hval Hsource Hvar Hunary Hbinary e2)
  end.

Record sensors_label := { label_name : string; label_value : string }.
Record sensors_ignore := { ignore_name : string }.
Record sensors_compute := {
  compute_name : string;
  from_proc : sensors_expr;
  to_proc : sensors_expr
}.
Record sensors_set := {
  set_name : string;
  set_value : sensors_expr;
  set_lineno : Z
}.

Record sensors_chip_name_list := { fits : list sensors_chip_name }.

Record sensors_chip := {
  chips : sensors_chip_name_list;
  labels : list sensors_label;
  sets : list sensors_set;
  computes : list sensors_compute;
  ignores : list sensors_ignore
}.

Record sensors_proc_chips_entry := { proc_name : sensors_chip_name }.

Record sensors_bus := { bus_number : Z; bus_adapter : string }.

(** ** sensors_match_chip *)

Definition prefix_differs (p1 p2 : option string) : bool :=
  match p1, p2 with
  | Some a, Some b => negb (same_name a b)
  | _, _ => false
  end.

Definition sensors_match_chip (chip1 chip2 : sensors_chip_name) : bool :=
  if prefix_differs (prefix chip1) (prefix chip2) then false
  else if negb (bus chip1 =? SENSORS_CHIP_NAME_BUS_ANY)
          && negb (bus chip2 =? SENSORS_CHIP_NAME_BUS_ANY)
          && negb (bus chip1 =? bus chip2)
          && ((bus chip1 =? SENSORS_CHIP_NAME_BUS_ISA)
              || (bus chip2 =? SENSORS_CHIP_NAME_BUS_ISA)
              || (bus chip1 =? SENSORS_CHIP_NAME_BUS_PCI)
              || (bus chip2 =? SENSORS_CHIP_NAME_BUS_PCI)
              || (negb (bus chip1 =? SENSORS_CHIP_NAME_BUS_ANY_I2C)
                  && negb (bus chip2 =? SENSORS_CHIP_NAME_BUS_ANY_I2C)))
       then false
  else if negb (addr chip1 =? addr chip2)
          && negb (addr chip1 =? SENSORS_CHIP_NAME_ADDR_ANY)
          && negb (addr chip2 =? SENSORS_CHIP_NAME_ADDR_ANY)
       then false
  else true.

(** ** sensors_chip_name_has_wildcards *)

Definition sensors_chip_name_has_wildcards (chip : sensors_chip_name) : bool :=
  match prefix chip with
  | None => true
  | Some _ =>
      (bus chip =? SENSORS_CHIP_NAME_BUS_ANY)
      || (bus chip =? SENSORS_CHIP_NAME_BUS_ANY_I2C)
      || (addr chip =? SENSORS_CHIP_NAME_ADDR_ANY)
  end.

(** The spec's words, for comparison: a pattern with any ANY component
    (prefix, bus or address) is a wildcard pattern. *)
Definition spec_wildcard_pattern (chip : sensors_chip_name) : bool :=
  match prefix chip with
  | None => true
  | Some _ =>
      (bus chip =? SENSORS_CHIP_NAME_BUS_ANY)
      || (addr chip =? SENSORS_CHIP_NAME_ADDR_ANY)
  end.

(** ** A board to run the functions on

    An lm78 on I2C bus 0 at address 0x2d, a catalog for it, and a few
    config files.  The backend reads 10.0 from every feature and refuses
    to write feature 3. *)
Module Board.

Definition feat (nr : Z) (n : string) (map cmap md : Z) : sensors_chip_feature :=
  {| data := {| number := nr; data_name := n; mapping := map;
                compute_mapping := cmap; mode := md |} |}.

Definition in0 := feat 1 "in0" SENSORS_NO_MAPPING SENSORS_NO_MAPPING 3.
Definition in0_min := feat 2 "in0_min" 1 1 3.
Definition in1 := feat 3 "in1" SENSORS_NO_MAPPING SENSORS_NO_MAPPING 3.
Definition beep := feat 4 "beep" SENSORS_NO_MAPPING SENSORS_NO_MAPPING 2.
Definition fan1_div := feat 5 "fan1_div" SENSORS_NO_MAPPING 99 3.
Definition alarms := feat 6 "alarms" SENSORS_NO_MAPPING SENSORS_NO_MAPPING 1.
Definition in1_max := feat 7 "in1_max" 77 SENSORS_NO_MAPPING 3.
Definition temp := feat 8 "temp" SENSORS_NO_MAPPING SENSORS_NO_MAPPING 3.

Definition catalog : list sensors_chip_features :=
  [ {| features_prefix := "lm78";
       features_feature :=
         [in0; in0_min; in1; beep; fan1_div; alarms; in1_max; temp] |} ].

Definition lm78 : sensors_chip_name :=
  {| prefix := Some "lm78"%string; bus := 0; addr := 45 |}.
Definition w83781d : sensors_chip_name :=
  {| prefix := Some "w83781d"%string; bus := 0; addr := 46 |}.
Definition lm78_any_i2c : sensors_chip_name :=
  {| prefix := Some "lm78"%string; bus := SENSORS_CHIP_NAME_BUS_ANY_I2C;
     addr := 45 |}.
Definition lm78_star : sensors_chip_name :=
  {| prefix := Some "lm78"%string; bus := SENSORS_CHIP_NAME_BUS_ANY;
     addr := SENSORS_CHIP_NAME_ADDR_ANY |}.
Definition any_chip : sensors_chip_name :=
  {| prefix := None; bus := SENSORS_CHIP_NAME_BUS_ANY;
     addr := SENSORS_CHIP_NAME_ADDR_ANY |}.

Definition detected : list sensors_proc_chips_entry :=
  [ {| proc_name := lm78 |}; {| proc_name := w83781d |} ].

(** A config entry [chip "lm78-*"]. *)
Definition entry (ls : list sensors_label) (ss : list sensors_set)
    (cs : list sensors_compute) (igs : list sensors_ignore) : sensors_chip :=
  {| chips := {| fits := [lm78_star] |};
     labels := ls; sets := ss; computes := cs; ignores := igs |}.

Definition num (v : float) : sensors_expr := sensors_kind_val v.
Definition binop (op : sensors_operation) (a b : sensors_expr) : sensors_expr :=
  sensors_kind_sub op a (Some b).
Definition at_times (v : float) := binop sensors_multiply sensors_kind_source (num v).
Definition at_over (v : float) := binop sensors_divide sensors_kind_source (num v).
Definition at_plus (v : float) := binop sensors_add sensors_kind_source (num v).
Definition at_minus (v : float) := binop sensors_sub sensors_kind_source (num v).

(** [compute in0 @*2, @/2] and [compute temp @*10, @/10] in one entry. *)
Definition compute_in0 : sensors_compute :=
  {| compute_name := "in0"; from_proc := at_times 2; to_proc := at_over 2 |}.
Definition compute_temp : sensors_compute :=
  {| compute_name := "temp"; from_proc := at_times 10; to_proc := at_over 10 |}.
Definition config_computes : list sensors_chip :=
  [ entry [] [] [compute_in0; compute_temp] [] ].

(** [compute in0_min @*2, @/2] in an entry declared first, and
    [compute in0 @+1, @-1] in an entry declared after it; [in0] is the
    alternate of [in0_min]. *)
Definition compute_in0_min : sensors_compute :=
  {| compute_name := "in0_min"; from_proc := at_times 2; to_proc := at_over 2 |}.
Definition compute_in0_shift : sensors_compute :=
  {| compute_name := "in0"; from_proc := at_plus 1; to_proc := at_minus 1 |}.
Definition entry_main : sensors_chip := entry [] [] [compute_in0_min] [].
Definition entry_alt : sensors_chip := entry [] [] [compute_in0_shift] [].
Definition config_two_entries : list sensors_chip := [entry_main; entry_alt].

(** [ignore in0]. *)
Definition config_ignore : list sensors_chip :=
  [ entry [] [] [] [ {| ignore_name := "IN0" |} ] ].

(** Three entries with [set] statements; the one declared last is scanned
    first. *)
Definition set_stmt (n : string) (e : sensors_expr) (l : Z) : sensors_set :=
  {| set_name := n; set_value := e; set_lineno := l |}.
Definition sets_oldest : sensors_chip :=
  entry [] [set_stmt "temp" (num 8) 30; set_stmt "in0" (num 1) 31] [] [].
Definition sets_middle : sensors_chip :=
  entry [] [set_stmt "in0" (num 2) 20; set_stmt "nosuch" (num 1) 21] [] [].
Definition sets_newest : sensors_chip :=
  entry []
    [set_stmt "temp" (num 7) 10; set_stmt "in1" (num 3) 11;
     set_stmt "in1" (num 4) 12;
     set_stmt "in0" (binop sensors_divide (num 5) (num 0)) 13] [] [].
Definition config_sets : list sensors_chip :=
  [sets_oldest; sets_middle; sets_newest].

Definition read (name : sensors_chip_name) (feature : Z) (h : unit)
  : Z * float * unit := (0, 10%float, h).
Definition write (name : sensors_chip_name) (feature : Z) (value : float)
    (h : unit) : Z * unit := (if feature =? 3 then 1 else 0, h).

(** Stand-ins for [exp] and [log] of libm; no statement evaluates them. *)
Definition libm (x : float) : float := x.

(** [label in0 "Vcore (old)"] in an entry declared first, and two [label]
    statements for the same feature in an entry declared after it. *)
Definition label_stmt (n v : string) : sensors_label :=
  {| label_name := n; label_value := v |}.
Definition labels_older : sensors_chip :=
  entry [label_stmt "in0" "Vcore (old)"] [] [] [].
Definition labels_newer : sensors_chip :=
  entry [label_stmt "temp" "CPU"; label_stmt "IN0" "Vcore";
         label_stmt "in0" "Vcore again"] [] [] [].
Definition config_labels : list sensors_chip := [labels_older; labels_newer].

(** Two I2C adapters; bus 0 is listed twice. *)
Definition buses : list sensors_bus :=
  [ {| bus_number := 0; bus_adapter := "SMBus PIIX4 adapter" |};
    {| bus_number := 1; bus_adapter := "SMBus Via Pro adapter" |};
    {| bus_number := 0; bus_adapter := "ISA main adapter" |} ].

End Board.

(** ** The world outside the file *)

(** One entry per call that leaves the file: a read or a write of a feature
    through the /proc backend, or a report through [sensors_parse_error]. *)
Inductive io_event :=
| ev_read_proc (name : sensors_chip_name) (feature : Z)
| ev_write_proc (name : sensors_chip_name) (feature : Z) (value : float)
| ev_parse_error (err : string) (lineno : Z).

Section Access.

(** The catalog, the config entries in declaration order and the detected
    chips: global arrays of data.c and proc.c, never modified here. *)
Variable sensors_chip_features_list : list sensors_chip_features.
Variable sensors_config_chips : list sensors_chip.
Variable sensors_proc_chips : list sensors_proc_chips_entry.

(** The /proc backend (proc.c): a state of its own, and two calls that
    return 0 on success.  [sensors_read_proc] also returns the value read. *)
Variable hardware : Type.
Variable sensors_read_proc :
  sensors_chip_name -> Z -> hardware -> Z * float * hardware.
Variable sensors_write_proc :
  sensors_chip_name -> Z -> float -> hardware -> Z * hardware.

(** libm, and the content of a [double] that was declared without a value. *)
Variable exp : float -> float.
Variable log : float -> float.
Variable indeterminate : float.

Record machine := { hw : hardware; trace : list io_event }.

Definition read_proc (name : sensors_chip_name) (feature : Z) (m : machine)
  : Z * float * machine :=
  let '(res, val, h) := sensors_read_proc name feature (hw m) in
  (res, val, {| hw := h; trace := trace m ++ [ev_read_proc name feature] |}).

Definition write_proc (name : sensors_chip_name) (feature : Z) (value : float)
    (m : machine) : Z * machine :=
  let '(res, h) := sensors_write_proc name feature value (hw m) in
  (res, {| hw := h; trace := trace m ++ [ev_write_proc name feature value] |}).

Definition sensors_parse_error (err : string) (lineno : Z) (m : machine)
  : machine :=
  {| hw := hw m; trace := trace m ++ [ev_parse_error err lineno] |}.

(** ** sensors_for_all_config_chips *)

Definition chip_fits (chip_name : sensors_chip_name) (c : sensors_chip) : bool :=
  existsb (fun fit => sensors_match_chip fit chip_name) (fits (chips c)).

(** The loop [for (nr = ...; nr >= 0; nr--)], entered with [nr + 1 = n]. *)
Fixpoint config_chips_scan (chip_name : sensors_chip_name) (n : nat)
  : option nat :=
  match n with
  | O => None
  | S nr =>
      match nth_error sensors_config_chips nr with
      | Some c => if chip_fits chip_name c then Some nr
                  else config_chips_scan chip_name nr
      | None => config_chips_scan chip_name nr
      end
  end.

(** A pointer into [sensors_config_chips] is the index it points at. *)
Definition sensors_for_all_config_chips (chip_name : sensors_chip_name)
    (last : option nat) : option nat :=
  config_chips_scan chip_name
    (match last with
     | Some l => l
     | None => List.length sensors_config_chips
     end).

(** The entries visited by
    [for (chip = NULL; (chip = sensors_for_all_config_chips(name, chip));)],
    in the order of the visits; [n] bounds the number of rounds. *)
Fixpoint config_chips_rounds (n : nat) (name : sensors_chip_name)
    (chip : option nat) : list sensors_chip :=
  match n with
  | O => []
  | S n' =>
      match sensors_for_all_config_chips name chip with
      | None => []
      | Some nr =>
          match nth_error sensors_config_chips nr with
          | Some c => c :: config_chips_rounds n' name (Some nr)
          | None => []
          end
      end
  end.

Definition matching_config_chips (name : sensors_chip_name)
  : list sensors_chip :=
  config_chips_rounds (S (List.length sensors_config_chips)) name None.

(** ** sensors_lookup_feature_nr, sensors_lookup_feature_name *)

Fixpoint sensors_lookup_feature (test : sensors_chip_feature -> bool)
    (list : list sensors_chip_features) (prefix : string)
  : option sensors_chip_feature :=
  match list with
  | [] => None
  | e :: rest =>
      if same_name (features_prefix e) prefix then
        match find test (features_feature e) with
        | Some f => Some f
        | None => sensors_lookup_feature test rest prefix
        end
      else sensors_lookup_feature test rest prefix
  end.

Definition sensors_lookup_feature_nr (prefix : string) (feature : Z)
  : option sensors_chip_feature :=
  sensors_lookup_feature (fun f => number (data f) =? feature)
    sensors_chip_features_list prefix.

Definition sensors_lookup_feature_name (prefix : string) (feature : string)
  : option sensors_chip_feature :=
  sensors_lookup_feature (fun f => same_name (data_name (data f)) feature)
    sensors_chip_features_list prefix.

(** ** sensors_get_label *)

Fixpoint get_label_scan (featureptr : sensors_chip_feature)
    (cs : list sensors_chip) : option string :=
  match cs with
  | [] => None
  | chip :: rest =>
      match find (fun l => same_name (data_name (data featureptr))
                                     (label_name l)) (labels chip) with
      | Some l => Some (label_value l)
      | None => get_label_scan featureptr rest
      end
  end.

(** Returns the code and the content of [*result]. *)
Definition sensors_get_label (name : sensors_chip_name) (feature : Z)
  : Z * option string :=
  if sensors_chip_name_has_wildcards name then (- SENSORS_ERR_WILDCARDS, None)
  else
    match prefix name with
    | None => (- SENSORS_ERR_WILDCARDS, None)   (* a null prefix is a wildcard *)
    | Some p =>
        match sensors_lookup_feature_nr p feature with
        | None => (- SENSORS_ERR_NO_ENTRY, None)
        | Some featureptr =>
            match get_label_scan featureptr (matching_config_chips name) with
            | Some v => (0, Some v)
            | None => (0, Some (data_name (data featureptr)))
            end
        end
    end.

(** ** sensors_get_ignored *)

Definition alt_same_name (alt : option sensors_chip_feature) (n : string)
  : bool :=
  match alt with
  | Some a => same_name (data_name (data a)) n
  | None => false
  end.

(** The inner loop over [chip->ignores]: [inl v] when it returns [v] from
    the function, [inr res] when it runs to its end. *)
Fixpoint get_ignored_ignores (featureptr : sensors_chip_feature)
    (alt_featureptr : option sensors_chip_feature)
    (igs : list sensors_ignore) (res : Z) : Z + Z :=
  match igs with
  | [] => inr res
  | ig :: rest =>
      if same_name (data_name (data featureptr)) (ignore_name ig) then inl 0
      else if alt_same_name alt_featureptr (ignore_name ig)
           then get_ignored_ignores featureptr alt_featureptr rest 0
      else get_ignored_ignores featureptr alt_featureptr rest res
  end.

Fixpoint get_ignored_chips (featureptr : sensors_chip_feature)
    (alt_featureptr : option sensors_chip_feature)
    (cs : list sensors_chip) (res : Z) : Z :=
  match cs with
  | [] => res
  | chip :: rest =>
      match get_ignored_ignores featureptr alt_featureptr (ignores chip) res with
      | inl v => v
      | inr res' => get_ignored_chips featureptr alt_featureptr rest res'
      end
  end.

(** Returns 0 for an ignored feature, 1 for a visible one. *)
Definition sensors_get_ignored (name : sensors_chip_name) (feature : Z) : Z :=
  if sensors_chip_name_has_wildcards name then - SENSORS_ERR_WILDCARDS
  else
    match prefix name with
    | None => - SENSORS_ERR_WILDCARDS           (* a null prefix is a wildcard *)
    | Some p =>
        match sensors_lookup_feature_nr p feature with
        | None => - SENSORS_ERR_NO_ENTRY
        | Some featureptr =>
            if mapping (data featureptr) =? SENSORS_NO_MAPPING then
              get_ignored_chips featureptr None (matching_config_chips name) 1
            else
              match sensors_lookup_feature_nr p (mapping (data featureptr)) with
              | None => - SENSORS_ERR_NO_ENTRY
              | Some alt =>
                  get_ignored_chips featureptr (Some alt)
                    (matching_config_chips name) 1
              end
        end
    end.

(** ** sensors_eval_expr *)

(** What a call that may go on for ever gives: [None] when the call has no
    result (unbounded recursion through variable references, or a null
    prefix handed to [strcasecmp]), and else the code returned, the content
    of the out-parameter after the call, and the machine. *)
Definition outcome : Type := option (Z * float * machine).

(** The [switch] on the operation; [result] is the content of [*result]
    before it. *)
Definition eval_switch (op : sensors_operation) (res1 res2 result : float)
  : Z * float :=
  match op with
  | sensors_add => (0, add res1 res2)
  | sensors_sub => (0, sub res1 res2)
  | sensors_multiply => (0, mul res1 res2)
  | sensors_divide =>
      if eqb res2 zero then (- SENSORS_ERR_DIV_ZERO, result)
      else (0, div res1 res2)
  | sensors_negate => (0, opp res1)
  | sensors_exp => (0, exp res1)
  | sensors_log =>
      if ltb res1 zero then (- SENSORS_ERR_DIV_ZERO, result)
      else (0, log res1)
  end.

(** The body of [sensors_eval_expr], with the call to [sensors_get_feature]
    left open: the two functions call each other. *)
Fixpoint eval_expr
    (get_feature : sensors_chip_name -> Z -> float -> machine -> outcome)
    (chipname : sensors_chip_name) (expr : sensors_expr)
    (val result : float) (m : machine) {struct expr} : outcome :=
  match expr with
  | sensors_kind_val v => Some (0, v, m)
  | sensors_kind_source => Some (0, val, m)
  | sensors_kind_var var =>
      match prefix chipname with
      | None => None
      | Some p =>
          match sensors_lookup_feature_name p var with
          | None => Some (SENSORS_ERR_NO_ENTRY, result, m)
          | Some feature =>
              match get_feature chipname (number (data feature)) result m with
              | None => None
              | Some (res, result', m') =>
                  if res =? 0 then Some (res, result', m')
                  else Some (0, result', m')
              end
          end
      end
  | sensors_kind_sub op sub1 sub2 =>
      match eval_expr get_feature chipname sub1 val indeterminate m with
      | None => None
      | Some (res, res1, m1) =>
          if negb (res =? 0) then Some (res, result, m1)
          else
            match sub2 with
            | Some e2 =>
                match eval_expr get_feature chipname e2 val indeterminate m1 with
                | None => None
                | Some (res', res2, m2) =>
                    if negb (res' =? 0) then Some (res', result, m2)
                    else let '(r, v) := eval_switch op res1 res2 result in
                         Some (r, v, m2)
                end
            | None =>
                let '(r, v) := eval_switch op res1 indeterminate result in
                Some (r, v, m1)
            end
      end
  end.

(** ** sensors_get_feature *)

(** The loop over [chip->computes]; the state is [(expr, final_expr)]. *)
Fixpoint get_feature_computes (main_feature : sensors_chip_feature)
    (alt_feature : option sensors_chip_feature)
    (cs : list sensors_compute) (st : option sensors_expr * bool)
  : option sensors_expr * bool :=
  match cs with
  | [] => st
  | c :: rest =>
      if snd st then st
      else if same_name (data_name (data main_feature)) (compute_name c)
           then get_feature_computes main_feature alt_feature rest
                  (Some (from_proc c), true)
      else if alt_same_name alt_feature (compute_name c)
           then get_feature_computes main_feature alt_feature rest
                  (Some (from_proc c), snd st)
      else get_feature_computes main_feature alt_feature rest st
  end.

(** The loop over the matching config entries, left when [expr] is set. *)
Fixpoint get_feature_chips (main_feature : sensors_chip_feature)
    (alt_feature : option sensors_chip_feature)
    (cs : list sensors_chip) (st : option sensors_expr * bool)
  : option sensors_expr * bool :=
  match cs with
  | [] => st
  | chip :: rest =>
      match fst st with
      | Some _ => st
      | None =>
          get_feature_chips main_feature alt_feature rest
            (get_feature_computes main_feature alt_feature (computes chip) st)
      end
  end.

Fixpoint sensors_get_feature (fuel : nat) (name : sensors_chip_name)
    (feature : Z) (result : float) (m : machine) {struct fuel} : outcome :=
  let search main_feature alt_feature :=
    if Z.land (mode (data main_feature)) SENSORS_MODE_R =? 0
    then Some (- SENSORS_ERR_ACCESS_R, result, m)
    else
      let expr := fst (get_feature_chips main_feature alt_feature
                         (matching_config_chips name) (None, false)) in
      let '(rd, val, m1) := read_proc name feature m in
      if negb (rd =? 0) then Some (- SENSORS_ERR_PROC, result, m1)
      else
        match expr with
        | None => Some (0, val, m1)
        | Some e =>
            match fuel with
            | O => None
            | S fuel' =>
                eval_expr (sensors_get_feature fuel') name e val result m1
            end
        end in
  if sensors_chip_name_has_wildcards name
  then Some (- SENSORS_ERR_WILDCARDS, result, m)
  else
    match prefix name with
    | None => Some (- SENSORS_ERR_WILDCARDS, result, m)
    | Some p =>
        match sensors_lookup_feature_nr p feature with
        | None => Some (- SENSORS_ERR_NO_ENTRY, result, m)
        | Some main_feature =>
            if compute_mapping (data main_feature) =? SENSORS_NO_MAPPING
            then search main_feature None
            else
              match sensors_lookup_feature_nr p
                      (compute_mapping (data main_feature)) with
              | None => Some (- SENSORS_ERR_NO_ENTRY, result, m)
              | Some alt => search main_feature (Some alt)
              end
        end
    end.

(** [sensors_eval_expr] at recursion budget [fuel]: every variable reference
    may enter [sensors_get_feature] with that budget. *)
Definition sensors_eval_expr (fuel : nat) (chipname : sensors_chip_name)
    (expr : sensors_expr) (val result : float) (m : machine) : outcome :=
  eval_expr (sensors_get_feature fuel) chipname expr val result m.

(** ** sensors_set_feature *)

(** The loop over [chip->computes]; [all] is the array [chip->computes]
    itself, which the first branch reads through [chip->computes->to_proc]. *)
Fixpoint set_feature_computes (main_feature : sensors_chip_feature)
    (alt_feature : option sensors_chip_feature)
    (all cs : list sensors_compute) (st : option sensors_expr * bool)
  : option sensors_expr * bool :=
  match cs with
  | [] => st
  | c :: rest =>
      if snd st then st
      else if same_name (data_name (data main_feature)) (compute_name c)
           then set_feature_computes main_feature alt_feature all rest
                  (option_map to_proc (hd_error all), true)
      else if alt_same_name alt_feature (compute_name c)
           then set_feature_computes main_feature alt_feature all rest
                  (Some (to_proc c), snd st)
      else set_feature_computes main_feature alt_feature all rest st
  end.

Fixpoint set_feature_chips (main_feature : sensors_chip_feature)
    (alt_feature : option sensors_chip_feature)
    (cs : list sensors_chip) (st : option sensors_expr * bool)
  : option sensors_expr * bool :=
  match cs with
  | [] => st
  | chip :: rest =>
      match fst st with
      | Some _ => st
      | None =>
          set_feature_chips main_feature alt_feature rest
            (set_feature_computes main_feature alt_feature
               (computes chip) (computes chip) st)
      end
  end.

Definition sensors_set_feature (fuel : nat) (name : sensors_chip_name)
    (feature : Z) (value : float) (m : machine) : option (Z * machine) :=
  let search main_feature alt_feature :=
    if Z.land (mode (data main_feature)) SENSORS_MODE_W =? 0
    then Some (- SENSORS_ERR_ACCESS_W, m)
    else
      let expr := fst (set_feature_chips main_feature alt_feature
                         (matching_config_chips name) (None, false)) in
      let write to_write m1 :=
        let '(wr, m2) := write_proc name feature to_write m1 in
        if negb (wr =? 0) then Some (- SENSORS_ERR_PROC, m2)
        else Some (0, m2) in
      match expr with
      | None => write value m
      | Some e =>
          match sensors_eval_expr fuel name e value value m with
          | None => None
          | Some (res, to_write, m1) =>
              if negb (res =? 0) then Some (res, m1) else write to_write m1
          end
      end in
  if sensors_chip_name_has_wildcards name
  then Some (- SENSORS_ERR_WILDCARDS, m)
  else
    match prefix name with
    | None => Some (- SENSORS_ERR_WILDCARDS, m)
    | Some p =>
        match sensors_lookup_feature_nr p feature with
        | None => Some (- SENSORS_ERR_NO_ENTRY, m)
        | Some main_feature =>
            if compute_mapping (data main_feature) =? SENSORS_NO_MAPPING
            then search main_feature None
            else
              match sensors_lookup_feature_nr p
                      (compute_mapping (data main_feature)) with
              | None => Some (- SENSORS_ERR_NO_ENTRY, m)
              | Some alt => search main_feature (Some alt)
              end
        end
    end.

(** ** sensors_do_this_chip_sets *)

(** The locals of the function that live across the two loops.  The array
    [feature_list] with its count is a list.  [sets_err_log] is a history
    variable that the C code does not have: the values assigned to [err],
    oldest first. *)
Record sets_state := {
  sets_err : Z;
  sets_feature_list : list Z;
  sets_value : float;
  sets_mach : machine;
  sets_err_log : list Z
}.

Definition sets_fail (st : sets_state) (msg : string) (lineno : Z) (res : Z)
    (value : float) (m : machine) : sets_state :=
  {| sets_err := res;
     sets_feature_list := sets_feature_list st;
     sets_value := value;
     sets_mach := sensors_parse_error msg lineno m;
     sets_err_log := sets_err_log st ++ [res] |}.

(** One round of the loop over [chip->sets]. *)
Definition do_this_chip_set (fuel : nat) (name : sensors_chip_name)
    (st : sets_state) (s : sensors_set) : option sets_state :=
  match prefix name with
  | None => None
  | Some p =>
      match sensors_lookup_feature_name p (set_name s) with
      | None =>
          Some (sets_fail st "Unknown feature name"%string (set_lineno s)
                  SENSORS_ERR_NO_ENTRY (sets_value st) (sets_mach st))
      | Some feature =>
          let feature_nr := number (data feature) in
          if existsb (Z.eqb feature_nr) (sets_feature_list st) then Some st
          else
            let st1 :=
              {| sets_err := sets_err st;
                 sets_feature_list := sets_feature_list st ++ [feature_nr];
                 sets_value := sets_value st;
                 sets_mach := sets_mach st;
                 sets_err_log := sets_err_log st |} in
            match sensors_eval_expr fuel name (set_value s) zero
                    (sets_value st1) (sets_mach st1) with
            | None => None
            | Some (res, value, m1) =>
                if negb (res =? 0)
                then Some (sets_fail st1 "Error parsing expression"%string
                             (set_lineno s) res value m1)
                else
                  match sensors_set_feature fuel name feature_nr value m1 with
                  | None => None
                  | Some (res', m2) =>
                      if negb (res' =? 0)
                      then Some (sets_fail st1 "Failed to set feature"%string
                                   (set_lineno s) res' value m2)
                      else
                        Some {| sets_err := sets_err st1;
                                sets_feature_list := sets_feature_list st1;
                                sets_value := value;
                                sets_mach := m2;
                                sets_err_log := sets_err_log st1 |}
                  end
            end
      end
  end.

Fixpoint do_this_chip_sets_entry (fuel : nat) (name : sensors_chip_name)
    (ss : list sensors_set) (st : sets_state) : option sets_state :=
  match ss with
  | [] => Some st
  | s :: rest =>
      match do_this_chip_set fuel name st s with
      | None => None
      | Some st' => do_this_chip_sets_entry fuel name rest st'
      end
  end.

Fixpoint do_this_chip_sets_chips (fuel : nat) (name : sensors_chip_name)
    (cs : list sensors_chip) (st : sets_state) : option sets_state :=
  match cs with
  | [] => Some st
  | chip :: rest =>
      match do_this_chip_sets_entry fuel name (sets chip) st with
      | None => None
      | Some st' => do_this_chip_sets_chips fuel name rest st'
      end
  end.

Definition sets_init (m : machine) : sets_state :=
  {| sets_err := 0;
     sets_feature_list := [];
     sets_value := indeterminate;
     sets_mach := m;
     sets_err_log := [] |}.

(** The function up to its [return]: the final values of its locals. *)
Definition do_this_chip_sets_run (fuel : nat) (name : sensors_chip_name)
    (m : machine) : option sets_state :=
  do_this_chip_sets_chips fuel name (matching_config_chips name) (sets_init m).

Definition sensors_do_this_chip_sets (fuel : nat) (name : sensors_chip_name)
    (m : machine) : option (Z * machine) :=
  match do_this_chip_sets_run fuel name m with
  | None => None
  | Some st => Some (sets_err st, sets_mach st)
  end.

(** ** sensors_get_detected_chips, sensors_do_chip_sets *)

(** Returns the chip, if any, and the new content of [*nr]. *)
Definition sensors_get_detected_chips (nr : nat)
  : option sensors_chip_name * nat :=
  (option_map proc_name (nth_error sensors_proc_chips nr), S nr).

(** The loop of [sensors_do_chip_sets]; [n] bounds the number of rounds.
    [runs] is a history variable: the final locals of each call to
    [sensors_do_this_chip_sets], oldest first. *)
Fixpoint do_chip_sets_rounds (n fuel : nat) (name : sensors_chip_name)
    (nr : nat) (res : Z) (m : machine) (runs : list sets_state)
  : option (Z * machine * list sets_state) :=
  match n with
  | O => Some (res, m, runs)
  | S n' =>
      match sensors_get_detected_chips nr with
      | (None, _) => Some (res, m, runs)
      | (Some found_name, nr') =>
          if sensors_match_chip name found_name then
            match do_this_chip_sets_run fuel found_name m with
            | None => None
            | Some st =>
                do_chip_sets_rounds n' fuel name nr'
                  (if res =? 0 then sets_err st else res)
                  (sets_mach st) (runs ++ [st])
            end
          else do_chip_sets_rounds n' fuel name nr' res m runs
      end
  end.

Definition do_chip_sets_run (fuel : nat) (name : sensors_chip_name)
    (m : machine) : option (Z * machine * list sets_state) :=
  do_chip_sets_rounds (S (List.length sensors_proc_chips)) fuel name 0%nat 0
    m [].

Definition sensors_do_chip_sets (fuel : nat) (name : sensors_chip_name)
    (m : machine) : option (Z * machine) :=
  match do_chip_sets_run fuel name m with
  | None => None
  | Some (res, m', _) => Some (res, m')
  end.

(** ** sensors_do_all_sets *)

Definition all_chips : sensors_chip_name :=
  {| prefix := None;
     bus := SENSORS_CHIP_NAME_BUS_ANY;
     addr := SENSORS_CHIP_NAME_ADDR_ANY |}.

Definition do_all_sets_run (fuel : nat) (m : machine)
  : option (Z * machine * list sets_state) :=
  do_chip_sets_run fuel all_chips m.

Definition sensors_do_all_sets (fuel : nat) (m : machine)
  : option (Z * machine) :=
  sensors_do_chip_sets fuel all_chips m.

(** ** sensors_get_adapter_name *)

(** The buses found by proc.c: a global array, never modified here. *)
Variable sensors_proc_bus : list sensors_bus.

Definition sensors_get_adapter_name (bus_nr : Z) : option string :=
  if bus_nr =? SENSORS_CHIP_NAME_BUS_ISA then Some "ISA adapter"%string
  else if bus_nr =? SENSORS_CHIP_NAME_BUS_PCI then Some "PCI adapter"%string
  else if bus_nr =? SENSORS_CHIP_NAME_BUS_DUMMY
       then Some "Dummy adapter"%string
  else
    match find (fun b => bus_number b =? bus_nr) sensors_proc_bus with
    | Some b => Some (bus_adapter b)
    | None => None
    end.

(** ** sensors_get_all_features *)

(** How far a scan of an array of descriptors runs before it stops: up to
    the first descriptor that passes [test], or to the end of the
    descriptors, where the terminating entry with the null name stands. *)
Fixpoint scan_offset (test : sensors_chip_feature -> bool)
    (l : list sensors_chip_feature) : nat :=
  match l with
  | [] => O
  | g :: rest => if test g then O else S (scan_offset test rest)
  end.

(** The index at which [for (i = from; list[i].data.name && !test; i++)]
    leaves [i]. *)
Definition scan_stop (test : sensors_chip_feature -> bool)
    (feature_list : list sensors_chip_feature) (from : nat) : nat :=
  (from + scan_offset test (skipn from feature_list))%nat.

(** Returns the descriptor, if any, and the new contents of [*nr1] and
    [*nr2].  The call has no result when [*nr1 - 1] or [*nr2] lies outside
    the array: a caller that starts from 0 and 0 and stops at the first
    NULL does not get there. *)
Definition sensors_get_all_features (name : sensors_chip_name)
    (nr1 nr2 : nat) : option (option sensors_feature_data * nat * nat) :=
  match prefix name with
  | None => None
  | Some p =>
      match find (fun e => same_name (features_prefix e) p)
              sensors_chip_features_list with
      | None => Some (None, nr1, nr2)
      | Some e =>
          let feature_list := features_feature e in
          if (nr1 =? 0)%nat && (nr2 =? 0)%nat then
            match feature_list with
            | [] => Some (None, nr1, nr2)
            | first :: _ => Some (Some (data first), 1%nat, 1%nat)
            end
          else
            match nr1 with
            | O => None
            | S i1 =>
                match nth_error feature_list i1 with
                | None => None
                | Some main =>
                    if (List.length feature_list <? nr2)%nat then None
                    else
                      let q :=
                        scan_stop (fun g => mapping (data g) =?
                                            number (data main))
                          feature_list nr2 in
                      match nth_error feature_list q with
                      | Some g => Some (Some (data g), nr1, S q)
                      | None =>
                          let r :=
                            scan_stop (fun g => mapping (data g) =?
                                                SENSORS_NO_MAPPING)
                              feature_list nr1 in
                          match nth_error feature_list r with
                          | Some g => Some (Some (data g), S r, S r)
                          | None => Some (None, S r, S r)
                          end
                      end
                end
            end
      end
  end.

(** What the caller collects who calls until NULL, starting from [nr1] and
    [nr2]; [n] bounds the number of calls. *)
Fixpoint all_features_rounds (n : nat) (name : sensors_chip_name)
    (nr1 nr2 : nat) : list sensors_feature_data :=
  match n with
  | O => []
  | S n' =>
      match sensors_get_all_features name nr1 nr2 with
      | Some (Some d, nr1', nr2') =>
          d :: all_features_rounds n' name nr1' nr2'
      | _ => []
      end
  end.

(** ** Vocabulary of the statements *)

(** Where the iterator of the config entries starts its scan. *)
Definition cursor_position (last : option nat) : nat :=
  match last with
  | Some l => l
  | None => List.length sensors_config_chips
  end.

(** Some config entry that matches the chip [name] has an [ignore] statement
    for the feature name [n] (compared as [strcasecmp] does). *)
Definition ignored_by (name : sensors_chip_name) (n : string) : Prop :=
  exists chip ig,
    In chip sensors_config_chips /\ chip_fits name chip = true /\
    In ig (ignores chip) /\ strcasecmp n (ignore_name ig) = 0.

Definition entry_ignores (n : string) (chip : sensors_chip) : bool :=
  existsb (fun ig => same_name n (ignore_name ig)) (ignores chip).

Definition ignores_name (name : sensors_chip_name) (n : string) : bool :=
  existsb (entry_ignores n) (matching_config_chips name).

(** [sensors_get_feature] from the test of the access mode on, once the
    main and the alternate descriptor are known (lines 237 to 256). *)
Definition get_feature_found (fuel : nat) (name : sensors_chip_name)
    (feature : Z) (result : float) (m : machine)
    (main_feature : sensors_chip_feature)
    (alt_feature : option sensors_chip_feature) : outcome :=
  if Z.land (mode (data main_feature)) SENSORS_MODE_R =? 0
  then Some (- SENSORS_ERR_ACCESS_R, result, m)
  else
    let '(rd, val, m1) := read_proc name feature m in
    if negb (rd =? 0) then Some (- SENSORS_ERR_PROC, result, m1)
    else
      match fst (get_feature_chips main_feature alt_feature
                   (matching_config_chips name) (None, false)) with
      | None => Some (0, val, m1)
      | Some e =>
          match fuel with
          | O => None
          | S fuel' => sensors_eval_expr fuel' name e val result m1
          end
      end.

(** [sensors_set_feature] from [to_write = value] on, once the expression
    is known (lines 294 to 300). *)
Definition set_feature_write (fuel : nat) (name : sensors_chip_name)
    (feature : Z) (value : float) (m : machine)
    (expr : option sensors_expr) : option (Z * machine) :=
  match expr with
  | None =>
      let '(wr, m2) := write_proc name feature value m in
      if negb (wr =? 0) then Some (- SENSORS_ERR_PROC, m2) else Some (0, m2)
  | Some e =>
      match sensors_eval_expr fuel name e value value m with
      | None => None
      | Some (res, to_write, m1) =>
          if negb (res =? 0) then Some (res, m1)
          else
            let '(wr, m2) := write_proc name feature to_write m1 in
            if negb (wr =? 0) then Some (- SENSORS_ERR_PROC, m2)
            else Some (0, m2)
      end
  end.

(** The [from] expression that one config entry contributes to the search
    of [sensors_get_feature]: the one of its first [compute] statement for
    the main feature's name, or else the one of its last [compute] statement
    for the alternate feature's name. *)
Definition entry_from_expr (main_feature : sensors_chip_feature)
    (alt_feature : option sensors_chip_feature) (cs : list sensors_compute)
  : option sensors_expr :=
  match find (fun c => same_name (data_name (data main_feature))
                                 (compute_name c)) cs with
  | Some c => Some (from_proc c)
  | None =>
      option_map from_proc
        (find (fun c => alt_same_name alt_feature (compute_name c)) (rev cs))
  end.

(** The chip and feature number of every write to the backend in a stretch
    of the trace, in the order of the writes. *)
Definition written (evs : list io_event) : list (sensors_chip_name * Z) :=
  flat_map (fun ev => match ev with
                      | ev_write_proc c f _ => [(c, f)]
                      | _ => []
                      end) evs.

Definition written_features (evs : list io_event) : list Z :=
  map snd (written evs).

(** From [m] to [m'] the file only read from the backend. *)
Definition reads_only (m m' : machine) : Prop :=
  exists evs, trace m' = trace m ++ evs /\ written evs = [].

(** Since the machine [m0], the run that reached [st] wrote to the backend
    only for the chip [name], only to feature numbers on its list, and to
    none of them twice. *)
Definition written_once (name : sensors_chip_name) (m0 : machine)
    (st : sets_state) : Prop :=
  exists evs,
    trace (sets_mach st) = trace m0 ++ evs /\
    NoDup (written_features evs) /\
    Forall (fun w => fst w = name /\ In (snd w) (sets_feature_list st))
      (written evs).

(** The calls of [sensors_do_this_chip_sets] that one call of
    [sensors_do_chip_sets] makes: one per chip of the list, each starting
    from the machine the one before it left. *)
Inductive chip_runs (fuel : nat)
  : list sensors_chip_name -> machine -> list sets_state -> machine -> Prop :=
| chip_runs_nil m : chip_runs fuel [] m [] m
| chip_runs_cons found rest m st sts m' :
    do_this_chip_sets_run fuel found m = Some st ->
    chip_runs fuel rest (sets_mach st) sts m' ->
    chip_runs fuel (found :: rest) m (st :: sts) m'.

(** The first code of a list that is not 0, or 0. *)
Definition first_nonzero (l : list Z) : Z :=
  hd 0 (filter (fun e => negb (e =? 0)) l).

(** From [st] to [st'] the feature number [n] stayed on the list and was not
    written to. *)
Definition never_rewritten (n : Z) (st st' : sets_state) : Prop :=
  In n (sets_feature_list st') /\
  exists evs, trace (sets_mach st') = trace (sets_mach st) ++ evs /\
              ~ In n (written_features evs).


(** The claim's words: the first error met in the whole run, 0 if none. *)
Definition first_error (runs : list sets_state) : Z :=
  hd 0 (List.concat (map sets_err_log runs)).

(** An expression without variable reference. *)
Fixpoint var_free (e : sensors_expr) : bool :=
  match e with
  | sensors_kind_val _ => true
  | sensors_kind_source => true
  | sensors_kind_var _ => false
  | sensors_kind_sub _ sub1 None => var_free sub1
  | sensors_kind_sub _ sub1 (Some e2) => var_free sub1 && var_free e2
  end.

(** No [from] expression of the config refers to a feature by name: reading
    a feature never reads another one. *)
Definition computes_var_free : Prop :=
  Forall (fun chip =>
            Forall (fun c => var_free (from_proc c) = true) (computes chip))
    sensors_config_chips.

(** A C string: no character of it is the terminating NUL. *)
Definition c_string (s : string) : Prop :=
  Forall (fun c => c <> Ascii.zero) (list_ascii_of_string s).

(** A string with every letter in lower case, as codes. *)
Definition lower (s : string) : list Z :=
  map tolower (list_ascii_of_string s).

(** Every prefix and every feature name of the catalog is a C string. *)
Definition catalog_c_strings : Prop :=
  Forall (fun e =>
            c_string (features_prefix e) /\
            Forall (fun f => c_string (data_name (data f)))
              (features_feature e))
    sensors_chip_features_list.

(** The entry [chip] has a [label] statement for the feature [f]. *)
Definition entry_label (f : sensors_chip_feature) (chip : sensors_chip)
  : option sensors_label :=
  find (fun l => same_name (data_name (data f)) (label_name l)) (labels chip).

(** The [set] statements that [sensors_do_this_chip_sets] meets for a chip,
    in the order in which it meets them. *)
Definition sets_in_scan_order (name : sensors_chip_name) : list sensors_set :=
  flat_map sets (matching_config_chips name).

(** The feature numbers that these statements resolve to; a statement that
    names no feature of the catalog gives none. *)
Definition resolved_numbers (p : string) (ss : list sensors_set) : list Z :=
  flat_map (fun s => match sensors_lookup_feature_name p (set_name s) with
                     | Some f => [number (data f)]
                     | None => []
                     end) ss.

(** A list of numbers without the repetitions, each number at the place of
    its first occurrence. *)
Definition add_number (acc : list Z) (n : Z) : list Z :=
  if existsb (Z.eqb n) acc then acc else acc ++ [n].

Definition first_occurrences (l : list Z) : list Z :=
  fold_left add_number l [].




(** The descriptors that follow [main] in [rest] and are mapped to it. *)
Definition subfeatures (main : sensors_chip_feature)
    (rest : list sensors_chip_feature) : list sensors_chip_feature :=
  filter (fun g => mapping (data g) =? number (data main)) rest.

(** Each descriptor without mapping of a list, followed by the descriptors
    after it that are mapped to it. *)
Fixpoint main_features_with_subs (l : list sensors_chip_feature)
  : list sensors_chip_feature :=
  match l with
  | [] => []
  | f :: rest =>
      if mapping (data f) =? SENSORS_NO_MAPPING
      then f :: subfeatures f rest ++ main_features_with_subs rest
      else main_features_with_subs rest
  end.

(** The same, with the first descriptor of the list taken as a main feature
    whatever its mapping. *)
Definition features_in_order (l : list sensors_chip_feature)
  : list sensors_chip_feature :=
  match l with
  | [] => []
  | first :: rest =>
      first :: subfeatures first rest ++ main_features_with_subs rest
  end.

(** The spec's words for the bulk pass.  What became of one [set]
    statement: it was skipped because a statement met before it resolves to
    the same feature number; it was evaluated and its value written; or it
    failed, with the code that was recorded for it. *)
Inductive set_outcome :=
| set_skipped
| set_done
| set_failed (res : Z).

(** One statement, met after the statements [before] with [value] in the
    local of that name: resolve the name, and report it when the catalog
    does not have it; skip a feature number met before; else evaluate the
    expression with the source value 0 and hand the result to
    [sensors_set_feature], and report a failure of either. *)
Definition attempt_directive (fuel : nat) (name : sensors_chip_name)
    (before : list sensors_set) (value : float) (m : machine)
    (s : sensors_set) : option (set_outcome * float * machine) :=
  match prefix name with
  | None => None
  | Some p =>
      match sensors_lookup_feature_name p (set_name s) with
      | None =>
          Some (set_failed SENSORS_ERR_NO_ENTRY, value,
                sensors_parse_error "Unknown feature name" (set_lineno s) m)
      | Some f =>
          if existsb (Z.eqb (number (data f))) (resolved_numbers p before)
          then Some (set_skipped, value, m)
          else
            match sensors_eval_expr fuel name (set_value s) zero value m with
            | None => None
            | Some (res, value', m1) =>
                if res =? 0 then
                  match sensors_set_feature fuel name (number (data f))
                          value' m1 with
                  | None => None
                  | Some (res', m2) =>
                      if res' =? 0 then Some (set_done, value', m2)
                      else Some (set_failed res', value',
                                 sensors_parse_error "Failed to set feature"
                                   (set_lineno s) m2)
                  end
                else Some (set_failed res, value',
                           sensors_parse_error "Error parsing expression"
                             (set_lineno s) m1)
            end
      end
  end.

(** Every statement of a list in turn, whatever became of the ones before
    it: one outcome per statement, in the order of the statements. *)
Fixpoint attempt_directives (fuel : nat) (name : sensors_chip_name)
    (before ss : list sensors_set) (value : float) (m : machine)
  : option (list set_outcome * float * machine) :=
  match ss with
  | [] => Some ([], value, m)
  | s :: rest =>
      match attempt_directive fuel name before value m s with
      | None => None
      | Some (o, value1, m1) =>
          match attempt_directives fuel name (before ++ [s]) rest value1 m1
          with
          | None => None
          | Some (os, value', m') => Some (o :: os, value', m')
          end
      end
  end.

(** Every chip of a list in turn, each with all the statements that the
    scan meets for it, whatever became of the chips before it. *)
Fixpoint attempt_chips (fuel : nat) (names : list sensors_chip_name)
    (m : machine) : option (list (list set_outcome) * machine) :=
  match names with
  | [] => Some ([], m)
  | found :: rest =>
      match attempt_directives fuel found [] (sets_in_scan_order found)
              indeterminate m with
      | None => None
      | Some (os, _, m1) =>
          match attempt_chips fuel rest m1 with
          | None => None
          | Some (oss, m') => Some (os :: oss, m')
          end
      end
  end.

(** The codes of the statements that failed, in the order of the
    statements. *)
Definition failures (os : list set_outcome) : list Z :=
  flat_map (fun o => match o with
                     | set_failed res => [res]
                     | _ => []
                     end) os.

(** The code of the last statement that failed, or 0. *)
Definition last_failure (os : list set_outcome) : Z := last (failures os) 0.

(** * Properties *)

(** ** The config entries that match a chip *)

Lemma firstn_snoc {A} (l : list A) (k : nat) (x : A) :
  nth_error l k = Some x -> firstn (S k) l = firstn k l ++ [x].
Proof.
  revert k; induction l as [|y l IH]; intros [|k] H; simpl in *;
    try discriminate.
  - now inversion H.
  - now rewrite <- (IH k H).
Qed.

Lemma firstn_past {A} (l : list A) (k : nat) :
  nth_error l k = None -> firstn (S k) l = firstn k l.
Proof.
  revert k; induction l as [|y l IH]; intros [|k] H; simpl in *;
    try discriminate; try reflexivity.
  now rewrite <- (IH k H).
Qed.

(** What one call of the iterator finds below position [n]. *)
Lemma config_chips_scan_spec (chip_name : sensors_chip_name) (n : nat) :
  match config_chips_scan chip_name n with
  | None => filter (chip_fits chip_name) (firstn n sensors_config_chips) = []
  | Some nr =>
      (nr < n)%nat /\
      exists c, nth_error sensors_config_chips nr = Some c /\
                chip_fits chip_name c = true /\
                filter (chip_fits chip_name) (firstn n sensors_config_chips) =
                filter (chip_fits chip_name) (firstn nr sensors_config_chips)
                  ++ [c]
  end.
Proof.
  induction n as [|k IH]; [reflexivity|].
  cbn [config_chips_scan].
  destruct (nth_error sensors_config_chips k) as [c|] eqn:Hk.
  - rewrite (firstn_snoc _ _ _ Hk), filter_app; simpl.
    destruct (chip_fits chip_name c) eqn:Hc.
    + split; [lia|]. exists c; auto.
    + rewrite app_nil_r.
      destruct (config_chips_scan chip_name k) as [nr|]; [|exact IH].
      destruct IH as [Hlt IH]; split; [lia | exact IH].
  - rewrite (firstn_past _ _ Hk).
    destruct (config_chips_scan chip_name k) as [nr|]; [|exact IH].
    destruct IH as [Hlt IH]; split; [lia | exact IH].
Qed.

Lemma config_chips_rounds_spec (name : sensors_chip_name) (n : nat) :
  forall last, (cursor_position last < n)%nat ->
    config_chips_rounds n name last =
    rev (filter (chip_fits name)
           (firstn (cursor_position last) sensors_config_chips)).
Proof.
  induction n as [|n IH]; intros last Hn; [lia|].
  cbn [config_chips_rounds]. unfold sensors_for_all_config_chips.
  fold (cursor_position last).
  pose proof (config_chips_scan_spec name (cursor_position last)) as Hs.
  destruct (config_chips_scan name (cursor_position last)) as [nr|].
  - destruct Hs as [Hlt [c [Hc [_ Hf]]]].
    rewrite Hc, Hf, rev_app_distr; simpl.
    f_equal. apply (IH (Some nr)). simpl; lia.
  - now rewrite Hs.
Qed.

(** The loop [for (chip = NULL; (chip = sensors_for_all_config_chips(name,
    chip));)] visits exactly the config entries one of whose patterns
    matches [name], the one declared last first. *)
Lemma matching_config_chips_spec (name : sensors_chip_name) :
  matching_config_chips name =
  rev (filter (chip_fits name) sensors_config_chips).
Proof.
  unfold matching_config_chips.
  rewrite (config_chips_rounds_spec name _ None) by (simpl; lia).
  simpl. now rewrite firstn_all.
Qed.

Lemma in_matching_config_chips (name : sensors_chip_name) (c : sensors_chip) :
  In c (matching_config_chips name) <->
  In c sensors_config_chips /\ chip_fits name c = true.
Proof.
  rewrite matching_config_chips_spec, <- in_rev. apply filter_In.
Qed.

(** ** sensors_get_ignored *)

Lemma ignores_name_iff (name : sensors_chip_name) (n : string) :
  ignores_name name n = true <-> ignored_by name n.
Proof.
  unfold ignores_name, ignored_by, entry_ignores, same_name.
  rewrite existsb_exists. split.
  - intros [chip [Hin Hex]]. apply existsb_exists in Hex.
    destruct Hex as [ig [Hig Heq]].
    apply in_matching_config_chips in Hin. destruct Hin as [Hc Hf].
    exists chip, ig. repeat split; auto. now apply Z.eqb_eq.
  - intros [chip [ig [Hc [Hf [Hig Heq]]]]].
    exists chip. split; [apply in_matching_config_chips; auto|].
    apply existsb_exists. exists ig. split; auto. now apply Z.eqb_eq.
Qed.

Lemma existsb_never {A} (l : list A) : existsb (fun _ => false) l = false.
Proof. induction l; simpl; auto. Qed.

Lemma get_ignored_ignores_spec featureptr alt igs : forall res,
  get_ignored_ignores featureptr alt igs res =
  if existsb (fun ig => same_name (data_name (data featureptr))
                                  (ignore_name ig)) igs
  then inl 0
  else inr (if existsb (fun ig => alt_same_name alt (ignore_name ig)) igs
            then 0 else res).
Proof.
  induction igs as [|ig rest IH]; intros res; simpl; [reflexivity|].
  destruct (same_name _ (ignore_name ig)); simpl; [reflexivity|].
  destruct (alt_same_name alt (ignore_name ig)); simpl; rewrite IH;
    destruct (existsb _ rest); try reflexivity.
  now destruct (existsb _ rest).
Qed.

Lemma get_ignored_chips_spec featureptr alt cs : forall res,
  get_ignored_chips featureptr alt cs res =
  if existsb (entry_ignores (data_name (data featureptr))) cs then 0
  else if existsb (fun c => existsb (fun ig => alt_same_name alt (ignore_name ig))
                              (ignores c)) cs
       then 0 else res.
Proof.
  induction cs as [|chip rest IH]; intros res; simpl; [reflexivity|].
  rewrite get_ignored_ignores_spec. unfold entry_ignores at 1.
  destruct (existsb _ (ignores chip)); simpl; [reflexivity|].
  rewrite IH.
  destruct (existsb (entry_ignores _) rest); [reflexivity|].
  destruct (existsb _ (ignores chip)); simpl; [|reflexivity].
  now destruct (existsb _ rest).
Qed.

Lemma get_ignored_chips_no_alt featureptr name :
  get_ignored_chips featureptr None (matching_config_chips name) 1 =
  if ignores_name name (data_name (data featureptr)) then 0 else 1.
Proof.
  rewrite get_ignored_chips_spec. fold (ignores_name name (data_name (data featureptr))).
  destruct (ignores_name name _); [reflexivity|].
  replace (existsb _ (matching_config_chips name)) with false; [reflexivity|].
  symmetry. induction (matching_config_chips name) as [|c l IH];
    [reflexivity|].
  cbn [existsb]. rewrite IH, orb_false_r.
  change (existsb (fun _ : sensors_ignore => false) (ignores c) = false).
  apply existsb_never.
Qed.

Lemma get_ignored_chips_alt featureptr a name :
  get_ignored_chips featureptr (Some a) (matching_config_chips name) 1 =
  if ignores_name name (data_name (data featureptr))
     || ignores_name name (data_name (data a))
  then 0 else 1.
Proof.
  rewrite get_ignored_chips_spec.
  fold (ignores_name name (data_name (data featureptr))).
  destruct (ignores_name name (data_name (data featureptr))); reflexivity.
Qed.

Lemma get_ignored_by_mapping
    (name : sensors_chip_name) (p : string) (feature : Z)
    (featureptr : sensors_chip_feature) :
  sensors_chip_name_has_wildcards name = false ->
  prefix name = Some p ->
  sensors_lookup_feature_nr p feature = Some featureptr ->
  (mapping (data featureptr) = SENSORS_NO_MAPPING ->
   sensors_get_ignored name feature =
   if ignores_name name (data_name (data featureptr)) then 0 else 1) /\
  (forall a,
   mapping (data featureptr) <> SENSORS_NO_MAPPING ->
   sensors_lookup_feature_nr p (mapping (data featureptr)) = Some a ->
   sensors_get_ignored name feature =
   if ignores_name name (data_name (data featureptr))
      || ignores_name name (data_name (data a))
   then 0 else 1).
Proof.
  intros Hw Hp Hf. unfold sensors_get_ignored. rewrite Hw, Hp, Hf. split.
  - intros Hm. rewrite Hm, Z.eqb_refl. apply get_ignored_chips_no_alt.
  - intros a Hm Hl. apply Z.eqb_neq in Hm. rewrite Hm, Hl.
    apply get_ignored_chips_alt.
Qed.

(** C5, as amended: [sensors_get_ignored] finds the alternate descriptor
    of the queried feature through the [mapping] field of its descriptor
    (not through [compute_mapping]).  When [mapping] is
    [SENSORS_NO_MAPPING] there is no alternate and only an [ignore] of the
    feature's own name hides it; when [mapping] names a feature number
    that the catalog does not have, the call fails with
    [-SENSORS_ERR_NO_ENTRY]; else the mapped feature is the alternate. *)
Theorem get_ignored_alternate_through_mapping
    (name : sensors_chip_name) (p : string) (feature : Z)
    (featureptr : sensors_chip_feature) :
  sensors_chip_name_has_wildcards name = false ->
  prefix name = Some p ->
  sensors_lookup_feature_nr p feature = Some featureptr ->
  (mapping (data featureptr) = SENSORS_NO_MAPPING ->
   sensors_get_ignored name feature =
   if ignores_name name (data_name (data featureptr)) then 0 else 1) /\
  (mapping (data featureptr) <> SENSORS_NO_MAPPING ->
   sensors_lookup_feature_nr p (mapping (data featureptr)) = None ->
   sensors_get_ignored name feature = - SENSORS_ERR_NO_ENTRY) /\
  (forall a,
   mapping (data featureptr) <> SENSORS_NO_MAPPING ->
   sensors_lookup_feature_nr p (mapping (data featureptr)) = Some a ->
   sensors_get_ignored name feature =
   if ignores_name name (data_name (data featureptr))
      || ignores_name name (data_name (data a))
   then 0 else 1).
Proof.
  intros Hw Hp Hf. unfold sensors_get_ignored. rewrite Hw, Hp, Hf.
  repeat split.
  - intros Hm. rewrite Hm, Z.eqb_refl. apply get_ignored_chips_no_alt.
  - intros Hm Hl. apply Z.eqb_neq in Hm. now rewrite Hm, Hl.
  - intros a Hm Hl. apply Z.eqb_neq in Hm. rewrite Hm, Hl.
    apply get_ignored_chips_alt.
Qed.

(** C6: on a concrete chip and a feature whose descriptor (and alternate
    descriptor, if its mapping declares one) resolves, [sensors_get_ignored]
    returns 0, ignored, as soon as some matching config entry ignores the
    name of the main descriptor, whatever the alternate matches and in
    whatever order the entries are scanned; it returns 0 as well when a
    matching entry ignores the name of the alternate; and it returns 1,
    visible, when no matching entry ignores either name. *)
Theorem get_ignored_precedence
    (name : sensors_chip_name) (p : string) (feature : Z)
    (featureptr : sensors_chip_feature) (alt : option sensors_chip_feature) :
  sensors_chip_name_has_wildcards name = false ->
  prefix name = Some p ->
  sensors_lookup_feature_nr p feature = Some featureptr ->
  (mapping (data featureptr) = SENSORS_NO_MAPPING /\ alt = None \/
   mapping (data featureptr) <> SENSORS_NO_MAPPING /\ alt <> None /\
   sensors_lookup_feature_nr p (mapping (data featureptr)) = alt) ->
  (ignored_by name (data_name (data featureptr)) ->
   sensors_get_ignored name feature = 0) /\
  (forall a, alt = Some a -> ignored_by name (data_name (data a)) ->
   sensors_get_ignored name feature = 0) /\
  (~ ignored_by name (data_name (data featureptr)) ->
   (forall a, alt = Some a -> ~ ignored_by name (data_name (data a))) ->
   sensors_get_ignored name feature = 1).
Proof.
  intros Hw Hp Hf Halt.
  destruct (get_ignored_by_mapping name p feature featureptr
              Hw Hp Hf) as [Hnone Hsome].
  destruct Halt as [[Hm ->] | [Hm [Hne Hl]]].
  - rewrite (Hnone Hm). repeat split.
    + intros Hi. apply ignores_name_iff in Hi. now rewrite Hi.
    + intros a Ha; discriminate.
    + intros Hi _.
      destruct (ignores_name name _) eqn:E; [|reflexivity].
      apply ignores_name_iff in E. contradiction.
  - destruct alt as [a|]; [|congruence].
    rewrite (Hsome a Hm Hl). repeat split.
    + intros Hi. apply ignores_name_iff in Hi. now rewrite Hi.
    + intros a' Ha Hi. inversion Ha; subst a'.
      apply ignores_name_iff in Hi. now rewrite Hi, orb_true_r.
    + intros Hi Hia.
      destruct (ignores_name name (data_name (data featureptr))) eqn:E1.
      { apply ignores_name_iff in E1. contradiction. }
      destruct (ignores_name name (data_name (data a))) eqn:E2; [|reflexivity].
      apply ignores_name_iff in E2. exfalso. exact (Hia a eq_refl E2).
Qed.

(** ** The codes that the evaluator and the accessors return *)

Lemma eval_switch_codes op res1 res2 result r v :
  eval_switch op res1 res2 result = (r, v) ->
  r = 0 \/ r = - SENSORS_ERR_DIV_ZERO.
Proof.
  destruct op; simpl; intros H;
    try (inversion H; auto; fail);
    match type of H with
    | (if ?b then _ else _) = _ => destruct b; inversion H; auto
    end.
Qed.

(** Whatever [sensors_get_feature] returns to it, the evaluator returns 0,
    [SENSORS_ERR_NO_ENTRY] or [-SENSORS_ERR_DIV_ZERO]. *)
Lemma eval_expr_codes get_feature chipname expr :
  forall val result m r v m',
    eval_expr get_feature chipname expr val result m = Some (r, v, m') ->
    r = 0 \/ r = SENSORS_ERR_NO_ENTRY \/ r = - SENSORS_ERR_DIV_ZERO.
Proof.
  induction expr as [v0| |var|op sub1 IH1|op sub1 e2 IH1 IH2]
    using sensors_expr_induction; intros val result m r v m' H; simpl in H.
  - inversion H; auto.
  - inversion H; auto.
  - destruct (prefix chipname) as [p|]; [|discriminate].
    destruct (sensors_lookup_feature_name p var) as [f|].
    + destruct (get_feature chipname (number (data f)) result m)
        as [[[res r'] m1]|]; [|discriminate].
      destruct (res =? 0) eqn:E; inversion H; subst; auto.
      apply Z.eqb_eq in E; auto.
    + inversion H; auto.
  - destruct (eval_expr get_feature chipname sub1 val indeterminate m)
      as [[[res res1] m1]|] eqn:E1; [|discriminate].
    destruct (negb (res =? 0)).
    + inversion H; subst. eapply IH1; eauto.
    + destruct (eval_switch op res1 indeterminate result) as [r0 v0] eqn:Es.
      inversion H; subst.
      destruct (eval_switch_codes _ _ _ _ _ _ Es); auto.
  - destruct (eval_expr get_feature chipname sub1 val indeterminate m)
      as [[[res res1] m1]|] eqn:E1; [|discriminate].
    destruct (negb (res =? 0)).
    + inversion H; subst. eapply IH1; eauto.
    + destruct (eval_expr get_feature chipname e2 val indeterminate m1)
        as [[[res' res2] m2]|] eqn:E2; [|discriminate].
      destruct (negb (res' =? 0)).
      * inversion H; subst. eapply IH2; eauto.
      * destruct (eval_switch op res1 res2 result) as [r0 v0] eqn:Es.
        inversion H; subst.
        destruct (eval_switch_codes _ _ _ _ _ _ Es); auto.
Qed.

Lemma has_wildcards_prefix name :
  sensors_chip_name_has_wildcards name = false ->
  exists p, prefix name = Some p.
Proof.
  unfold sensors_chip_name_has_wildcards.
  destruct (prefix name) as [p|]; [eauto | discriminate].
Qed.

(** The two accessors, seen from the descriptors on. *)
Lemma sensors_get_feature_eq fuel name feature result m :
  sensors_get_feature fuel name feature result m =
  if sensors_chip_name_has_wildcards name
  then Some (- SENSORS_ERR_WILDCARDS, result, m)
  else
    match prefix name with
    | None => Some (- SENSORS_ERR_WILDCARDS, result, m)
    | Some p =>
        match sensors_lookup_feature_nr p feature with
        | None => Some (- SENSORS_ERR_NO_ENTRY, result, m)
        | Some main_feature =>
            if compute_mapping (data main_feature) =? SENSORS_NO_MAPPING
            then get_feature_found fuel name feature result m main_feature None
            else
              match sensors_lookup_feature_nr p
                      (compute_mapping (data main_feature)) with
              | None => Some (- SENSORS_ERR_NO_ENTRY, result, m)
              | Some alt =>
                  get_feature_found fuel name feature result m main_feature
                    (Some alt)
              end
        end
    end.
Proof.
  unfold get_feature_found, sensors_eval_expr.
  destruct fuel; cbn [sensors_get_feature];
    destruct (sensors_chip_name_has_wildcards name); try reflexivity;
    destruct (prefix name) as [p|]; try reflexivity;
    destruct (sensors_lookup_feature_nr p feature) as [mf|]; try reflexivity;
    destruct (compute_mapping (data mf) =? SENSORS_NO_MAPPING);
    try destruct (sensors_lookup_feature_nr p (compute_mapping (data mf)));
    try reflexivity;
    destruct (Z.land (mode (data mf)) SENSORS_MODE_R =? 0); try reflexivity;
    destruct (read_proc name feature m) as [[rd val] m1];
    destruct (negb (rd =? 0)); reflexivity.
Qed.

Lemma sensors_set_feature_eq fuel name feature value m :
  sensors_set_feature fuel name feature value m =
  if sensors_chip_name_has_wildcards name
  then Some (- SENSORS_ERR_WILDCARDS, m)
  else
    match prefix name with
    | None => Some (- SENSORS_ERR_WILDCARDS, m)
    | Some p =>
        match sensors_lookup_feature_nr p feature with
        | None => Some (- SENSORS_ERR_NO_ENTRY, m)
        | Some main_feature =>
            let found alt_feature :=
              if Z.land (mode (data main_feature)) SENSORS_MODE_W =? 0
              then Some (- SENSORS_ERR_ACCESS_W, m)
              else set_feature_write fuel name feature value m
                     (fst (set_feature_chips main_feature alt_feature
                             (matching_config_chips name) (None, false))) in
            if compute_mapping (data main_feature) =? SENSORS_NO_MAPPING
            then found None
            else
              match sensors_lookup_feature_nr p
                      (compute_mapping (data main_feature)) with
              | None => Some (- SENSORS_ERR_NO_ENTRY, m)
              | Some alt => found (Some alt)
              end
        end
    end.
Proof.
  reflexivity.
Qed.

Lemma get_feature_found_codes fuel name feature result m main alt r v m' :
  get_feature_found fuel name feature result m main alt = Some (r, v, m') ->
  r <> - SENSORS_ERR_WILDCARDS.
Proof.
  unfold get_feature_found. intros Hr.
  destruct (Z.land _ _ =? 0); [inversion Hr; discriminate|].
  destruct (read_proc name feature m) as [[rd val] m1].
  destruct (negb (rd =? 0)); [inversion Hr; discriminate|].
  destruct (fst _) as [e|]; [|inversion Hr; discriminate].
  destruct fuel as [|fuel']; [discriminate|].
  apply eval_expr_codes in Hr.
  destruct Hr as [-> | [-> | ->]]; discriminate.
Qed.

Lemma get_feature_codes fuel name feature result m r v m' :
  sensors_chip_name_has_wildcards name = false ->
  sensors_get_feature fuel name feature result m = Some (r, v, m') ->
  r <> - SENSORS_ERR_WILDCARDS.
Proof.
  intros Hw H. destruct (has_wildcards_prefix name Hw) as [p Hp].
  rewrite sensors_get_feature_eq, Hw, Hp in H.
  destruct (sensors_lookup_feature_nr p feature) as [main|];
    [|inversion H; discriminate].
  destruct (compute_mapping (data main) =? SENSORS_NO_MAPPING);
    [eapply get_feature_found_codes; exact H|].
  destruct (sensors_lookup_feature_nr p (compute_mapping (data main)))
    as [alt|]; [eapply get_feature_found_codes; exact H
               | inversion H; discriminate].
Qed.

Lemma set_feature_write_codes fuel name feature value m expr r m' :
  set_feature_write fuel name feature value m expr = Some (r, m') ->
  r <> - SENSORS_ERR_WILDCARDS.
Proof.
  unfold set_feature_write. intros Hr.
  destruct expr as [e|].
  - destruct (sensors_eval_expr fuel name e value value m)
      as [[[res w] m1]|] eqn:E; [|discriminate].
    destruct (negb (res =? 0)).
    + inversion Hr; subst. apply eval_expr_codes in E.
      destruct E as [-> | [-> | ->]]; discriminate.
    + destruct (write_proc name feature w m1) as [wr m2].
      destruct (negb (wr =? 0)); inversion Hr; discriminate.
  - destruct (write_proc name feature value m) as [wr m2].
    destruct (negb (wr =? 0)); inversion Hr; discriminate.
Qed.

Lemma set_feature_codes fuel name feature value m r m' :
  sensors_chip_name_has_wildcards name = false ->
  sensors_set_feature fuel name feature value m = Some (r, m') ->
  r <> - SENSORS_ERR_WILDCARDS.
Proof.
  intros Hw H. destruct (has_wildcards_prefix name Hw) as [p Hp].
  rewrite sensors_set_feature_eq, Hw, Hp in H.
  destruct (sensors_lookup_feature_nr p feature) as [main|];
    [|inversion H; discriminate].
  cbv zeta in H.
  destruct (compute_mapping (data main) =? SENSORS_NO_MAPPING).
  - destruct (Z.land _ _ =? 0); [inversion H; discriminate|].
    eapply set_feature_write_codes; exact H.
  - destruct (sensors_lookup_feature_nr p (compute_mapping (data main)))
      as [alt|]; [|inversion H; discriminate].
    destruct (Z.land _ _ =? 0); [inversion H; discriminate|].
    eapply set_feature_write_codes; exact H.
Qed.

Lemma get_ignored_codes name feature :
  sensors_chip_name_has_wildcards name = false ->
  sensors_get_ignored name feature = 0 \/
  sensors_get_ignored name feature = 1 \/
  sensors_get_ignored name feature = - SENSORS_ERR_NO_ENTRY.
Proof.
  intros Hw. destruct (has_wildcards_prefix name Hw) as [p Hp].
  unfold sensors_get_ignored. rewrite Hw, Hp.
  destruct (sensors_lookup_feature_nr p feature) as [f|]; [|auto].
  destruct (mapping (data f) =? SENSORS_NO_MAPPING).
  - rewrite get_ignored_chips_spec.
    repeat match goal with |- context [if ?b then _ else _] => destruct b end;
      auto.
  - destruct (sensors_lookup_feature_nr p (mapping (data f))); [|auto].
    rewrite get_ignored_chips_spec.
    repeat match goal with |- context [if ?b then _ else _] => destruct b end;
      auto.
Qed.

(** C9, as amended: a chip name has a wildcard field when its prefix, its
    bus or its address is ANY, or when its bus is the selector AnyI2C.
    [sensors_get_label], [sensors_get_ignored], [sensors_get_feature] and
    [sensors_set_feature] answer such a name with [-SENSORS_ERR_WILDCARDS]
    whatever the catalog and the config hold, leaving the out-parameter
    and the machine as they were (no call to the backend); and they never
    answer a name without wildcard field with that code. *)
Theorem wildcards_rejected_first
    (name : sensors_chip_name) (feature : Z) (value result : float)
    (m : machine) (fuel : nat) :
  (sensors_chip_name_has_wildcards name = true <->
   prefix name = None \/ bus name = SENSORS_CHIP_NAME_BUS_ANY \/
   bus name = SENSORS_CHIP_NAME_BUS_ANY_I2C \/
   addr name = SENSORS_CHIP_NAME_ADDR_ANY) /\
  if sensors_chip_name_has_wildcards name then
    sensors_get_label name feature = (- SENSORS_ERR_WILDCARDS, None) /\
    sensors_get_ignored name feature = - SENSORS_ERR_WILDCARDS /\
    sensors_get_feature fuel name feature result m =
      Some (- SENSORS_ERR_WILDCARDS, result, m) /\
    sensors_set_feature fuel name feature value m =
      Some (- SENSORS_ERR_WILDCARDS, m)
  else
    fst (sensors_get_label name feature) <> - SENSORS_ERR_WILDCARDS /\
    sensors_get_ignored name feature <> - SENSORS_ERR_WILDCARDS /\
    (forall r v m', sensors_get_feature fuel name feature result m =
                    Some (r, v, m') -> r <> - SENSORS_ERR_WILDCARDS) /\
    (forall r m', sensors_set_feature fuel name feature value m =
                  Some (r, m') -> r <> - SENSORS_ERR_WILDCARDS).
Proof.
  split.
  - unfold sensors_chip_name_has_wildcards.
    destruct (prefix name) as [p|]; [|tauto].
    rewrite !orb_true_iff, !Z.eqb_eq.
    split; [tauto|]. intros [H|H]; [discriminate | tauto].
  - destruct (sensors_chip_name_has_wildcards name) eqn:Hw.
    + rewrite sensors_get_feature_eq, sensors_set_feature_eq.
      unfold sensors_get_label, sensors_get_ignored. rewrite Hw. auto.
    + repeat split.
      * destruct (has_wildcards_prefix name Hw) as [p Hp].
        unfold sensors_get_label. rewrite Hw, Hp.
        destruct (sensors_lookup_feature_nr p feature) as [f|];
          [|discriminate].
        destruct (get_label_scan f (matching_config_chips name));
          discriminate.
      * destruct (get_ignored_codes name feature Hw) as [-> | [-> | ->]];
          discriminate.
      * intros r v m'. apply get_feature_codes; assumption.
      * intros r m'. apply set_feature_codes; assumption.
Qed.

(** ** Division and logarithm *)

Lemma eval_expr_unary get_feature chipname op sub1 val result m :
  eval_expr get_feature chipname (sensors_kind_sub op sub1 None) val result m =
  match eval_expr get_feature chipname sub1 val indeterminate m with
  | None => None
  | Some (res, res1, m1) =>
      if negb (res =? 0) then Some (res, result, m1)
      else let '(r, v) := eval_switch op res1 indeterminate result in
           Some (r, v, m1)
  end.
Proof. reflexivity. Qed.

Lemma eval_expr_binary get_feature chipname op sub1 e2 val result m :
  eval_expr get_feature chipname (sensors_kind_sub op sub1 (Some e2))
    val result m =
  match eval_expr get_feature chipname sub1 val indeterminate m with
  | None => None
  | Some (res, res1, m1) =>
      if negb (res =? 0) then Some (res, result, m1)
      else
        match eval_expr get_feature chipname e2 val indeterminate m1 with
        | None => None
        | Some (res', res2, m2) =>
            if negb (res' =? 0) then Some (res', result, m2)
            else let '(r, v) := eval_switch op res1 res2 result in
                 Some (r, v, m2)
        end
  end.
Proof. reflexivity. Qed.

(** C7: in [sensors_eval_expr], a division whose operands evaluate returns
    [-SENSORS_ERR_DIV_ZERO] exactly when the second operand compares equal
    to 0.0 and else the quotient; a logarithm whose operand evaluates
    returns the same [-SENSORS_ERR_DIV_ZERO] exactly when the operand
    compares less than 0.0 and else [log] of it; and when an operand fails,
    its code is returned at once: the out-parameter keeps its content, and
    the machine is the one the failed operand left, so that nothing was
    evaluated after it. *)
Theorem eval_divide_and_log
    (fuel : nat) (chipname : sensors_chip_name) (a b x : sensors_expr)
    (val result : float) (m : machine) :
  let eval e r m := sensors_eval_expr fuel chipname e val r m in
  let quot := sensors_kind_sub sensors_divide a (Some b) in
  let ln := sensors_kind_sub sensors_log x None in
  (forall ra va ma,
     eval a indeterminate m = Some (ra, va, ma) -> ra <> 0 ->
     eval quot result m = Some (ra, result, ma)) /\
  (forall va ma rb vb mb,
     eval a indeterminate m = Some (0, va, ma) ->
     eval b indeterminate ma = Some (rb, vb, mb) -> rb <> 0 ->
     eval quot result m = Some (rb, result, mb)) /\
  (forall va ma vb mb,
     eval a indeterminate m = Some (0, va, ma) ->
     eval b indeterminate ma = Some (0, vb, mb) ->
     eval quot result m =
     (if eqb vb zero then Some (- SENSORS_ERR_DIV_ZERO, result, mb)
      else Some (0, div va vb, mb)) /\
     (forall r v m', eval quot result m = Some (r, v, m') ->
                     (r = - SENSORS_ERR_DIV_ZERO <-> eqb vb zero = true))) /\
  (forall rx vx mx,
     eval x indeterminate m = Some (rx, vx, mx) -> rx <> 0 ->
     eval ln result m = Some (rx, result, mx)) /\
  (forall vx mx,
     eval x indeterminate m = Some (0, vx, mx) ->
     eval ln result m =
     (if ltb vx zero then Some (- SENSORS_ERR_DIV_ZERO, result, mx)
      else Some (0, log vx, mx)) /\
     (forall r v m', eval ln result m = Some (r, v, m') ->
                     (r = - SENSORS_ERR_DIV_ZERO <-> ltb vx zero = true))).
Proof.
  cbv zeta. unfold sensors_eval_expr.
  rewrite eval_expr_binary, eval_expr_unary.
  split; [|split; [|split; [|split]]].
  - intros ra va ma -> Hra. apply Z.eqb_neq in Hra. now rewrite Hra.
  - intros va ma rb vb mb -> Hb Hrb. simpl. rewrite Hb.
    apply Z.eqb_neq in Hrb. now rewrite Hrb.
  - intros va ma vb mb -> Hb. simpl. rewrite Hb. simpl.
    destruct (eqb vb zero); (split; [reflexivity|]);
      intros r v m' E; inversion E; subst; split; intros H;
      try reflexivity; discriminate H.
  - intros rx vx mx -> Hrx. apply Z.eqb_neq in Hrx. now rewrite Hrx.
  - intros vx mx ->. simpl.
    destruct (ltb vx zero); (split; [reflexivity|]);
      intros r v m' E; inversion E; subst; split; intros H;
      try reflexivity; discriminate H.
Qed.

(** ** The search for a [from] expression in sensors_get_feature *)

Lemma find_append {A} (f : A -> bool) (l1 l2 : list A) :
  find f (l1 ++ l2) =
  match find f l1 with Some x => Some x | None => find f l2 end.
Proof.
  induction l1 as [|x l1 IH]; simpl; [reflexivity|].
  now destruct (f x).
Qed.

Lemma get_feature_computes_final main alt cs e :
  get_feature_computes main alt cs (e, true) = (e, true).
Proof. destruct cs; reflexivity. Qed.

Lemma get_feature_computes_spec main alt cs : forall e0,
  get_feature_computes main alt cs (e0, false) =
  match find (fun c => same_name (data_name (data main)) (compute_name c)) cs
  with
  | Some c => (Some (from_proc c), true)
  | None =>
      (match find (fun c => alt_same_name alt (compute_name c)) (rev cs) with
       | Some c => Some (from_proc c)
       | None => e0
       end, false)
  end.
Proof.
  induction cs as [|c rest IH]; intros e0; [reflexivity|].
  cbn [get_feature_computes snd find rev].
  destruct (same_name (data_name (data main)) (compute_name c)).
  - apply get_feature_computes_final.
  - rewrite find_append. cbn [find].
    destruct (alt_same_name alt (compute_name c)); rewrite IH;
      destruct (find _ rest); try reflexivity;
      destruct (find _ (rev rest)); reflexivity.
Qed.

Lemma get_feature_computes_entry main alt cs :
  fst (get_feature_computes main alt cs (None, false)) =
  entry_from_expr main alt cs.
Proof.
  rewrite get_feature_computes_spec. unfold entry_from_expr.
  destruct (find _ cs); [reflexivity|].
  simpl. now destruct (find _ (rev cs)).
Qed.

Lemma get_feature_chips_found main alt cs e final :
  get_feature_chips main alt cs (Some e, final) = (Some e, final).
Proof. destruct cs; reflexivity. Qed.

(** The outer loop stops at the first entry, in the order of the scan, that
    contributes an expression. *)
Lemma get_feature_chips_first main alt pre chip post e :
  Forall (fun c => entry_from_expr main alt (computes c) = None) pre ->
  entry_from_expr main alt (computes chip) = Some e ->
  fst (get_feature_chips main alt (pre ++ chip :: post) (None, false)) =
  Some e.
Proof.
  intros Hpre Hchip. induction Hpre as [|c pre Hc Hpre IH].
  - cbn [app get_feature_chips fst].
    pose proof (get_feature_computes_entry main alt (computes chip)) as He.
    rewrite Hchip in He.
    destruct (get_feature_computes main alt (computes chip) (None, false))
      as [e1 final]. simpl in He. subst e1.
    now rewrite get_feature_chips_found.
  - cbn [app get_feature_chips fst].
    pose proof (get_feature_computes_entry main alt (computes c)) as He.
    rewrite Hc in He.
    assert (Hst : get_feature_computes main alt (computes c) (None, false) =
                  (None, false)).
    { rewrite get_feature_computes_spec in He |- *.
      destruct (find _ (computes c)); [discriminate He|].
      simpl in He. now rewrite He. }
    rewrite Hst. exact IH.
Qed.

Lemma get_feature_chips_none main alt cs :
  Forall (fun c => entry_from_expr main alt (computes c) = None) cs ->
  get_feature_chips main alt cs (None, false) = (None, false).
Proof.
  intros H. induction H as [|c cs Hc Hcs IH]; [reflexivity|].
  cbn [get_feature_chips fst].
  pose proof (get_feature_computes_entry main alt (computes c)) as He.
  rewrite Hc in He.
  rewrite get_feature_computes_spec in He |- *.
  destruct (find _ (computes c)); [discriminate He|].
  simpl in He. rewrite He. exact IH.
Qed.

(** C4, as amended: in the search of [sensors_get_feature] over the
    matching config entries, scanned from the one declared last, a match on
    the alternate name is tentative only inside the entry that holds it:
    the rest of that entry is still scanned, and a [compute] statement for
    the main name there replaces it and ends the search.  The first entry
    scanned that holds a match, on either name, ends the scan of the
    entries: its expression (see [entry_from_expr]) is applied to the raw
    value, whatever the entries scanned after it hold. *)
Theorem get_feature_from_expr_search
    (fuel : nat) (name : sensors_chip_name) (p : string) (feature : Z)
    (result : float) (m : machine)
    (main_feature : sensors_chip_feature)
    (alt_feature : option sensors_chip_feature)
    (pre post : list sensors_chip) (chip : sensors_chip) (e : sensors_expr)
    (val : float) (m1 : machine) :
  sensors_chip_name_has_wildcards name = false ->
  prefix name = Some p ->
  sensors_lookup_feature_nr p feature = Some main_feature ->
  (compute_mapping (data main_feature) = SENSORS_NO_MAPPING /\
   alt_feature = None \/
   compute_mapping (data main_feature) <> SENSORS_NO_MAPPING /\
   alt_feature <> None /\
   sensors_lookup_feature_nr p (compute_mapping (data main_feature)) =
   alt_feature) ->
  Z.land (mode (data main_feature)) SENSORS_MODE_R <> 0 ->
  read_proc name feature m = (0, val, m1) ->
  matching_config_chips name = pre ++ chip :: post ->
  Forall (fun c => entry_from_expr main_feature alt_feature (computes c) = None)
    pre ->
  entry_from_expr main_feature alt_feature (computes chip) = Some e ->
  sensors_get_feature (S fuel) name feature result m =
  sensors_eval_expr fuel name e val result m1.
Proof.
  intros Hw Hp Hf Halt Hmode Hrd Hcs Hpre Hchip.
  rewrite sensors_get_feature_eq, Hw, Hp, Hf.
  assert (Hfound : get_feature_found (S fuel) name feature result m
                     main_feature alt_feature =
                   sensors_eval_expr fuel name e val result m1).
  { unfold get_feature_found.
    apply Z.eqb_neq in Hmode. rewrite Hmode, Hrd. simpl.
    now rewrite Hcs, (get_feature_chips_first _ _ _ _ _ _ Hpre Hchip). }
  destruct Halt as [[Hm ->] | [Hm [Hne Hl]]].
  - now rewrite Hm, Z.eqb_refl.
  - apply Z.eqb_neq in Hm. rewrite Hm, Hl.
    destruct alt_feature; [exact Hfound | congruence].
Qed.

(** ** What reaches the backend *)

Lemma written_app evs1 evs2 :
  written (evs1 ++ evs2) = written evs1 ++ written evs2.
Proof. apply flat_map_app. Qed.

Lemma written_features_app evs1 evs2 :
  written_features (evs1 ++ evs2) =
  written_features evs1 ++ written_features evs2.
Proof. unfold written_features. now rewrite written_app, map_app. Qed.

Lemma reads_only_refl m : reads_only m m.
Proof. exists []. now rewrite app_nil_r. Qed.

Lemma reads_only_trans m1 m2 m3 :
  reads_only m1 m2 -> reads_only m2 m3 -> reads_only m1 m3.
Proof.
  intros [e1 [H1 W1]] [e2 [H2 W2]]. exists (e1 ++ e2).
  rewrite H2, H1, app_assoc, written_app, W1, W2. auto.
Qed.

Lemma read_proc_reads name feature m rd val m1 :
  read_proc name feature m = (rd, val, m1) -> reads_only m m1.
Proof.
  unfold read_proc. destruct (sensors_read_proc name feature (hw m))
    as [[rd' val'] h]. intros H; inversion H; subst.
  exists [ev_read_proc name feature]. auto.
Qed.

Lemma write_proc_trace name feature value m wr m2 :
  write_proc name feature value m = (wr, m2) ->
  trace m2 = trace m ++ [ev_write_proc name feature value].
Proof.
  unfold write_proc. destruct (sensors_write_proc name feature value (hw m))
    as [wr' h]. intros H; now inversion H.
Qed.

Lemma parse_error_reads msg lineno m :
  reads_only m (sensors_parse_error msg lineno m).
Proof. exists [ev_parse_error msg lineno]. auto. Qed.

(** The evaluator adds to the trace what [sensors_get_feature] adds. *)
Lemma eval_expr_reads get_feature chipname expr :
  (forall c f r m res v m',
     get_feature c f r m = Some (res, v, m') -> reads_only m m') ->
  forall val result m res v m',
    eval_expr get_feature chipname expr val result m = Some (res, v, m') ->
    reads_only m m'.
Proof.
  intros Hg.
  induction expr as [v0| |var|op sub1 IH1|op sub1 e2 IH1 IH2]
    using sensors_expr_induction; intros val result m res v m' H;
    simpl in H.
  - inversion H; subst. apply reads_only_refl.
  - inversion H; subst. apply reads_only_refl.
  - destruct (prefix chipname) as [p|]; [|discriminate].
    destruct (sensors_lookup_feature_name p var) as [f|].
    + destruct (get_feature chipname (number (data f)) result m)
        as [[[res0 r'] m1]|] eqn:E; [|discriminate].
      apply Hg in E. destruct (res0 =? 0); inversion H; subst; exact E.
    + inversion H; subst. apply reads_only_refl.
  - destruct (eval_expr get_feature chipname sub1 val indeterminate m)
      as [[[res0 res1] m1]|] eqn:E1; [|discriminate].
    apply IH1 in E1.
    destruct (negb (res0 =? 0)); [inversion H; subst; exact E1|].
    destruct (eval_switch op res1 indeterminate result).
    inversion H; subst; exact E1.
  - destruct (eval_expr get_feature chipname sub1 val indeterminate m)
      as [[[res0 res1] m1]|] eqn:E1; [|discriminate].
    apply IH1 in E1.
    destruct (negb (res0 =? 0)); [inversion H; subst; exact E1|].
    destruct (eval_expr get_feature chipname e2 val indeterminate m1)
      as [[[res' res2] m2]|] eqn:E2; [|discriminate].
    apply IH2 in E2.
    assert (E : reads_only m m2) by (eapply reads_only_trans; eauto).
    destruct (negb (res' =? 0)); [inversion H; subst; exact E|].
    destruct (eval_switch op res1 res2 result).
    inversion H; subst; exact E.
Qed.

Lemma get_feature_found_reads fuel name feature result m main alt res v m' :
  (forall fuel' e val r m1 res1 v1 m1',
     fuel = S fuel' ->
     sensors_eval_expr fuel' name e val r m1 = Some (res1, v1, m1') ->
     reads_only m1 m1') ->
  get_feature_found fuel name feature result m main alt = Some (res, v, m') ->
  reads_only m m'.
Proof.
  intros Hev Hr. unfold get_feature_found in Hr.
  destruct (Z.land _ _ =? 0); [inversion Hr; subst; apply reads_only_refl|].
  destruct (read_proc name feature m) as [[rd val] m1] eqn:Erd.
  apply read_proc_reads in Erd.
  destruct (negb (rd =? 0)); [inversion Hr; subst; exact Erd|].
  destruct (fst _) as [e|]; [|inversion Hr; subst; exact Erd].
  destruct fuel as [|fuel']; [discriminate|].
  eapply reads_only_trans; [exact Erd|].
  eapply Hev; [reflexivity | exact Hr].
Qed.

Lemma get_feature_reads fuel : forall name feature result m res v m',
  sensors_get_feature fuel name feature result m = Some (res, v, m') ->
  reads_only m m'.
Proof.
  induction fuel as [|fuel IH]; intros name feature result m res v m' H;
    rewrite sensors_get_feature_eq in H;
    (destruct (sensors_chip_name_has_wildcards name);
     [inversion H; subst; apply reads_only_refl|]);
    (destruct (prefix name) as [p|];
     [|inversion H; subst; apply reads_only_refl]);
    (destruct (sensors_lookup_feature_nr p feature) as [main|];
     [|inversion H; subst; apply reads_only_refl]);
    (destruct (compute_mapping (data main) =? SENSORS_NO_MAPPING);
     [|destruct (sensors_lookup_feature_nr p (compute_mapping (data main)));
       [|inversion H; subst; apply reads_only_refl]]);
    (eapply get_feature_found_reads; [|exact H]);
    intros fuel' e val r m1 res1 v1 m1' Hfuel Hev;
    try discriminate Hfuel;
    inversion Hfuel; subst fuel';
    (eapply eval_expr_reads; [|exact Hev]); exact IH.
Qed.

Lemma sensors_eval_expr_reads fuel name expr val result m res v m' :
  sensors_eval_expr fuel name expr val result m = Some (res, v, m') ->
  reads_only m m'.
Proof.
  apply eval_expr_reads. intros c f r m0 res0 v0 m0'.
  apply get_feature_reads.
Qed.

Lemma set_feature_write_written fuel name feature value m expr r m' :
  set_feature_write fuel name feature value m expr = Some (r, m') ->
  exists evs, trace m' = trace m ++ evs /\
              (written evs = [] \/ written evs = [(name, feature)]).
Proof.
  unfold set_feature_write. intros H.
  assert (Hwr : forall v m1 evs1,
    trace m1 = trace m ++ evs1 -> written evs1 = [] ->
    (let '(wr, m2) := write_proc name feature v m1 in
     if negb (wr =? 0) then Some (- SENSORS_ERR_PROC, m2) else Some (0, m2))
    = Some (r, m') ->
    exists evs, trace m' = trace m ++ evs /\
                (written evs = [] \/ written evs = [(name, feature)])).
  { intros v m1 evs1 Ht Hw Hv.
    destruct (write_proc name feature v m1) as [wr m2] eqn:E.
    apply write_proc_trace in E.
    exists (evs1 ++ [ev_write_proc name feature v]).
    assert (m2 = m') by (destruct (negb (wr =? 0)); now inversion Hv).
    subst m2. rewrite E, Ht, app_assoc, written_app, Hw. auto. }
  destruct expr as [e|].
  - destruct (sensors_eval_expr fuel name e value value m)
      as [[[res w] m1]|] eqn:E; [|discriminate].
    apply sensors_eval_expr_reads in E. destruct E as [evs1 [Ht Hw]].
    destruct (negb (res =? 0)).
    + inversion H; subst. exists evs1; auto.
    + eapply Hwr; eauto.
  - apply (Hwr value m []); auto. now rewrite app_nil_r.
Qed.

(** A call of [sensors_set_feature] writes to the backend at most once, and
    then to the feature it was called for. *)
Lemma set_feature_written fuel name feature value m r m' :
  sensors_set_feature fuel name feature value m = Some (r, m') ->
  exists evs, trace m' = trace m ++ evs /\
              (written evs = [] \/ written evs = [(name, feature)]).
Proof.
  rewrite sensors_set_feature_eq. intros H.
  assert (Hsame : forall r0, Some (r0, m) = Some (r, m') ->
            exists evs, trace m' = trace m ++ evs /\
                        (written evs = [] \/ written evs = [(name, feature)])).
  { intros r0 E; inversion E; subst. exists []. rewrite app_nil_r; auto. }
  destruct (sensors_chip_name_has_wildcards name); [eapply Hsame; eauto|].
  destruct (prefix name) as [p|]; [|eapply Hsame; eauto].
  destruct (sensors_lookup_feature_nr p feature) as [main|];
    [|eapply Hsame; eauto].
  cbv zeta in H.
  destruct (compute_mapping (data main) =? SENSORS_NO_MAPPING).
  - destruct (Z.land _ _ =? 0); [eapply Hsame; eauto|].
    eapply set_feature_write_written; eauto.
  - destruct (sensors_lookup_feature_nr p (compute_mapping (data main)));
      [|eapply Hsame; eauto].
    destruct (Z.land _ _ =? 0); [eapply Hsame; eauto|].
    eapply set_feature_write_written; eauto.
Qed.

(** ** One round of sensors_do_this_chip_sets *)

Lemma existsb_eqb_In (n : Z) (l : list Z) :
  existsb (Z.eqb n) l = true <-> In n l.
Proof.
  rewrite existsb_exists. split.
  - intros [x [Hx E]]. apply Z.eqb_eq in E. now subst.
  - intros H. exists n. split; auto. apply Z.eqb_refl.
Qed.

(** What a round does, by the three ways a [set] statement can go: its
    feature is unknown; its feature number was seen before; or the number
    is recorded, after which the round may fail or not, having written to
    that feature of that chip at most once. *)
Lemma do_this_chip_set_inv fuel name st s st' :
  do_this_chip_set fuel name st s = Some st' ->
  exists p, prefix name = Some p /\
  match sensors_lookup_feature_name p (set_name s) with
  | None =>
      st' = sets_fail st "Unknown feature name"%string (set_lineno s)
              SENSORS_ERR_NO_ENTRY (sets_value st) (sets_mach st)
  | Some f =>
      (In (number (data f)) (sets_feature_list st) /\ st' = st) \/
      (~ In (number (data f)) (sets_feature_list st) /\
       sets_feature_list st' = sets_feature_list st ++ [number (data f)] /\
       exists evs,
         trace (sets_mach st') = trace (sets_mach st) ++ evs /\
         (written evs = [] \/ written evs = [(name, number (data f))]) /\
         (sets_err st' = sets_err st /\ sets_err_log st' = sets_err_log st \/
          exists res, res <> 0 /\ sets_err st' = res /\
                      sets_err_log st' = sets_err_log st ++ [res]))
  end.
Proof.
  unfold do_this_chip_set. intros H.
  destruct (prefix name) as [p|]; [|discriminate].
  exists p; split; [reflexivity|].
  destruct (sensors_lookup_feature_name p (set_name s)) as [f|];
    [|now inversion H].
  destruct (existsb (Z.eqb (number (data f))) (sets_feature_list st)) eqn:Ein.
  { left. apply existsb_eqb_In in Ein. inversion H; subst; auto. }
  right. split.
  { intros Hin. apply existsb_eqb_In in Hin. congruence. }
  cbn [sets_value sets_mach sets_err sets_feature_list sets_err_log] in H.
  destruct (sensors_eval_expr fuel name (set_value s) zero (sets_value st)
              (sets_mach st)) as [[[res value] m1]|] eqn:Eev; [|discriminate].
  apply sensors_eval_expr_reads in Eev. destruct Eev as [evs1 [Ht1 Hw1]].
  destruct (negb (res =? 0)) eqn:Eres.
  { inversion H; subst st'; clear H. simpl. split; [reflexivity|].
    exists (evs1 ++ [ev_parse_error "Error parsing expression" (set_lineno s)]).
    rewrite Ht1, app_assoc, written_app, Hw1.
    repeat split; auto. right. exists res. repeat split; auto.
    apply negb_true_iff in Eres. now apply Z.eqb_neq. }
  destruct (sensors_set_feature fuel name (number (data f)) value m1)
    as [[res' m2]|] eqn:Eset; [|discriminate].
  apply set_feature_written in Eset. destruct Eset as [evs2 [Ht2 Hw2]].
  destruct (negb (res' =? 0)) eqn:Eres'.
  - inversion H; subst st'; clear H. simpl. split; [reflexivity|].
    exists (evs1 ++ evs2 ++
            [ev_parse_error "Failed to set feature" (set_lineno s)]).
    rewrite Ht2, Ht1, <- !app_assoc, !written_app, Hw1. simpl.
    rewrite app_nil_r. repeat split; auto.
    right. exists res'. repeat split; auto.
    apply negb_true_iff in Eres'. now apply Z.eqb_neq.
  - inversion H; subst st'; clear H. simpl. split; [reflexivity|].
    exists (evs1 ++ evs2).
    rewrite Ht2, Ht1, <- !app_assoc, !written_app, Hw1. simpl.
    repeat split; auto.
Qed.

(** A relation between states that holds across every round, and composes,
    holds across both loops. *)
Lemma do_this_chip_sets_entry_lift fuel name (R : sets_state -> sets_state -> Prop) :
  (forall st, R st st) ->
  (forall a b c, R a b -> R b c -> R a c) ->
  (forall st s st', do_this_chip_set fuel name st s = Some st' -> R st st') ->
  forall ss st st',
    do_this_chip_sets_entry fuel name ss st = Some st' -> R st st'.
Proof.
  intros Hrefl Htrans Hstep. induction ss as [|s rest IH]; intros st st' H;
    simpl in H.
  - inversion H; subst; apply Hrefl.
  - destruct (do_this_chip_set fuel name st s) as [st1|] eqn:E;
      [|discriminate].
    eapply Htrans; [eapply Hstep; exact E | eapply IH; exact H].
Qed.

Lemma do_this_chip_sets_chips_lift fuel name (R : sets_state -> sets_state -> Prop) :
  (forall st, R st st) ->
  (forall a b c, R a b -> R b c -> R a c) ->
  (forall st s st', do_this_chip_set fuel name st s = Some st' -> R st st') ->
  forall cs st st',
    do_this_chip_sets_chips fuel name cs st = Some st' -> R st st'.
Proof.
  intros Hrefl Htrans Hstep. induction cs as [|c rest IH]; intros st st' H;
    simpl in H.
  - inversion H; subst; apply Hrefl.
  - destruct (do_this_chip_sets_entry fuel name (sets c) st) as [st1|] eqn:E;
      [|discriminate].
    eapply Htrans; [|eapply IH; exact H].
    eapply do_this_chip_sets_entry_lift; eauto.
Qed.

(** ** Each feature is written at most once *)

Lemma written_once_step fuel name m0 st s st' :
  do_this_chip_set fuel name st s = Some st' ->
  written_once name m0 st -> written_once name m0 st'.
Proof.
  intros H [evs [Ht [Hnd Hall]]].
  apply do_this_chip_set_inv in H. destruct H as [p [Hp H]].
  destruct (sensors_lookup_feature_name p (set_name s)) as [f|].
  - destruct H as [[Hin ->] | [Hnin [Hfl [evs' [Ht' [Hw' _]]]]]].
    + exists evs; auto.
    + exists (evs ++ evs'). rewrite Ht', Ht, app_assoc. split; [reflexivity|].
      assert (Hold : Forall (fun w => fst w = name /\
                                      In (snd w) (sets_feature_list st'))
                       (written evs)).
      { eapply Forall_impl; [|exact Hall]. intros w [Hc Hi]. split; auto.
        rewrite Hfl. apply in_or_app; auto. }
      rewrite written_features_app, written_app.
      destruct Hw' as [Hw' | Hw']; unfold written_features at 2;
        rewrite Hw'; simpl.
      * rewrite !app_nil_r. auto.
      * split.
        -- apply NoDup_app; auto.
           ++ constructor; [intros []| constructor].
           ++ intros a Ha [<- | []]. apply Hnin.
              unfold written_features in Ha. apply in_map_iff in Ha.
              destruct Ha as [w [<- Hw]].
              rewrite Forall_forall in Hall. now apply Hall.
        -- apply Forall_app; split; auto.
           constructor; [|constructor]. simpl. split; auto.
           rewrite Hfl. apply in_or_app; right; simpl; auto.
  - subst st'.
    exists (evs ++ [ev_parse_error "Unknown feature name" (set_lineno s)]).
    unfold sets_fail, sensors_parse_error. cbn [sets_mach sets_feature_list trace].
    rewrite Ht, app_assoc, written_features_app, written_app. simpl.
    rewrite !app_nil_r. auto.
Qed.

Lemma written_once_run fuel name m st :
  do_this_chip_sets_run fuel name m = Some st ->
  exists evs, trace (sets_mach st) = trace m ++ evs /\
              NoDup (written_features evs) /\
              Forall (fun w => fst w = name) (written evs).
Proof.
  unfold do_this_chip_sets_run. intros H.
  assert (Hinit : written_once name m (sets_init m)).
  { exists []. simpl. rewrite app_nil_r. repeat split; constructor. }
  pose proof (do_this_chip_sets_chips_lift fuel name
                (fun a b => written_once name m a -> written_once name m b)
                (fun _ H => H) (fun a b c Hab Hbc Ha => Hbc (Hab Ha))
                (fun a s b => written_once_step fuel name m a s b)
                _ _ _ H Hinit) as [evs [Ht [Hnd Hall]]].
  exists evs. repeat split; auto.
  eapply Forall_impl; [|exact Hall]. now intros w [Hc _].
Qed.

(** ** The loop of sensors_do_chip_sets *)

Lemma skipn_nth_error {A} (l : list A) (n : nat) :
  skipn n l = match nth_error l n with
              | Some x => x :: skipn (S n) l
              | None => []
              end.
Proof.
  revert n; induction l as [|y l IH]; intros [|n]; try reflexivity.
  simpl. rewrite (IH n). now destruct (nth_error l n).
Qed.

Lemma first_nonzero_cons e l :
  first_nonzero (e :: l) = if e =? 0 then first_nonzero l else e.
Proof. unfold first_nonzero. simpl. now destruct (e =? 0). Qed.

Lemma do_chip_sets_rounds_chain fuel name n :
  forall nr res m runs0 res' m' runs',
    do_chip_sets_rounds n fuel name nr res m runs0 = Some (res', m', runs') ->
    (List.length sensors_proc_chips < n + nr)%nat ->
    exists runs,
      runs' = runs0 ++ runs /\
      chip_runs fuel
        (filter (sensors_match_chip name)
           (skipn nr (map proc_name sensors_proc_chips))) m runs m' /\
      res' = if res =? 0 then first_nonzero (map sets_err runs) else res.
Proof.
  induction n as [|n IH]; intros nr res m runs0 res' m' runs' H Hn.
  - simpl in H. inversion H; subst. exists [].
    rewrite app_nil_r, skipn_all2 by (rewrite length_map; lia).
    repeat split; [constructor|]. now destruct (res' =? 0) eqn:E;
      [apply Z.eqb_eq in E|].
  - cbn [do_chip_sets_rounds] in H. unfold sensors_get_detected_chips in H.
    rewrite (skipn_nth_error _ nr), nth_error_map.
    destruct (nth_error sensors_proc_chips nr) as [entry|]; simpl in H |- *.
    + destruct (sensors_match_chip name (proc_name entry)).
      * destruct (do_this_chip_sets_run fuel (proc_name entry) m)
          as [st|] eqn:Erun; [|discriminate].
        apply IH in H; [|lia]. destruct H as [runs [Hr [Hc Hres]]].
        exists (st :: runs). rewrite Hr, <- app_assoc. simpl.
        repeat split; [econstructor; eauto|].
        rewrite first_nonzero_cons, Hres.
        destruct (res =? 0) eqn:E; [reflexivity | now rewrite E].
      * apply IH in H; [|lia]. exact H.
    + inversion H; subst. exists []. rewrite app_nil_r.
      repeat split; [constructor|]. now destruct (res' =? 0) eqn:E;
        [apply Z.eqb_eq in E|].
Qed.

(** One call of [sensors_do_chip_sets] calls [sensors_do_this_chip_sets]
    for each detected chip that matches, in the order of detection, and
    returns the first of their results that is not 0. *)
Lemma do_chip_sets_run_chain fuel name m res m' runs :
  do_chip_sets_run fuel name m = Some (res, m', runs) ->
  chip_runs fuel
    (filter (sensors_match_chip name) (map proc_name sensors_proc_chips))
    m runs m' /\
  res = first_nonzero (map sets_err runs).
Proof.
  unfold do_chip_sets_run. intros H.
  apply do_chip_sets_rounds_chain in H; [|lia].
  destruct H as [runs1 [Hr [Hc Hres]]]. simpl in Hr, Hc, Hres. subst runs1.
  auto.
Qed.

Lemma chip_runs_written_once fuel names m runs m' :
  chip_runs fuel names m runs m' ->
  exists segs,
    trace m' = trace m ++ List.concat segs /\
    Forall2 (fun found seg =>
               NoDup (written_features seg) /\
               Forall (fun w => fst w = found) (written seg)) names segs.
Proof.
  induction 1 as [m|found rest m st sts m' Hrun Hrest IH].
  - exists []. simpl. rewrite app_nil_r. auto.
  - destruct IH as [segs [Ht Hall]].
    apply written_once_run in Hrun. destruct Hrun as [evs [Hte [Hnd Hw]]].
    exists (evs :: segs). simpl. rewrite Ht, Hte, app_assoc. auto.
Qed.

Lemma written_segments_chip names segs :
  Forall2 (fun found seg =>
             NoDup (written_features seg) /\
             Forall (fun w => fst w = found) (written seg)) names segs ->
  forall w, In w (written (List.concat segs)) -> In (fst w) names.
Proof.
  induction 1 as [|found seg names segs [_ Hw] _ IH]; intros w Hin;
    simpl in Hin; [destruct Hin|].
  rewrite written_app in Hin. apply in_app_or in Hin.
  destruct Hin as [Hin | Hin].
  - rewrite Forall_forall in Hw. left. symmetry. now apply Hw.
  - right. now apply IH.
Qed.

(** When no chip is processed twice, no feature of a chip is written
    twice in the whole run. *)
Lemma written_segments_nodup names segs :
  Forall2 (fun found seg =>
             NoDup (written_features seg) /\
             Forall (fun w => fst w = found) (written seg)) names segs ->
  NoDup names -> NoDup (written (List.concat segs)).
Proof.
  induction 1 as [|found seg names segs [Hnd Hw] Hrest IH]; intros Hn;
    simpl; [constructor|].
  inversion Hn as [|x l Hnotin Hn']; subst.
  rewrite written_app. apply NoDup_app.
  - unfold written_features in Hnd. now apply NoDup_map_inv in Hnd.
  - now apply IH.
  - intros w Hin1 Hin2. apply Hnotin.
    rewrite Forall_forall in Hw. rewrite <- (Hw w Hin1).
    eapply written_segments_chip; eauto.
Qed.

(** C8: in one call of [sensors_do_chip_sets], the events of the trace fall
    into one stretch per processed chip (the detected chips that match, in
    order), and within each stretch every write goes to that chip and no
    feature number is written twice, however many [set] statements of
    however many matching config entries resolve to it; so when the
    detector lists no chip twice, no feature of a chip is written twice in
    the whole call.  A [set] statement whose feature number is already on
    the list of the run is skipped, leaving every local and the machine as
    they were. *)
Theorem sets_write_each_feature_once
    (fuel : nat) (name : sensors_chip_name) (m : machine)
    (res : Z) (m' : machine) (runs : list sets_state) :
  do_chip_sets_run fuel name m = Some (res, m', runs) ->
  (exists segs,
     trace m' = trace m ++ List.concat segs /\
     Forall2 (fun found seg =>
                NoDup (written_features seg) /\
                Forall (fun w => fst w = found) (written seg))
       (filter (sensors_match_chip name) (map proc_name sensors_proc_chips))
       segs /\
     (NoDup (map proc_name sensors_proc_chips) ->
      NoDup (written (List.concat segs)))) /\
  (forall found p st s f,
     prefix found = Some p ->
     sensors_lookup_feature_name p (set_name s) = Some f ->
     In (number (data f)) (sets_feature_list st) ->
     do_this_chip_set fuel found st s = Some st).
Proof.
  intros H. apply do_chip_sets_run_chain in H. destruct H as [Hc _]. split.
  - apply chip_runs_written_once in Hc. destruct Hc as [segs [Ht Hall]].
    exists segs. repeat split; auto.
    intros Hnd. eapply written_segments_nodup; eauto.
    now apply NoDup_filter.
  - intros found p st s f Hp Hf Hin. unfold do_this_chip_set.
    rewrite Hp, Hf. apply existsb_eqb_In in Hin. now rewrite Hin.
Qed.

(** ** A feature number on the list is not tried again *)

Lemma never_rewritten_step fuel name n st s st' :
  do_this_chip_set fuel name st s = Some st' ->
  In n (sets_feature_list st) -> never_rewritten n st st'.
Proof.
  intros H Hn. apply do_this_chip_set_inv in H. destruct H as [p [Hp H]].
  destruct (sensors_lookup_feature_name p (set_name s)) as [f|].
  - destruct H as [[Hin ->] | [Hnin [Hfl [evs [Ht [Hw _]]]]]].
    + split; auto. exists []. rewrite app_nil_r; auto.
    + split; [rewrite Hfl; apply in_or_app; auto|].
      exists evs. split; auto. unfold written_features.
      destruct Hw as [-> | ->]; simpl; [tauto|].
      intros [E | []]. subst n. contradiction.
  - subst st'. split; auto.
    exists [ev_parse_error "Unknown feature name" (set_lineno s)].
    split; [reflexivity | intros []].
Qed.

Lemma never_rewritten_refl n st :
  In n (sets_feature_list st) -> never_rewritten n st st.
Proof. split; auto. exists []. rewrite app_nil_r; auto. Qed.

Lemma never_rewritten_trans n a b c :
  never_rewritten n a b -> never_rewritten n b c -> never_rewritten n a c.
Proof.
  intros [_ [e1 [H1 W1]]] [Hc [e2 [H2 W2]]]. split; auto.
  exists (e1 ++ e2). rewrite H2, H1, app_assoc. split; auto.
  rewrite written_features_app. intros Hin.
  apply in_app_or in Hin. tauto.
Qed.

(** C10: a round of [sensors_do_this_chip_sets] that meets a feature number
    for the first time puts it on the list before it evaluates the
    expression and before it writes, so the number is on the list whatever
    the round came to, failure of the evaluation or of the write included.
    From then on, through the rest of the entry and through the entries
    scanned after it, the number stays on the list and the feature is not
    written to; and a [set] statement that resolves to that number is
    skipped, leaving every local and the machine as they were. *)
Theorem sets_feature_marked_before_use
    (fuel : nat) (name : sensors_chip_name) (p : string)
    (st st1 : sets_state) (s : sensors_set) (f : sensors_chip_feature) :
  prefix name = Some p ->
  sensors_lookup_feature_name p (set_name s) = Some f ->
  ~ In (number (data f)) (sets_feature_list st) ->
  do_this_chip_set fuel name st s = Some st1 ->
  In (number (data f)) (sets_feature_list st1) /\
  (forall rest cs st1' st2,
     do_this_chip_sets_entry fuel name rest st1 = Some st1' ->
     do_this_chip_sets_chips fuel name cs st1' = Some st2 ->
     never_rewritten (number (data f)) st1 st2) /\
  (forall st' s' f',
     sensors_lookup_feature_name p (set_name s') = Some f' ->
     number (data f') = number (data f) ->
     In (number (data f)) (sets_feature_list st') ->
     do_this_chip_set fuel name st' s' = Some st').
Proof.
  intros Hp Hf Hnin H.
  assert (Hin1 : In (number (data f)) (sets_feature_list st1)).
  { apply do_this_chip_set_inv in H. destruct H as [p' [Hp' H]].
    rewrite Hp in Hp'. inversion Hp'; subst p'. rewrite Hf in H.
    destruct H as [[Hin _] | [_ [Hfl _]]]; [contradiction|].
    rewrite Hfl. apply in_or_app; right; simpl; auto. }
  set (R := fun a b => In (number (data f)) (sets_feature_list a) ->
                       never_rewritten (number (data f)) a b).
  assert (Hrefl : forall a, R a a)
    by (intros a Ha; now apply never_rewritten_refl).
  assert (Htrans : forall a b c, R a b -> R b c -> R a c).
  { intros a b c Hab Hbc Ha. pose proof (Hab Ha) as Hb.
    eapply never_rewritten_trans; [exact Hb|]. apply Hbc. apply Hb. }
  assert (Hstep : forall a s0 b, do_this_chip_set fuel name a s0 = Some b ->
                                 R a b).
  { intros a s0 b Hs Ha. eapply never_rewritten_step; eauto. }
  split; [exact Hin1|]. split.
  - intros rest cs st1' st2 He Hc.
    pose proof (do_this_chip_sets_entry_lift fuel name R Hrefl Htrans Hstep
                  _ _ _ He Hin1) as Hr1.
    pose proof (do_this_chip_sets_chips_lift fuel name R Hrefl Htrans Hstep
                  _ _ _ Hc (proj1 Hr1)) as Hr2.
    exact (never_rewritten_trans _ _ _ _ Hr1 Hr2).
  - intros st' s' f' Hf' Hnr Hin. unfold do_this_chip_set.
    rewrite Hp, Hf', Hnr. apply existsb_eqb_In in Hin. now rewrite Hin.
Qed.

(** ** The value of [err] *)




Lemma first_nonzero_zero l :
  first_nonzero l = 0 <-> Forall (fun e => e = 0) l.
Proof.
  induction l as [|e l IH]; [split; auto; constructor|].
  rewrite first_nonzero_cons. destruct (e =? 0) eqn:E.
  - apply Z.eqb_eq in E. rewrite IH. split.
    + intros H; constructor; auto.
    + intros H; now inversion H.
  - apply Z.eqb_neq in E. split; [contradiction|].
    intros H; inversion H; contradiction.
Qed.

(** ** Every set statement is attempted; which error is returned *)

Lemma last_app_default (l1 l2 : list Z) (d : Z) :
  last (l1 ++ l2) d = last l2 (last l1 d).
Proof.
  revert d. induction l1 as [|a l1 IH]; intros d; [reflexivity|].
  destruct l1 as [|b l1].
  - simpl. destruct l2 as [|c l2]; [reflexivity|].
    clear IH. revert c. induction l2 as [|c' l2 IH]; intros c; [reflexivity|].
    change (last (c' :: l2) d = last (c' :: l2) a). apply IH.
  - change (last ((b :: l1) ++ l2) d = last l2 (last (b :: l1) d)).
    apply IH.
Qed.

Lemma failures_app (os1 os2 : list set_outcome) :
  failures (os1 ++ os2) = failures os1 ++ failures os2.
Proof. apply flat_map_app. Qed.

(** A round of the loop is one attempt in the spec's words, with the list
    of processed numbers standing for the statements met before. *)
Lemma attempt_directive_step fuel name before st s st' :
  do_this_chip_set fuel name st s = Some st' ->
  (forall p n, prefix name = Some p ->
     (In n (sets_feature_list st) <-> In n (resolved_numbers p before))) ->
  exists o,
    attempt_directive fuel name before (sets_value st) (sets_mach st) s =
      Some (o, sets_value st', sets_mach st') /\
    sets_err st' = last (failures [o]) (sets_err st) /\
    Forall (fun e => e <> 0) (failures [o]) /\
    (forall p n, prefix name = Some p ->
       (In n (sets_feature_list st') <->
        In n (resolved_numbers p (before ++ [s])))).
Proof.
  unfold do_this_chip_set, attempt_directive. intros H Hseen.
  destruct (prefix name) as [p|] eqn:Hp; [|discriminate].
  assert (Hseen' : forall n, In n (sets_feature_list st) <->
                             In n (resolved_numbers p before))
    by (intros n; apply Hseen; reflexivity).
  assert (Hnext : forall l,
            (forall n, In n l <->
                       In n (resolved_numbers p before ++
                             resolved_numbers p [s])) ->
            forall q n, Some p = Some q ->
              (In n l <-> In n (resolved_numbers q (before ++ [s])))).
  { intros l Hl q n Hq. inversion Hq; subst q.
    unfold resolved_numbers at 1. rewrite flat_map_app. apply Hl. }
  unfold resolved_numbers at 2 in Hnext. simpl in Hnext.
  destruct (sensors_lookup_feature_name p (set_name s)) as [f|].
  - assert (Eb : existsb (Z.eqb (number (data f))) (resolved_numbers p before)
                 = existsb (Z.eqb (number (data f))) (sets_feature_list st)).
    { destruct (existsb _ (sets_feature_list st)) eqn:E.
      - apply existsb_eqb_In. apply Hseen'. now apply existsb_eqb_In.
      - destruct (existsb _ (resolved_numbers p before)) eqn:E'; auto.
        apply existsb_eqb_In, Hseen', existsb_eqb_In in E'. congruence. }
    rewrite Eb. clear Eb.
    destruct (existsb (Z.eqb (number (data f))) (sets_feature_list st))
      eqn:Ein.
    + inversion H; subst st'. exists set_skipped.
      split; [reflexivity|]. split; [reflexivity|]. split; [constructor|].
      apply Hnext. intros n. rewrite in_app_iff, Hseen'.
      apply existsb_eqb_In, Hseen' in Ein. simpl.
      split; [auto | intros [?|[<-|[]]]; auto].
    + cbn [sets_value sets_mach sets_err sets_feature_list sets_err_log] in H.
      assert (Hl : forall n,
                In n (sets_feature_list st ++ [number (data f)]) <->
                In n (resolved_numbers p before ++ [number (data f)] ++ [])).
      { intros n. rewrite app_nil_r, !in_app_iff, Hseen'. reflexivity. }
      destruct (sensors_eval_expr fuel name (set_value s) zero (sets_value st)
                  (sets_mach st)) as [[[res value] m1]|]; [|discriminate].
      destruct (res =? 0) eqn:Eres; simpl in H.
      * destruct (sensors_set_feature fuel name (number (data f)) value m1)
          as [[res' m2]|]; [|discriminate].
        destruct (res' =? 0) eqn:Eres'; simpl in H; inversion H; subst st';
          clear H.
        -- exists set_done. simpl.
           split; [reflexivity|]. split; [reflexivity|].
           split; [constructor|]. apply Hnext, Hl.
        -- exists (set_failed res'). simpl.
           split; [reflexivity|]. split; [reflexivity|]. split.
           ++ constructor; [now apply Z.eqb_neq | constructor].
           ++ apply Hnext, Hl.
      * inversion H; subst st'; clear H.
        exists (set_failed res). simpl.
        split; [reflexivity|]. split; [reflexivity|]. split.
        -- constructor; [now apply Z.eqb_neq | constructor].
        -- apply Hnext, Hl.
  - inversion H; subst st'; clear H.
    exists (set_failed SENSORS_ERR_NO_ENTRY). simpl.
    split; [reflexivity|]. split; [reflexivity|]. split.
    + constructor; [discriminate | constructor].
    + apply Hnext. intros n. rewrite app_nil_r. apply Hseen'.
Qed.

Lemma attempt_directives_app fuel name : forall ss1 before ss2 value m,
  attempt_directives fuel name before (ss1 ++ ss2) value m =
  match attempt_directives fuel name before ss1 value m with
  | None => None
  | Some (os1, value1, m1) =>
      match attempt_directives fuel name (before ++ ss1) ss2 value1 m1 with
      | None => None
      | Some (os2, value', m') => Some (os1 ++ os2, value', m')
      end
  end.
Proof.
  induction ss1 as [|s ss1 IH]; intros before ss2 value m; simpl.
  - rewrite app_nil_r.
    destruct (attempt_directives fuel name before ss2 value m)
      as [[[os v] m']|]; reflexivity.
  - destruct (attempt_directive fuel name before value m s)
      as [[[o v1] m1]|]; [|reflexivity].
    rewrite IH, <- app_assoc. simpl.
    destruct (attempt_directives fuel name (before ++ [s]) ss1 v1 m1)
      as [[[os1 v2] m2]|]; [|reflexivity].
    destruct (attempt_directives fuel name (before ++ s :: ss1) ss2 v2 m2)
      as [[[os2 v3] m3]|]; reflexivity.
Qed.

(** The loop over the statements of one config entry. *)
Lemma attempt_directives_entry fuel name : forall ss before st st',
  do_this_chip_sets_entry fuel name ss st = Some st' ->
  (forall p n, prefix name = Some p ->
     (In n (sets_feature_list st) <-> In n (resolved_numbers p before))) ->
  exists os,
    attempt_directives fuel name before ss (sets_value st) (sets_mach st) =
      Some (os, sets_value st', sets_mach st') /\
    sets_err st' = last (failures os) (sets_err st) /\
    Forall (fun e => e <> 0) (failures os) /\
    (forall p n, prefix name = Some p ->
       (In n (sets_feature_list st') <->
        In n (resolved_numbers p (before ++ ss)))).
Proof.
  induction ss as [|s rest IH]; intros before st st' H Hseen; simpl in H.
  - inversion H; subst st'. exists []. simpl. rewrite app_nil_r.
    split; [reflexivity|]. split; [reflexivity|]. split; [constructor|].
    exact Hseen.
  - destruct (do_this_chip_set fuel name st s) as [st1|] eqn:E;
      [|discriminate].
    destruct (attempt_directive_step _ _ _ _ _ _ E Hseen)
      as [o [Ho [He [Hnz Hseen1]]]].
    destruct (IH _ _ _ H Hseen1) as [os [Hos [He' [Hnz' Hseen']]]].
    exists (o :: os). cbn [attempt_directives]. rewrite Ho, Hos.
    change (o :: os) with ([o] ++ os).
    rewrite failures_app, last_app_default, <- He, He'.
    split; [reflexivity|]. split; [reflexivity|]. split.
    + apply Forall_app; auto.
    + rewrite <- app_assoc in Hseen'. exact Hseen'.
Qed.

(** The loop over the config entries. *)
Lemma attempt_directives_chips fuel name : forall cs before st st',
  do_this_chip_sets_chips fuel name cs st = Some st' ->
  (forall p n, prefix name = Some p ->
     (In n (sets_feature_list st) <-> In n (resolved_numbers p before))) ->
  exists os,
    attempt_directives fuel name before (flat_map sets cs) (sets_value st)
      (sets_mach st) = Some (os, sets_value st', sets_mach st') /\
    sets_err st' = last (failures os) (sets_err st) /\
    Forall (fun e => e <> 0) (failures os) /\
    (forall p n, prefix name = Some p ->
       (In n (sets_feature_list st') <->
        In n (resolved_numbers p (before ++ flat_map sets cs)))).
Proof.
  induction cs as [|c rest IH]; intros before st st' H Hseen; simpl in H.
  - inversion H; subst st'. exists []. simpl. rewrite app_nil_r.
    split; [reflexivity|]. split; [reflexivity|]. split; [constructor|].
    exact Hseen.
  - destruct (do_this_chip_sets_entry fuel name (sets c) st) as [st1|] eqn:E;
      [|discriminate].
    destruct (attempt_directives_entry _ _ _ _ _ _ E Hseen)
      as [os1 [Hos1 [He1 [Hnz1 Hseen1]]]].
    destruct (IH _ _ _ H Hseen1) as [os2 [Hos2 [He2 [Hnz2 Hseen2]]]].
    exists (os1 ++ os2). cbn [flat_map].
    rewrite attempt_directives_app, Hos1, Hos2, failures_app,
      last_app_default, <- He1, He2.
    split; [reflexivity|]. split; [reflexivity|]. split.
    + apply Forall_app; auto.
    + rewrite <- app_assoc in Hseen2. exact Hseen2.
Qed.

(** One call of [sensors_do_this_chip_sets]. *)
Lemma attempt_directives_run fuel found m0 st :
  do_this_chip_sets_run fuel found m0 = Some st ->
  exists os value,
    attempt_directives fuel found [] (sets_in_scan_order found) indeterminate
      m0 = Some (os, value, sets_mach st) /\
    sets_err st = last_failure os /\
    Forall (fun e => e <> 0) (failures os).
Proof.
  unfold do_this_chip_sets_run. intros H.
  destruct (attempt_directives_chips fuel found _ [] _ _ H)
    as [os [Hos [He [Hnz _]]]].
  { intros p n _. simpl. reflexivity. }
  exists os, (sets_value st). simpl in Hos, He. auto.
Qed.

(** The calls that one call of [sensors_do_chip_sets] makes. *)
Lemma attempt_chips_runs fuel names m runs m' :
  chip_runs fuel names m runs m' ->
  exists oss,
    attempt_chips fuel names m = Some (oss, m') /\
    map sets_err runs = map last_failure oss /\
    Forall (fun os => Forall (fun e => e <> 0) (failures os)) oss.
Proof.
  induction 1 as [m|found rest m st sts m' Hrun _ IH].
  - exists []. simpl. auto.
  - destruct IH as [oss [Hoss [Hmap Hnz]]].
    destruct (attempt_directives_run _ _ _ _ Hrun)
      as [os [value [Hos [He Hnz1]]]].
    exists (os :: oss). simpl. rewrite Hos, Hoss, He, Hmap. auto.
Qed.

(** C3, as amended: one call of [sensors_do_chip_sets] attempts every
    [set] statement of every matching config entry for every matching
    detected chip, even when statements before it failed.  The chips come
    in the order of detection, each from the machine that the chip before it
    left; for one chip the statements come in the order of the scan, each
    from the machine and the value that the statement before it left, and
    each is reported as naming an unknown feature, or skipped because a
    statement before it resolves to the same feature number, or its
    expression is evaluated with the source value 0 and, when that returns
    0, the result is handed to [sensors_set_feature]; a code other than 0
    from either is reported, and the next statement follows.  The value for
    one chip is the code of the last of its statements that failed, and the
    value of the whole call is the first of these values that is not 0; it
    is 0 if no statement failed. *)
Theorem sets_all_handled_error_returned
    (fuel : nat) (name : sensors_chip_name) (m : machine)
    (res : Z) (m' : machine) :
  sensors_do_chip_sets fuel name m = Some (res, m') ->
  (forall found chip s,
     In chip sensors_config_chips -> chip_fits found chip = true ->
     In s (sets chip) -> In s (sets_in_scan_order found)) /\
  exists oss,
    attempt_chips fuel
      (filter (sensors_match_chip name) (map proc_name sensors_proc_chips))
      m = Some (oss, m') /\
    Forall (fun os => Forall (fun e => e <> 0) (failures os)) oss /\
    res = first_nonzero (map last_failure oss) /\
    (Forall (fun os => failures os = []) oss -> res = 0).
Proof.
  unfold sensors_do_chip_sets. intros H.
  destruct (do_chip_sets_run fuel name m) as [[[res0 m1] runs]|] eqn:E;
    [|discriminate].
  inversion H; subst res0 m1; clear H.
  apply do_chip_sets_run_chain in E. destruct E as [Hc Hres].
  split.
  - intros found chip s Hin Hfit Hs. unfold sets_in_scan_order.
    apply in_flat_map. exists chip. split; auto.
    apply in_matching_config_chips; auto.
  - destruct (attempt_chips_runs _ _ _ _ _ Hc) as [oss [Hoss [Hmap Hnz]]].
    exists oss. rewrite Hmap in Hres. repeat split; auto.
    intros Hz. rewrite Hres. apply first_nonzero_zero, Forall_map.
    eapply Forall_impl; [|exact Hz]. intros os Hos.
    unfold last_failure. now rewrite Hos.
Qed.

(** ** The recursion budget *)

(** A larger budget does not change a result. *)
Lemma eval_expr_mono get_feature get_feature' chipname expr :
  (forall c f r m o, get_feature c f r m = Some o ->
                     get_feature' c f r m = Some o) ->
  forall val result m o,
    eval_expr get_feature chipname expr val result m = Some o ->
    eval_expr get_feature' chipname expr val result m = Some o.
Proof.
  intros Hg.
  induction expr as [v0| |var|op sub1 IH1|op sub1 e2 IH1 IH2]
    using sensors_expr_induction; intros val result m o H;
    simpl in H |- *; auto.
  - destruct (prefix chipname) as [p|]; [|discriminate].
    destruct (sensors_lookup_feature_name p var) as [f|]; auto.
    destruct (get_feature chipname (number (data f)) result m) as [o1|] eqn:E;
      [|discriminate].
    now rewrite (Hg _ _ _ _ _ E).
  - destruct (eval_expr get_feature chipname sub1 val indeterminate m)
      as [o1|] eqn:E1; [|discriminate].
    now rewrite (IH1 _ _ _ _ E1).
  - destruct (eval_expr get_feature chipname sub1 val indeterminate m)
      as [[[res res1] m1]|] eqn:E1; [|discriminate].
    rewrite (IH1 _ _ _ _ E1).
    destruct (negb (res =? 0)); auto.
    destruct (eval_expr get_feature chipname e2 val indeterminate m1)
      as [o2|] eqn:E2; [|discriminate].
    now rewrite (IH2 _ _ _ _ E2).
Qed.

Lemma get_feature_found_mono fuel name feature result m main alt o :
  (forall e val r m1 o1,
     sensors_eval_expr (pred fuel) name e val r m1 = Some o1 ->
     sensors_eval_expr fuel name e val r m1 = Some o1) ->
  get_feature_found fuel name feature result m main alt = Some o ->
  get_feature_found (S fuel) name feature result m main alt = Some o.
Proof.
  unfold get_feature_found. intros Hev H.
  destruct (Z.land _ _ =? 0); auto.
  destruct (read_proc name feature m) as [[rd val] m1].
  destruct (negb (rd =? 0)); auto.
  destruct (fst _) as [e|]; auto.
  destruct fuel as [|fuel']; [discriminate|].
  now apply Hev.
Qed.

Lemma get_feature_mono_succ fuel : forall name feature result m o,
  sensors_get_feature fuel name feature result m = Some o ->
  sensors_get_feature (S fuel) name feature result m = Some o.
Proof.
  induction fuel as [|fuel IH]; intros name feature result m o H;
    rewrite sensors_get_feature_eq in H |- *;
    (destruct (sensors_chip_name_has_wildcards name); auto);
    (destruct (prefix name) as [p|]; auto);
    (destruct (sensors_lookup_feature_nr p feature) as [main|]; auto);
    (destruct (compute_mapping (data main) =? SENSORS_NO_MAPPING);
     [|destruct (sensors_lookup_feature_nr p (compute_mapping (data main)));
       auto]);
    (apply get_feature_found_mono; [|exact H]);
    intros e val r m1 o1; unfold sensors_eval_expr; simpl pred;
    apply eval_expr_mono; auto.
Qed.

Lemma get_feature_mono fuel fuel' name feature result m o :
  (fuel <= fuel')%nat ->
  sensors_get_feature fuel name feature result m = Some o ->
  sensors_get_feature fuel' name feature result m = Some o.
Proof.
  induction 1 as [|fuel' Hle IH]; auto.
  intros H. apply get_feature_mono_succ. auto.
Qed.

Lemma sensors_eval_expr_mono fuel fuel' name expr val result m o :
  (fuel <= fuel')%nat ->
  sensors_eval_expr fuel name expr val result m = Some o ->
  sensors_eval_expr fuel' name expr val result m = Some o.
Proof.
  intros Hle. apply eval_expr_mono. intros c f r m1 o1.
  now apply get_feature_mono.
Qed.

Lemma set_feature_mono fuel fuel' name feature value m o :
  (fuel <= fuel')%nat ->
  sensors_set_feature fuel name feature value m = Some o ->
  sensors_set_feature fuel' name feature value m = Some o.
Proof.
  intros Hle. rewrite !sensors_set_feature_eq.
  destruct (sensors_chip_name_has_wildcards name); auto.
  destruct (prefix name) as [p|]; auto.
  destruct (sensors_lookup_feature_nr p feature) as [main|]; auto.
  assert (Hw : forall expr,
    set_feature_write fuel name feature value m expr = Some o ->
    set_feature_write fuel' name feature value m expr = Some o).
  { intros [e|]; unfold set_feature_write; auto.
    destruct (sensors_eval_expr fuel name e value value m) as [o1|] eqn:E;
      [|discriminate].
    now rewrite (sensors_eval_expr_mono _ _ _ _ _ _ _ _ Hle E). }
  cbv zeta.
  destruct (compute_mapping (data main) =? SENSORS_NO_MAPPING).
  - destruct (Z.land _ _ =? 0); auto.
  - destruct (sensors_lookup_feature_nr p (compute_mapping (data main)));
      auto.
    destruct (Z.land _ _ =? 0); auto.
Qed.

Lemma do_this_chip_set_mono fuel fuel' name st s st' :
  (fuel <= fuel')%nat ->
  do_this_chip_set fuel name st s = Some st' ->
  do_this_chip_set fuel' name st s = Some st'.
Proof.
  intros Hle. unfold do_this_chip_set.
  destruct (prefix name) as [p|]; auto.
  destruct (sensors_lookup_feature_name p (set_name s)) as [f|]; auto.
  destruct (existsb _ _); auto.
  cbn [sets_value sets_mach].
  destruct (sensors_eval_expr fuel name (set_value s) zero (sets_value st)
              (sets_mach st)) as [[[res value] m1]|] eqn:E; [|discriminate].
  rewrite (sensors_eval_expr_mono _ _ _ _ _ _ _ _ Hle E).
  destruct (negb (res =? 0)); auto.
  destruct (sensors_set_feature fuel name (number (data f)) value m1)
    as [o2|] eqn:E2; [|discriminate].
  now rewrite (set_feature_mono _ _ _ _ _ _ _ Hle E2).
Qed.

Lemma do_this_chip_sets_run_mono fuel fuel' name m st :
  (fuel <= fuel')%nat ->
  do_this_chip_sets_run fuel name m = Some st ->
  do_this_chip_sets_run fuel' name m = Some st.
Proof.
  intros Hle. unfold do_this_chip_sets_run.
  assert (He : forall ss a b,
    do_this_chip_sets_entry fuel name ss a = Some b ->
    do_this_chip_sets_entry fuel' name ss a = Some b).
  { induction ss as [|s rest IH]; intros a b H; simpl in H |- *; auto.
    destruct (do_this_chip_set fuel name a s) as [a1|] eqn:E; [|discriminate].
    rewrite (do_this_chip_set_mono _ _ _ _ _ _ Hle E). auto. }
  generalize (sets_init m).
  induction (matching_config_chips name) as [|c rest IH]; intros a H;
    simpl in H |- *; auto.
  destruct (do_this_chip_sets_entry fuel name (sets c) a) as [a1|] eqn:E;
    [|discriminate].
  rewrite (He _ _ _ E). auto.
Qed.

Lemma do_chip_sets_run_mono fuel fuel' name m r :
  (fuel <= fuel')%nat ->
  do_chip_sets_run fuel name m = Some r ->
  do_chip_sets_run fuel' name m = Some r.
Proof.
  intros Hle. unfold do_chip_sets_run.
  generalize (S (List.length sensors_proc_chips)) 0%nat 0 m (@nil sets_state).
  induction n as [|n IH]; intros nr res m1 runs H; simpl in H |- *; auto.
  destruct (nth_error sensors_proc_chips nr) as [entry|]; simpl in H |- *;
    auto.
  destruct (sensors_match_chip name (proc_name entry)); auto.
  destruct (do_this_chip_sets_run fuel (proc_name entry) m1) as [st|] eqn:E;
    [|discriminate].
  rewrite (do_this_chip_sets_run_mono _ _ _ _ _ Hle E). auto.
Qed.

(** Where the expression of [sensors_get_feature] comes from. *)
Lemma get_feature_computes_source main alt cs : forall st e,
  fst (get_feature_computes main alt cs st) = Some e ->
  fst st = Some e \/ exists c, In c cs /\ e = from_proc c.
Proof.
  induction cs as [|c rest IH]; intros st e H; simpl in H; auto.
  destruct (snd st); auto.
  destruct (same_name _ (compute_name c)).
  - apply IH in H. destruct H as [H | [c' [Hin ->]]].
    + inversion H. right. exists c; simpl; auto.
    + right. exists c'; simpl; auto.
  - destruct (alt_same_name alt (compute_name c)).
    + apply IH in H. destruct H as [H | [c' [Hin ->]]].
      * inversion H. right. exists c; simpl; auto.
      * right. exists c'; simpl; auto.
    + apply IH in H. destruct H as [H | [c' [Hin ->]]]; auto.
      right. exists c'; simpl; auto.
Qed.

Lemma get_feature_chips_source main alt cs : forall st e,
  fst (get_feature_chips main alt cs st) = Some e ->
  fst st = Some e \/
  exists chip c, In chip cs /\ In c (computes chip) /\ e = from_proc c.
Proof.
  induction cs as [|chip rest IH]; intros st e H; simpl in H; auto.
  destruct (fst st) eqn:Est; [left; congruence|].
  apply IH in H. destruct H as [H | [chip' [c [Hc [Hin He]]]]].
  - apply get_feature_computes_source in H.
    destruct H as [H | [c [Hin He]]]; [left; congruence|].
    right. exists chip, c. simpl; auto.
  - right. exists chip', c. simpl; auto.
Qed.

Lemma eval_expr_var_free get_feature chipname expr :
  var_free expr = true ->
  forall val result m,
    exists o, eval_expr get_feature chipname expr val result m = Some o.
Proof.
  induction expr as [v0| |var|op sub1 IH1|op sub1 e2 IH1 IH2]
    using sensors_expr_induction; intros Hv val result m; simpl in Hv |- *;
    eauto; try discriminate.
  - destruct (IH1 Hv val indeterminate m) as [[[res res1] m1] ->].
    destruct (negb (res =? 0)); eauto.
    destruct (eval_switch op res1 indeterminate result); eauto.
  - apply andb_true_iff in Hv. destruct Hv as [Hv1 Hv2].
    destruct (IH1 Hv1 val indeterminate m) as [[[res res1] m1] ->].
    destruct (negb (res =? 0)); eauto.
    destruct (IH2 Hv2 val indeterminate m1) as [[[res' res2] m2] ->].
    destruct (negb (res' =? 0)); eauto.
    destruct (eval_switch op res1 res2 result); eauto.
Qed.

Lemma eval_expr_total get_feature chipname p expr :
  prefix chipname = Some p ->
  (forall c f r m, exists o, get_feature c f r m = Some o) ->
  forall val result m,
    exists o, eval_expr get_feature chipname expr val result m = Some o.
Proof.
  intros Hp Hg.
  induction expr as [v0| |var|op sub1 IH1|op sub1 e2 IH1 IH2]
    using sensors_expr_induction; intros val result m; simpl; eauto.
  - rewrite Hp. destruct (sensors_lookup_feature_name p var) as [f|]; eauto.
    destruct (Hg chipname (number (data f)) result m) as [[[res r'] m'] ->].
    destruct (res =? 0); eauto.
  - destruct (IH1 val indeterminate m) as [[[res res1] m1] ->].
    destruct (negb (res =? 0)); eauto.
    destruct (eval_switch op res1 indeterminate result); eauto.
  - destruct (IH1 val indeterminate m) as [[[res res1] m1] ->].
    destruct (negb (res =? 0)); eauto.
    destruct (IH2 val indeterminate m1) as [[[res' res2] m2] ->].
    destruct (negb (res' =? 0)); eauto.
    destruct (eval_switch op res1 res2 result); eauto.
Qed.

(** When no [from] expression refers to a feature by name, a budget of one
    is enough for every read. *)
Lemma get_feature_total fuel name feature result m :
  computes_var_free ->
  exists o, sensors_get_feature (S fuel) name feature result m = Some o.
Proof.
  intros Hvf. rewrite sensors_get_feature_eq.
  assert (Hfound : forall main alt,
    exists o, get_feature_found (S fuel) name feature result m main alt =
              Some o).
  { intros main alt. unfold get_feature_found.
    destruct (Z.land _ _ =? 0); eauto.
    destruct (read_proc name feature m) as [[rd val] m1].
    destruct (negb (rd =? 0)); eauto.
    destruct (fst _) as [e|] eqn:E; eauto.
    apply get_feature_chips_source in E.
    destruct E as [E | [chip [c [Hchip [Hc ->]]]]]; [discriminate|].
    apply eval_expr_var_free.
    apply in_matching_config_chips in Hchip. destruct Hchip as [Hchip _].
    unfold computes_var_free in Hvf. rewrite Forall_forall in Hvf.
    specialize (Hvf chip Hchip). rewrite Forall_forall in Hvf. auto. }
  destruct (sensors_chip_name_has_wildcards name); eauto.
  destruct (prefix name) as [p|]; eauto.
  destruct (sensors_lookup_feature_nr p feature) as [main|]; eauto.
  destruct (compute_mapping (data main) =? SENSORS_NO_MAPPING); eauto.
  destruct (sensors_lookup_feature_nr p (compute_mapping (data main))); eauto.
Qed.

Lemma sensors_eval_expr_total fuel name p expr val result m :
  computes_var_free -> prefix name = Some p ->
  exists o, sensors_eval_expr (S fuel) name expr val result m = Some o.
Proof.
  intros Hvf Hp. apply (eval_expr_total _ _ p); auto.
  intros c f r m1. now apply get_feature_total.
Qed.

Lemma set_feature_total fuel name feature value m :
  computes_var_free ->
  exists o, sensors_set_feature (S fuel) name feature value m = Some o.
Proof.
  intros Hvf. rewrite sensors_set_feature_eq.
  destruct (sensors_chip_name_has_wildcards name) eqn:Hw; eauto.
  destruct (has_wildcards_prefix name Hw) as [p Hp]. rewrite Hp.
  destruct (sensors_lookup_feature_nr p feature) as [main|]; eauto.
  assert (Hwr : forall expr,
    exists o, set_feature_write (S fuel) name feature value m expr = Some o).
  { intros [e|]; unfold set_feature_write.
    - destruct (sensors_eval_expr_total fuel name p e value value m Hvf Hp)
        as [[[res w] m1] ->].
      destruct (negb (res =? 0)); eauto.
      destruct (write_proc name feature w m1) as [wr m2].
      destruct (negb (wr =? 0)); eauto.
    - destruct (write_proc name feature value m) as [wr m2].
      destruct (negb (wr =? 0)); eauto. }
  cbv zeta.
  destruct (compute_mapping (data main) =? SENSORS_NO_MAPPING).
  - destruct (Z.land _ _ =? 0); eauto.
  - destruct (sensors_lookup_feature_nr p (compute_mapping (data main)));
      eauto.
    destruct (Z.land _ _ =? 0); eauto.
Qed.

Lemma do_this_chip_sets_run_total fuel name p m :
  computes_var_free -> prefix name = Some p ->
  exists st, do_this_chip_sets_run (S fuel) name m = Some st.
Proof.
  intros Hvf Hp. unfold do_this_chip_sets_run.
  assert (Hstep : forall st s,
    exists st', do_this_chip_set (S fuel) name st s = Some st').
  { intros st s. unfold do_this_chip_set. rewrite Hp.
    destruct (sensors_lookup_feature_name p (set_name s)) as [f|]; eauto.
    destruct (existsb _ _); eauto.
    cbn [sets_value sets_mach].
    destruct (sensors_eval_expr_total fuel name p (set_value s) zero
                (sets_value st) (sets_mach st) Hvf Hp) as [[[res v] m1] ->].
    destruct (negb (res =? 0)); eauto.
    destruct (set_feature_total fuel name (number (data f)) v m1 Hvf)
      as [[res' m2] ->].
    destruct (negb (res' =? 0)); eauto. }
  assert (Hentry : forall ss st,
    exists st', do_this_chip_sets_entry (S fuel) name ss st = Some st').
  { induction ss as [|s rest IH]; intros st; simpl; eauto.
    destruct (Hstep st s) as [st1 ->]. apply IH. }
  generalize (sets_init m).
  induction (matching_config_chips name) as [|c rest IH]; intros st; simpl;
    eauto.
  destruct (Hentry (sets c) st) as [st1 ->]. apply IH.
Qed.

(** With such a config, and detected chips that have a prefix (the
    detector gives no wildcard), [sensors_do_chip_sets] returns. *)
Lemma do_chip_sets_run_total fuel name m :
  computes_var_free ->
  Forall (fun e => prefix (proc_name e) <> None) sensors_proc_chips ->
  exists r, do_chip_sets_run (S fuel) name m = Some r.
Proof.
  intros Hvf Hdet. unfold do_chip_sets_run.
  generalize (S (List.length sensors_proc_chips)) 0%nat 0 m (@nil sets_state).
  induction n as [|n IH]; intros nr res m1 runs; simpl; eauto.
  destruct (nth_error sensors_proc_chips nr) as [entry|] eqn:E; simpl; eauto.
  destruct (sensors_match_chip name (proc_name entry)); eauto.
  apply nth_error_In in E. rewrite Forall_forall in Hdet.
  specialize (Hdet entry E).
  destruct (prefix (proc_name entry)) as [p|] eqn:Hp; [|congruence].
  destruct (do_this_chip_sets_run_total fuel (proc_name entry) p m1 Hvf Hp)
    as [st ->]. apply IH.
Qed.

(** ** The two slips, in general *)

Lemma set_feature_computes_final main alt all cs e :
  set_feature_computes main alt all cs (e, true) = (e, true).
Proof. destruct cs; reflexivity. Qed.

(** The loop of [sensors_set_feature] over one entry: a statement for the
    main name selects the [to] expression of the first statement of the
    entry, whichever statement it is. *)
Lemma set_feature_computes_spec main alt all cs : forall e0,
  set_feature_computes main alt all cs (e0, false) =
  match find (fun c => same_name (data_name (data main)) (compute_name c)) cs
  with
  | Some _ => (option_map to_proc (hd_error all), true)
  | None =>
      (match find (fun c => alt_same_name alt (compute_name c)) (rev cs) with
       | Some c => Some (to_proc c)
       | None => e0
       end, false)
  end.
Proof.
  induction cs as [|c rest IH]; intros e0; [reflexivity|].
  cbn [set_feature_computes snd find rev].
  destruct (same_name (data_name (data main)) (compute_name c)).
  - apply set_feature_computes_final.
  - rewrite find_append. cbn [find].
    destruct (alt_same_name alt (compute_name c)); rewrite IH;
      destruct (find _ rest); try reflexivity;
      destruct (find _ (rev rest)); reflexivity.
Qed.

(** A reference to a feature that the catalog has evaluates to the code 0,
    whatever [sensors_get_feature] returned. *)
Lemma eval_expr_var_code get_feature chipname p var f val result m r v m' :
  prefix chipname = Some p ->
  sensors_lookup_feature_name p var = Some f ->
  eval_expr get_feature chipname (sensors_kind_var var) val result m =
    Some (r, v, m') ->
  r = 0 /\
  exists res, get_feature chipname (number (data f)) result m =
              Some (res, v, m').
Proof.
  intros Hp Hf H. simpl in H. rewrite Hp, Hf in H.
  destruct (get_feature chipname (number (data f)) result m)
    as [[[res r'] m1]|]; [|discriminate].
  destruct (res =? 0) eqn:E; inversion H; subst; split; eauto.
  now apply Z.eqb_eq in E.
Qed.

(** * Further properties *)

(** ** Names compared without case *)

Lemma strcasecmp_refl (s : string) : strcasecmp s s = 0.
Proof.
  induction s as [|c s IH]; simpl; [reflexivity|].
  now rewrite Z.sub_diag.
Qed.

Lemma strcasecmp_opp (a : string) : forall b,
  strcasecmp b a = - strcasecmp a b.
Proof.
  induction a as [|c a IH]; intros [|d b]; simpl; try lia.
  destruct (tolower c - tolower d =? 0) eqn:E.
  - apply Z.eqb_eq in E.
    replace (tolower d - tolower c) with 0 by lia. simpl. apply IH.
  - apply Z.eqb_neq in E.
    destruct (tolower d - tolower c =? 0) eqn:E'; [|lia].
    apply Z.eqb_eq in E'. lia.
Qed.

Lemma same_name_refl (s : string) : same_name s s = true.
Proof. unfold same_name. now rewrite strcasecmp_refl. Qed.

Lemma same_name_sym (a b : string) : same_name a b = same_name b a.
Proof.
  unfold same_name. rewrite (strcasecmp_opp b a).
  destruct (strcasecmp b a =? 0) eqn:E.
  - apply Z.eqb_eq in E. now rewrite E.
  - apply Z.eqb_neq in E. apply Z.eqb_neq. lia.
Qed.

Lemma tolower_zero (c : ascii) : tolower c = 0 -> c = Ascii.zero.
Proof.
  unfold tolower. intros H.
  assert (Hn : N_of_ascii c = 0%N).
  { destruct ((65 <=? Z.of_N (N_of_ascii c)) && (Z.of_N (N_of_ascii c) <=? 90))
      eqn:E; [|lia].
    apply andb_true_iff in E. destruct E as [E _]. apply Z.leb_le in E. lia. }
  rewrite <- (ascii_N_embedding c), Hn. reflexivity.
Qed.

(** On C strings, [strcasecmp] gives 0 exactly for strings that agree once
    their letters are put in lower case. *)
Lemma same_name_lower (a : string) : forall b,
  c_string a -> c_string b ->
  (same_name a b = true <-> lower a = lower b).
Proof.
  unfold same_name, lower, c_string.
  induction a as [|c a IH]; intros [|d b] Ha Hb; simpl.
  - split; auto.
  - inversion Hb as [|x l Hd _]; subst. split; [|discriminate].
    intros E. apply Z.eqb_eq in E. exfalso. apply Hd, tolower_zero. lia.
  - inversion Ha as [|x l Hc _]; subst. split; [|discriminate].
    intros E. apply Z.eqb_eq in E. exfalso. now apply Hc, tolower_zero.
  - inversion Ha as [|x l Hc Ha']; inversion Hb as [|y l' Hd Hb']; subst.
    destruct (tolower c - tolower d =? 0) eqn:E.
    + apply Z.eqb_eq in E. rewrite (IH b Ha' Hb'). split.
      * intros ->. f_equal. lia.
      * intros H. now inversion H.
    + apply Z.eqb_neq in E. split.
      * intros H. apply Z.eqb_eq in H. contradiction.
      * intros H. inversion H. lia.
Qed.

Lemma same_name_trans (a b c : string) :
  c_string a -> c_string b -> c_string c ->
  same_name a b = true -> same_name b c = true -> same_name a c = true.
Proof.
  intros Ha Hb Hc Hab Hbc.
  apply (same_name_lower a b Ha Hb) in Hab.
  apply (same_name_lower b c Hb Hc) in Hbc.
  apply (same_name_lower a c Ha Hc). congruence.
Qed.

(** ** sensors_match_chip *)

Lemma prefix_differs_sym (p1 p2 : option string) :
  prefix_differs p1 p2 = prefix_differs p2 p1.
Proof.
  destruct p1 as [a|], p2 as [b|]; simpl; try reflexivity.
  now rewrite same_name_sym.
Qed.

(** X1: [sensors_match_chip] does not depend on the order of its two
    arguments. *)
Theorem match_chip_symmetric (chip1 chip2 : sensors_chip_name) :
  sensors_match_chip chip1 chip2 = sensors_match_chip chip2 chip1.
Proof.
  unfold sensors_match_chip.
  rewrite (prefix_differs_sym (prefix chip1) (prefix chip2)).
  rewrite (Z.eqb_sym (bus chip1) (bus chip2)).
  rewrite (Z.eqb_sym (addr chip1) (addr chip2)).
  destruct (prefix_differs (prefix chip2) (prefix chip1)); [reflexivity|].
  destruct (bus chip1 =? SENSORS_CHIP_NAME_BUS_ANY),
           (bus chip2 =? SENSORS_CHIP_NAME_BUS_ANY),
           (bus chip2 =? bus chip1),
           (bus chip1 =? SENSORS_CHIP_NAME_BUS_ISA),
           (bus chip2 =? SENSORS_CHIP_NAME_BUS_ISA),
           (bus chip1 =? SENSORS_CHIP_NAME_BUS_PCI),
           (bus chip2 =? SENSORS_CHIP_NAME_BUS_PCI),
           (bus chip1 =? SENSORS_CHIP_NAME_BUS_ANY_I2C),
           (bus chip2 =? SENSORS_CHIP_NAME_BUS_ANY_I2C),
           (addr chip2 =? addr chip1),
           (addr chip1 =? SENSORS_CHIP_NAME_ADDR_ANY),
           (addr chip2 =? SENSORS_CHIP_NAME_ADDR_ANY); reflexivity.
Qed.

(** X2: every chip name, with or without wildcards, matches itself, and the
    name with ANY in its three fields matches every name. *)
Theorem match_chip_reflexive_and_any (chip other : sensors_chip_name) :
  sensors_match_chip chip chip = true /\
  (prefix chip = None -> bus chip = SENSORS_CHIP_NAME_BUS_ANY ->
   addr chip = SENSORS_CHIP_NAME_ADDR_ANY ->
   sensors_match_chip chip other = true).
Proof.
  split.
  - unfold sensors_match_chip.
    assert (Hp : prefix_differs (prefix chip) (prefix chip) = false).
    { destruct (prefix chip) as [p|]; simpl; auto.
      now rewrite same_name_refl. }
    rewrite Hp, !Z.eqb_refl. simpl.
    now rewrite !andb_false_r.
  - intros Hp Hb Ha. unfold sensors_match_chip.
    rewrite Hp, Hb, Ha. simpl. now rewrite !andb_false_r.
Qed.

(** X3: two names without wildcards match exactly when their prefixes are
    equal up to case and their buses and addresses are equal. *)
Theorem match_chip_concrete (chip1 chip2 : sensors_chip_name) :
  sensors_chip_name_has_wildcards chip1 = false ->
  sensors_chip_name_has_wildcards chip2 = false ->
  (sensors_match_chip chip1 chip2 = true <->
   (exists p1 p2, prefix chip1 = Some p1 /\ prefix chip2 = Some p2 /\
                  strcasecmp p1 p2 = 0) /\
   bus chip1 = bus chip2 /\ addr chip1 = addr chip2).
Proof using.
  unfold sensors_chip_name_has_wildcards, sensors_match_chip.
  destruct (prefix chip1) as [p1|]; [|discriminate].
  destruct (prefix chip2) as [p2|]; [|discriminate].
  intros H1 H2.
  apply orb_false_iff in H1. destruct H1 as [H1 Ha1].
  apply orb_false_iff in H1. destruct H1 as [Hb1 Hi1].
  apply orb_false_iff in H2. destruct H2 as [H2 Ha2].
  apply orb_false_iff in H2. destruct H2 as [Hb2 Hi2].
  simpl. unfold same_name. rewrite Hb1, Hb2, Hi1, Hi2, Ha1, Ha2. simpl.
  destruct (strcasecmp p1 p2 =? 0) eqn:Ep; simpl.
  - apply Z.eqb_eq in Ep.
    destruct (bus chip1 =? bus chip2) eqn:Eb; simpl.
    + apply Z.eqb_eq in Eb.
      destruct (addr chip1 =? addr chip2) eqn:Ea; simpl.
      * apply Z.eqb_eq in Ea. split; auto. intros _.
        split; [exists p1, p2; auto | auto].
      * apply Z.eqb_neq in Ea. split; [discriminate|].
        intros [_ [_ Ha]]. contradiction.
    + apply Z.eqb_neq in Eb. rewrite !orb_true_r.
      split; [discriminate|]. intros [_ [Hb _]]. contradiction.
  - apply Z.eqb_neq in Ep. split; [discriminate|].
    intros [[q1 [q2 [E1 [E2 E]]]] _]. inversion E1; inversion E2; subst.
    contradiction.
Qed.

(** X4: a name on the ISA or on the PCI bus matches only names on the same
    bus, or with bus ANY: the selector AnyI2C does not cover these two
    buses.  It covers every other bus, the dummy bus included. *)
Theorem match_chip_bus_classes (chip1 chip2 : sensors_chip_name) :
  (sensors_match_chip chip1 chip2 = true ->
   bus chip1 = SENSORS_CHIP_NAME_BUS_ISA \/
   bus chip1 = SENSORS_CHIP_NAME_BUS_PCI ->
   bus chip2 = bus chip1 \/ bus chip2 = SENSORS_CHIP_NAME_BUS_ANY) /\
  (bus chip1 = SENSORS_CHIP_NAME_BUS_ANY_I2C ->
   bus chip2 <> SENSORS_CHIP_NAME_BUS_ISA ->
   bus chip2 <> SENSORS_CHIP_NAME_BUS_PCI ->
   prefix chip1 = prefix chip2 -> addr chip1 = addr chip2 ->
   sensors_match_chip chip1 chip2 = true).
Proof.
  split.
  - unfold sensors_match_chip. intros H Hb.
    destruct (prefix_differs _ _); [discriminate|].
    destruct (bus chip2 =? bus chip1) eqn:E1;
      [apply Z.eqb_eq in E1; auto|].
    destruct (bus chip2 =? SENSORS_CHIP_NAME_BUS_ANY) eqn:E2;
      [apply Z.eqb_eq in E2; auto|].
    exfalso. rewrite (Z.eqb_sym (bus chip1) (bus chip2)), E1 in H.
    destruct Hb as [Hb | Hb]; rewrite Hb in H; simpl in H;
      rewrite ?orb_true_r in H; simpl in H; discriminate.
  - intros Hb Hisa Hpci Hp Ha. unfold sensors_match_chip.
    rewrite Hp, Ha, Hb, Z.eqb_refl.
    assert (Hpd : prefix_differs (prefix chip2) (prefix chip2) = false).
    { destruct (prefix chip2); simpl; auto. now rewrite same_name_refl. }
    rewrite Hpd. apply Z.eqb_neq in Hisa, Hpci. rewrite Hisa, Hpci.
    rewrite !Z.eqb_refl.
    change (SENSORS_CHIP_NAME_BUS_ANY_I2C =? SENSORS_CHIP_NAME_BUS_ISA)
      with false.
    change (SENSORS_CHIP_NAME_BUS_ANY_I2C =? SENSORS_CHIP_NAME_BUS_PCI)
      with false.
    simpl. now rewrite !andb_false_r.
Qed.

(** ** sensors_for_all_config_chips *)

Lemma config_chips_scan_none (chip_name : sensors_chip_name) (n : nat) :
  config_chips_scan chip_name n = None ->
  forall k c, (k < n)%nat -> nth_error sensors_config_chips k = Some c ->
              chip_fits chip_name c = false.
Proof.
  induction n as [|n IH]; intros H k c Hk Hc; [lia|].
  cbn [config_chips_scan] in H.
  destruct (Nat.eq_dec k n) as [->|Hne].
  - rewrite Hc in H. destruct (chip_fits chip_name c); [discriminate | auto].
  - apply (IH) with (k := k); auto; [|lia].
    destruct (nth_error sensors_config_chips n) as [c'|]; auto.
    destruct (chip_fits chip_name c'); [discriminate | auto].
Qed.

Lemma config_chips_scan_some (chip_name : sensors_chip_name) (n nr : nat) :
  config_chips_scan chip_name n = Some nr ->
  (nr < n)%nat /\
  (exists c, nth_error sensors_config_chips nr = Some c /\
             chip_fits chip_name c = true) /\
  forall k c, (nr < k < n)%nat -> nth_error sensors_config_chips k = Some c ->
              chip_fits chip_name c = false.
Proof.
  induction n as [|n IH]; intros H; [discriminate|].
  cbn [config_chips_scan] in H.
  destruct (nth_error sensors_config_chips n) as [c'|] eqn:En.
  - destruct (chip_fits chip_name c') eqn:Ef.
    + inversion H; subst nr. split; [lia|]. split; [eauto|].
      intros k c Hk; lia.
    + destruct (IH H) as [Hlt [Hc Hbetween]].
      split; [lia|]. split; [exact Hc|].
      intros k c Hk Hkc. destruct (Nat.eq_dec k n) as [->|Hne].
      * congruence.
      * apply (Hbetween k); auto. lia.
  - destruct (IH H) as [Hlt [Hc Hbetween]].
    split; [lia|]. split; [exact Hc|].
    intros k c Hk Hkc. destruct (Nat.eq_dec k n) as [->|Hne].
    + congruence.
    + apply (Hbetween k); auto. lia.
Qed.

(** X5: one call of [sensors_for_all_config_chips] returns the entry
    nearest below the cursor (below the end of the array, for a null
    cursor) that has a pattern matching the chip, and NULL when there is
    none; so the loop that hands each result back as the next cursor visits
    exactly the entries with a matching pattern, the one declared last
    first. *)
Theorem config_chips_iterator (name : sensors_chip_name) (last : option nat) :
  match sensors_for_all_config_chips name last with
  | Some nr =>
      (nr < cursor_position last)%nat /\
      (exists c, nth_error sensors_config_chips nr = Some c /\
                 chip_fits name c = true) /\
      (forall k c, (nr < k < cursor_position last)%nat ->
                   nth_error sensors_config_chips k = Some c ->
                   chip_fits name c = false)
  | None =>
      forall k c, (k < cursor_position last)%nat ->
                  nth_error sensors_config_chips k = Some c ->
                  chip_fits name c = false
  end /\
  matching_config_chips name =
  rev (filter (chip_fits name) sensors_config_chips).
Proof.
  split; [|apply matching_config_chips_spec].
  unfold sensors_for_all_config_chips. fold (cursor_position last).
  destruct (config_chips_scan name (cursor_position last)) as [nr|] eqn:E.
  - now apply config_chips_scan_some.
  - now apply config_chips_scan_none.
Qed.

(** ** The catalog *)

Lemma lookup_feature_some test list p f :
  sensors_lookup_feature test list p = Some f ->
  test f = true /\
  exists e, In e list /\ same_name (features_prefix e) p = true /\
            In f (features_feature e).
Proof.
  induction list as [|e rest IH]; intros H; simpl in H; [discriminate|].
  destruct (same_name (features_prefix e) p) eqn:Ep.
  - destruct (find test (features_feature e)) as [g|] eqn:Ef.
    + inversion H; subst g. apply find_some in Ef. destruct Ef as [Hin Ht].
      split; auto. exists e. simpl; auto.
    + destruct (IH H) as [Ht [e' [Hin [Hp Hf]]]]. split; auto.
      exists e'. simpl; auto.
  - destruct (IH H) as [Ht [e' [Hin [Hp Hf]]]]. split; auto.
    exists e'. simpl; auto.
Qed.

Lemma lookup_feature_none test list p :
  sensors_lookup_feature test list p = None <->
  forall e f, In e list -> same_name (features_prefix e) p = true ->
              In f (features_feature e) -> test f = false.
Proof.
  induction list as [|e rest IH]; simpl.
  - split; auto. intros _ e f [].
  - destruct (same_name (features_prefix e) p) eqn:Ep.
    + destruct (find test (features_feature e)) as [g|] eqn:Ef.
      * split; [discriminate|]. intros H. apply find_some in Ef.
        destruct Ef as [Hin Ht]. rewrite (H e g) in Ht; auto; discriminate.
      * rewrite IH. split.
        -- intros H e' f [<- | Hin] Hp Hf; [|eapply H; eauto].
           apply (find_none _ _ Ef f Hf).
        -- intros H e' f Hin. apply H. auto.
    + rewrite IH. split.
      * intros H e' f [<- | Hin] Hp Hf; [congruence | eapply H; eauto].
      * intros H e' f Hin. apply H. auto.
Qed.

(** X6: [sensors_lookup_feature_nr] returns a descriptor with the number
    asked for, out of a catalog entry whose prefix equals the one asked for
    up to case; it returns NULL exactly when no such entry holds a
    descriptor with that number. *)
Theorem lookup_feature_nr_found_or_absent (p : string) (feature : Z) :
  match sensors_lookup_feature_nr p feature with
  | Some f =>
      number (data f) = feature /\
      exists e, In e sensors_chip_features_list /\
                strcasecmp (features_prefix e) p = 0 /\
                In f (features_feature e)
  | None =>
      forall e f, In e sensors_chip_features_list ->
                  strcasecmp (features_prefix e) p = 0 ->
                  In f (features_feature e) -> number (data f) <> feature
  end.
Proof.
  unfold sensors_lookup_feature_nr.
  destruct (sensors_lookup_feature _ sensors_chip_features_list p) as [f|] eqn:E.
  - apply lookup_feature_some in E. destruct E as [Ht [e [Hin [Hp Hf]]]].
    apply Z.eqb_eq in Ht. split; auto. exists e. repeat split; auto.
    now apply Z.eqb_eq.
  - intros e f Hin Hp Hf. apply Z.eqb_neq.
    apply (proj1 (lookup_feature_none _ _ _) E e f); auto.
    now apply Z.eqb_eq.
Qed.

(** X7: [sensors_lookup_feature_name] returns a descriptor whose name equals
    the one asked for up to case, out of a catalog entry whose prefix equals
    the one asked for up to case; it returns NULL exactly when no such entry
    holds a descriptor with such a name. *)
Theorem lookup_feature_name_found_or_absent (p feature : string) :
  match sensors_lookup_feature_name p feature with
  | Some f =>
      strcasecmp (data_name (data f)) feature = 0 /\
      exists e, In e sensors_chip_features_list /\
                strcasecmp (features_prefix e) p = 0 /\
                In f (features_feature e)
  | None =>
      forall e f, In e sensors_chip_features_list ->
                  strcasecmp (features_prefix e) p = 0 ->
                  In f (features_feature e) ->
                  strcasecmp (data_name (data f)) feature <> 0
  end.
Proof.
  unfold sensors_lookup_feature_name.
  destruct (sensors_lookup_feature _ sensors_chip_features_list p) as [f|] eqn:E.
  - apply lookup_feature_some in E. destruct E as [Ht [e [Hin [Hp Hf]]]].
    apply Z.eqb_eq in Ht. split; auto. exists e. repeat split; auto.
    now apply Z.eqb_eq.
  - intros e f Hin Hp Hf. apply Z.eqb_neq.
    apply (proj1 (lookup_feature_none _ _ _) E e f); auto.
    now apply Z.eqb_eq.
Qed.

(** X8: what one lookup finds, the other finds too: the name of a
    descriptor found by number is known to the lookup by name, and the
    number of a descriptor found by name is known to the lookup by number
    (each may return an earlier descriptor of the catalog with the same
    name, or the same number). *)
Theorem lookup_feature_round_trip (p : string) (f : sensors_chip_feature) :
  (forall feature,
     sensors_lookup_feature_nr p feature = Some f ->
     exists g, sensors_lookup_feature_name p (data_name (data f)) = Some g /\
               strcasecmp (data_name (data g)) (data_name (data f)) = 0) /\
  (forall feature,
     sensors_lookup_feature_name p feature = Some f ->
     exists g, sensors_lookup_feature_nr p (number (data f)) = Some g /\
               number (data g) = number (data f)).
Proof.
  split; intros feature H.
  - apply lookup_feature_some in H. destruct H as [_ [e [Hin [Hp Hf]]]].
    unfold sensors_lookup_feature_name.
    destruct (sensors_lookup_feature
                (fun g => same_name (data_name (data g)) (data_name (data f)))
                sensors_chip_features_list p) as [g|] eqn:E.
    + exists g. split; [reflexivity|].
      apply lookup_feature_some in E. destruct E as [Ht _].
      now apply Z.eqb_eq.
    + exfalso.
      pose proof (proj1 (lookup_feature_none _ _ _) E e f Hin Hp Hf) as Hn.
      simpl in Hn. now rewrite same_name_refl in Hn.
  - apply lookup_feature_some in H. destruct H as [_ [e [Hin [Hp Hf]]]].
    unfold sensors_lookup_feature_nr.
    destruct (sensors_lookup_feature
                (fun g => number (data g) =? number (data f))
                sensors_chip_features_list p) as [g|] eqn:E.
    + exists g. split; [reflexivity|].
      apply lookup_feature_some in E. destruct E as [Ht _].
      now apply Z.eqb_eq.
    + exfalso.
      pose proof (proj1 (lookup_feature_none _ _ _) E e f Hin Hp Hf) as Hn.
      simpl in Hn. now rewrite Z.eqb_refl in Hn.
Qed.

Lemma same_name_congr (x a b : string) :
  c_string x -> c_string a -> c_string b ->
  same_name a b = true -> same_name x a = same_name x b.
Proof.
  intros Hx Ha Hb Hab. apply (same_name_lower a b Ha Hb) in Hab.
  destruct (same_name x a) eqn:E1, (same_name x b) eqn:E2; auto.
  - apply (same_name_lower x a Hx Ha) in E1.
    rewrite Hab in E1. apply (same_name_lower x b Hx Hb) in E1. congruence.
  - apply (same_name_lower x b Hx Hb) in E2.
    rewrite <- Hab in E2. apply (same_name_lower x a Hx Ha) in E2. congruence.
Qed.

Lemma find_agree {A} (f g : A -> bool) (l : list A) :
  (forall x, In x l -> f x = g x) -> find f l = find g l.
Proof.
  induction l as [|x l IH]; intros H; simpl; [reflexivity|].
  rewrite (H x) by (simpl; auto).
  destruct (g x); auto. apply IH. intros y Hy. apply H. simpl; auto.
Qed.

Lemma lookup_feature_agree test test' list p p' :
  (forall e, In e list ->
     same_name (features_prefix e) p = same_name (features_prefix e) p' /\
     forall f, In f (features_feature e) -> test f = test' f) ->
  sensors_lookup_feature test list p = sensors_lookup_feature test' list p'.
Proof.
  induction list as [|e rest IH]; intros H; simpl; [reflexivity|].
  destruct (H e (or_introl eq_refl)) as [Hp Hf].
  rewrite <- Hp, (find_agree test test' _ Hf), IH; auto.
  intros e' He'. apply H. simpl; auto.
Qed.

(** X9: the two lookups do not see the case of letters: with C strings all
    round, a prefix and a feature name may be replaced by any spelling that
    [strcasecmp] holds equal to them, and the lookups return the same
    descriptor. *)
Theorem lookup_feature_ignores_case (p p' n n' : string) (feature : Z) :
  catalog_c_strings ->
  c_string p -> c_string p' -> c_string n -> c_string n' ->
  strcasecmp p p' = 0 -> strcasecmp n n' = 0 ->
  sensors_lookup_feature_name p n = sensors_lookup_feature_name p' n' /\
  sensors_lookup_feature_nr p feature = sensors_lookup_feature_nr p' feature.
Proof.
  intros Hcat Hp Hp' Hn Hn' Epp Enn.
  assert (Spp : same_name p p' = true) by now apply Z.eqb_eq.
  assert (Snn : same_name n n' = true) by now apply Z.eqb_eq.
  unfold catalog_c_strings in Hcat. rewrite Forall_forall in Hcat.
  split; apply lookup_feature_agree; intros e He;
    destruct (Hcat e He) as [Hep Hef]; rewrite Forall_forall in Hef;
    (split; [now apply same_name_congr|]); intros f Hf; auto.
  apply same_name_congr; auto.
Qed.

(** ** sensors_get_label *)

Lemma get_label_scan_first f pre chip post l :
  Forall (fun c => entry_label f c = None) pre ->
  entry_label f chip = Some l ->
  get_label_scan f (pre ++ chip :: post) = Some (label_value l).
Proof.
  unfold entry_label. intros Hpre Hchip.
  induction Hpre as [|c pre Hc _ IH]; simpl.
  - now rewrite Hchip.
  - now rewrite Hc.
Qed.

Lemma get_label_scan_none f cs :
  Forall (fun c => entry_label f c = None) cs -> get_label_scan f cs = None.
Proof.
  unfold entry_label. induction 1 as [|c cs Hc _ IH]; simpl; auto.
  now rewrite Hc.
Qed.

(** X10: for a chip name without wildcards and a feature of the catalog,
    [sensors_get_label] succeeds.  Among the config entries that match the
    chip and have a [label] statement for the feature, the one declared
    last decides, by its first such statement; when there is none, the
    label is the feature's own name. *)
Theorem get_label_last_declared_wins
    (name : sensors_chip_name) (p : string) (feature : Z)
    (featureptr : sensors_chip_feature) :
  sensors_chip_name_has_wildcards name = false ->
  prefix name = Some p ->
  sensors_lookup_feature_nr p feature = Some featureptr ->
  (forall older chip newer l,
     sensors_config_chips = older ++ chip :: newer ->
     chip_fits name chip = true ->
     entry_label featureptr chip = Some l ->
     Forall (fun c => chip_fits name c = true ->
                      entry_label featureptr c = None) newer ->
     sensors_get_label name feature = (0, Some (label_value l))) /\
  (Forall (fun c => chip_fits name c = true ->
                    entry_label featureptr c = None) sensors_config_chips ->
   sensors_get_label name feature =
   (0, Some (data_name (data featureptr)))).
Proof.
  intros Hw Hp Hf. unfold sensors_get_label. rewrite Hw, Hp, Hf.
  rewrite matching_config_chips_spec.
  assert (Hfil : forall cs,
    Forall (fun c => chip_fits name c = true ->
                     entry_label featureptr c = None) cs ->
    Forall (fun c => entry_label featureptr c = None)
      (rev (filter (chip_fits name) cs))).
  { intros cs H. apply Forall_rev. rewrite Forall_forall in H |- *.
    intros c Hc. apply filter_In in Hc. destruct Hc as [Hin Hfit]. auto. }
  split.
  - intros older chip newer l Hcfg Hfit Hl Hnewer.
    rewrite Hcfg, filter_app. simpl. rewrite Hfit, rev_app_distr. simpl.
    rewrite <- app_assoc. simpl.
    now rewrite (get_label_scan_first featureptr _ chip _ l (Hfil _ Hnewer) Hl).
  - intros Hall. now rewrite (get_label_scan_none _ _ (Hfil _ Hall)).
Qed.

(** ** sensors_eval_expr, sensors_get_feature, sensors_set_feature *)

(** A failed evaluation leaves the out-parameter as it was. *)
Lemma eval_expr_failure_keeps get_feature chipname expr :
  forall val result m r v m',
    eval_expr get_feature chipname expr val result m = Some (r, v, m') ->
    r <> 0 -> v = result.
Proof.
  induction expr as [v0| |var|op sub1 IH1|op sub1 e2 IH1 IH2]
    using sensors_expr_induction; intros val result m r v m' H Hr;
    simpl in H.
  - inversion H; subst; contradiction.
  - inversion H; subst; contradiction.
  - destruct (prefix chipname) as [p|]; [|discriminate].
    destruct (sensors_lookup_feature_name p var) as [f|];
      [|now inversion H].
    destruct (get_feature chipname (number (data f)) result m)
      as [[[res r'] m1]|]; [|discriminate].
    destruct (res =? 0) eqn:E; inversion H; subst; [|contradiction].
    apply Z.eqb_eq in E. contradiction.
  - destruct (eval_expr get_feature chipname sub1 val indeterminate m)
      as [[[res res1] m1]|]; [|discriminate].
    destruct (negb (res =? 0)); [now inversion H|].
    destruct op; simpl in H;
      try (inversion H; subst; contradiction);
      match type of H with
      | context [if ?b then _ else _] => destruct b
      end; inversion H; subst; auto; contradiction.
  - destruct (eval_expr get_feature chipname sub1 val indeterminate m)
      as [[[res res1] m1]|]; [|discriminate].
    destruct (negb (res =? 0)); [now inversion H|].
    destruct (eval_expr get_feature chipname e2 val indeterminate m1)
      as [[[res' res2] m2]|]; [|discriminate].
    destruct (negb (res' =? 0)); [now inversion H|].
    destruct op; simpl in H;
      try (inversion H; subst; contradiction);
      match type of H with
      | context [if ?b then _ else _] => destruct b
      end; inversion H; subst; auto; contradiction.
Qed.

(** X11: [sensors_eval_expr] returns 0, [SENSORS_ERR_NO_ENTRY] or
    [-SENSORS_ERR_DIV_ZERO] and nothing else: no access or backend error of
    a feature it refers to comes out of it.  It never writes to the
    backend, and when it fails it leaves the out-parameter as it was. *)
Theorem eval_expr_codes_and_effects
    (fuel : nat) (chipname : sensors_chip_name) (expr : sensors_expr)
    (val result : float) (m : machine) (r : Z) (v : float) (m' : machine) :
  sensors_eval_expr fuel chipname expr val result m = Some (r, v, m') ->
  (r = 0 \/ r = SENSORS_ERR_NO_ENTRY \/ r = - SENSORS_ERR_DIV_ZERO) /\
  (exists evs, trace m' = trace m ++ evs /\ written evs = []) /\
  (r <> 0 -> v = result).
Proof.
  intros H. split; [|split].
  - eapply eval_expr_codes; exact H.
  - eapply sensors_eval_expr_reads; exact H.
  - eapply eval_expr_failure_keeps; exact H.
Qed.

(** An expression without variable reference evaluates to the same code and
    value whatever the chip, the budget and the machine, and leaves the
    machine alone. *)
Lemma eval_expr_var_free_pure expr :
  var_free expr = true ->
  forall val result, exists r v,
    forall get_feature chipname (m : machine),
      eval_expr get_feature chipname expr val result m = Some (r, v, m).
Proof.
  induction expr as [v0| |var|op sub1 IH1|op sub1 e2 IH1 IH2]
    using sensors_expr_induction; intros Hv val result; simpl in Hv.
  - exists 0, v0. reflexivity.
  - exists 0, val. reflexivity.
  - discriminate.
  - destruct (IH1 Hv val indeterminate) as [r1 [v1 H1]].
    destruct (negb (r1 =? 0)) eqn:E.
    + exists r1, result. intros g c m. simpl. now rewrite H1, E.
    + destruct (eval_switch op v1 indeterminate result) as [r v] eqn:Es.
      exists r, v. intros g c m. simpl. now rewrite H1, E, Es.
  - apply andb_true_iff in Hv. destruct Hv as [Hv1 Hv2].
    destruct (IH1 Hv1 val indeterminate) as [r1 [v1 H1]].
    destruct (IH2 Hv2 val indeterminate) as [r2 [v2 H2]].
    destruct (negb (r1 =? 0)) eqn:E1.
    + exists r1, result. intros g c m. simpl. now rewrite H1, E1.
    + destruct (negb (r2 =? 0)) eqn:E2.
      * exists r2, result. intros g c m. simpl. now rewrite H1, E1, H2, E2.
      * destruct (eval_switch op v1 v2 result) as [r v] eqn:Es.
        exists r, v. intros g c m. simpl. now rewrite H1, E1, H2, E2, Es.
Qed.

(** X12: an expression without variable reference always evaluates, at any
    budget and for any chip name, wildcards included; it does not touch the
    machine, and its code and value depend on nothing but the expression,
    the source value and the content of the out-parameter. *)
Theorem eval_expr_without_variables (expr : sensors_expr) (val result : float) :
  var_free expr = true ->
  exists r v,
    forall fuel chipname (m : machine),
      sensors_eval_expr fuel chipname expr val result m = Some (r, v, m).
Proof.
  intros Hv. destruct (eval_expr_var_free_pure expr Hv val result)
    as [r [v H]].
  exists r, v. intros fuel chipname m. unfold sensors_eval_expr. apply H.
Qed.



(** X14: when no matching config entry has a [compute] statement for the
    feature or for its alternate, [sensors_get_feature] returns the raw
    value that the backend read, at any budget. *)
Theorem get_feature_raw_without_compute
    (fuel : nat) (name : sensors_chip_name) (p : string) (feature : Z)
    (result : float) (m : machine)
    (main_feature : sensors_chip_feature)
    (alt_feature : option sensors_chip_feature)
    (val : float) (m1 : machine) :
  sensors_chip_name_has_wildcards name = false ->
  prefix name = Some p ->
  sensors_lookup_feature_nr p feature = Some main_feature ->
  (compute_mapping (data main_feature) = SENSORS_NO_MAPPING /\
   alt_feature = None \/
   compute_mapping (data main_feature) <> SENSORS_NO_MAPPING /\
   alt_feature <> None /\
   sensors_lookup_feature_nr p (compute_mapping (data main_feature)) =
   alt_feature) ->
  Z.land (mode (data main_feature)) SENSORS_MODE_R <> 0 ->
  read_proc name feature m = (0, val, m1) ->
  Forall (fun c => chip_fits name c = true ->
                   entry_from_expr main_feature alt_feature (computes c) = None)
    sensors_config_chips ->
  sensors_get_feature fuel name feature result m = Some (0, val, m1).
Proof.
  intros Hw Hp Hf Halt Hmode Hrd Hnone.
  rewrite sensors_get_feature_eq, Hw, Hp, Hf.
  assert (Hfound : get_feature_found fuel name feature result m
                     main_feature alt_feature = Some (0, val, m1)).
  { unfold get_feature_found.
    apply Z.eqb_neq in Hmode. rewrite Hmode, Hrd. simpl.
    rewrite get_feature_chips_none; [reflexivity|].
    rewrite Forall_forall in Hnone |- *. intros c Hc.
    apply in_matching_config_chips in Hc. destruct Hc as [Hin Hfit]. auto. }
  destruct Halt as [[Hm ->] | [Hm [Hne Hl]]].
  - now rewrite Hm, Z.eqb_refl.
  - apply Z.eqb_neq in Hm. rewrite Hm, Hl.
    destruct alt_feature; [exact Hfound | congruence].
Qed.

Lemma set_feature_write_shape fuel name feature value m expr r m' :
  set_feature_write fuel name feature value m expr = Some (r, m') ->
  exists evs, trace m' = trace m ++ evs /\
    ((r = 0 \/ r = - SENSORS_ERR_PROC) /\
     (exists rd v, evs = rd ++ [ev_write_proc name feature v] /\
                   written rd = []) \/
     (r = SENSORS_ERR_NO_ENTRY \/ r = - SENSORS_ERR_DIV_ZERO) /\
     written evs = []).
Proof.
  unfold set_feature_write. intros H.
  assert (Hwr : forall v m1 rd,
    trace m1 = trace m ++ rd -> written rd = [] ->
    (let '(wr, m2) := write_proc name feature v m1 in
     if negb (wr =? 0) then Some (- SENSORS_ERR_PROC, m2) else Some (0, m2))
    = Some (r, m') ->
    exists evs, trace m' = trace m ++ evs /\
      ((r = 0 \/ r = - SENSORS_ERR_PROC) /\
       (exists rd v, evs = rd ++ [ev_write_proc name feature v] /\
                     written rd = []) \/
       (r = SENSORS_ERR_NO_ENTRY \/ r = - SENSORS_ERR_DIV_ZERO) /\
       written evs = [])).
  { intros v m1 rd Ht Hw Hv.
    destruct (write_proc name feature v m1) as [wr m2] eqn:E.
    apply write_proc_trace in E.
    exists (rd ++ [ev_write_proc name feature v]).
    destruct (negb (wr =? 0)); inversion Hv; subst;
      (split; [now rewrite E, Ht, app_assoc|]); left; split; eauto. }
  destruct expr as [e|].
  - destruct (sensors_eval_expr fuel name e value value m)
      as [[[res w] m1]|] eqn:E; [|discriminate].
    pose proof (eval_expr_codes _ _ _ _ _ _ _ _ _ E) as Hc.
    apply sensors_eval_expr_reads in E. destruct E as [rd [Ht Hw]].
    destruct (negb (res =? 0)) eqn:Eres.
    + inversion H; subst. exists rd. split; auto. right. split; auto.
      destruct Hc as [-> | Hc]; [discriminate Eres | exact Hc].
    + eapply Hwr; eauto.
  - apply (Hwr value m []); auto. now rewrite app_nil_r.
Qed.

(** X15: [sensors_set_feature] makes at most one write to the backend, to
    the feature it was called for, and that write is the last thing it
    does: it happens exactly when the code returned is 0 or
    [-SENSORS_ERR_PROC].  With any other code nothing was written, and with
    [-SENSORS_ERR_WILDCARDS], [-SENSORS_ERR_NO_ENTRY] or
    [-SENSORS_ERR_ACCESS_W] the backend was not called at all. *)
Theorem set_feature_write_discipline
    (fuel : nat) (name : sensors_chip_name) (feature : Z) (value : float)
    (m : machine) (r : Z) (m' : machine) :
  sensors_set_feature fuel name feature value m = Some (r, m') ->
  exists evs, trace m' = trace m ++ evs /\
    (r = 0 \/ r = - SENSORS_ERR_PROC ->
     exists rd v, evs = rd ++ [ev_write_proc name feature v] /\
                  written rd = []) /\
    (r <> 0 -> r <> - SENSORS_ERR_PROC -> written evs = []) /\
    (r = - SENSORS_ERR_WILDCARDS \/ r = - SENSORS_ERR_NO_ENTRY \/
     r = - SENSORS_ERR_ACCESS_W -> m' = m).
Proof.
  rewrite sensors_set_feature_eq. intros H.
  assert (Hearly : forall c,
    c = - SENSORS_ERR_WILDCARDS \/ c = - SENSORS_ERR_NO_ENTRY \/
    c = - SENSORS_ERR_ACCESS_W ->
    Some (c, m) = Some (r, m') ->
    exists evs, trace m' = trace m ++ evs /\
      (r = 0 \/ r = - SENSORS_ERR_PROC ->
       exists rd v, evs = rd ++ [ev_write_proc name feature v] /\
                    written rd = []) /\
      (r <> 0 -> r <> - SENSORS_ERR_PROC -> written evs = []) /\
      (r = - SENSORS_ERR_WILDCARDS \/ r = - SENSORS_ERR_NO_ENTRY \/
       r = - SENSORS_ERR_ACCESS_W -> m' = m)).
  { intros c Hc E. inversion E; subst. exists []. rewrite app_nil_r.
    repeat split; auto.
    intros [Hr | Hr]; destruct Hc as [Hc | [Hc | Hc]]; rewrite Hc in Hr;
      discriminate. }
  assert (Hlate : forall expr,
    set_feature_write fuel name feature value m expr = Some (r, m') ->
    exists evs, trace m' = trace m ++ evs /\
      (r = 0 \/ r = - SENSORS_ERR_PROC ->
       exists rd v, evs = rd ++ [ev_write_proc name feature v] /\
                    written rd = []) /\
      (r <> 0 -> r <> - SENSORS_ERR_PROC -> written evs = []) /\
      (r = - SENSORS_ERR_WILDCARDS \/ r = - SENSORS_ERR_NO_ENTRY \/
       r = - SENSORS_ERR_ACCESS_W -> m' = m)).
  { intros expr E. apply set_feature_write_shape in E.
    destruct E as [evs [Ht [[Hr Hev] | [Hr Hw]]]]; exists evs; split; auto.
    - repeat split; auto.
      + intros H1 H2. destruct Hr; contradiction.
      + intros [Hc | [Hc | Hc]]; destruct Hr as [Hr | Hr]; rewrite Hr in Hc;
          discriminate.
    - repeat split; auto.
      + intros [Hc | Hc]; destruct Hr as [Hr | Hr]; rewrite Hr in Hc;
          discriminate.
      + intros [Hc | [Hc | Hc]]; destruct Hr as [Hr | Hr]; rewrite Hr in Hc;
          discriminate. }
  destruct (sensors_chip_name_has_wildcards name);
    [apply (Hearly _ (or_introl eq_refl) H)|].
  destruct (prefix name) as [p|]; [|apply (Hearly _ (or_introl eq_refl) H)].
  destruct (sensors_lookup_feature_nr p feature) as [main|];
    [|apply (Hearly _ (or_intror (or_introl eq_refl)) H)].
  cbv zeta in H.
  destruct (compute_mapping (data main) =? SENSORS_NO_MAPPING).
  - destruct (Z.land _ _ =? 0);
      [apply (Hearly _ (or_intror (or_intror eq_refl)) H)|].
    eapply Hlate; exact H.
  - destruct (sensors_lookup_feature_nr p (compute_mapping (data main)));
      [|apply (Hearly _ (or_intror (or_introl eq_refl)) H)].
    destruct (Z.land _ _ =? 0);
      [apply (Hearly _ (or_intror (or_intror eq_refl)) H)|].
    eapply Hlate; exact H.
Qed.

Lemma set_feature_chips_none main alt cs :
  Forall (fun c => entry_from_expr main alt (computes c) = None) cs ->
  set_feature_chips main alt cs (None, false) = (None, false).
Proof.
  intros H. induction H as [|c cs Hc Hcs IH]; [reflexivity|].
  cbn [set_feature_chips fst].
  rewrite set_feature_computes_spec. unfold entry_from_expr in Hc.
  destruct (find _ (computes c)); [discriminate Hc|].
  destruct (find _ (rev (computes c))); [discriminate Hc|]. exact IH.
Qed.

(** X16: when no matching config entry has a [compute] statement for the
    feature or for its alternate, [sensors_set_feature] hands the caller's
    value to the backend as it is, in its one call to the backend, and
    returns 0, or [-SENSORS_ERR_PROC] when the backend refuses. *)
Theorem set_feature_raw_without_compute
    (fuel : nat) (name : sensors_chip_name) (p : string) (feature : Z)
    (value : float) (m : machine)
    (main_feature : sensors_chip_feature)
    (alt_feature : option sensors_chip_feature) :
  sensors_chip_name_has_wildcards name = false ->
  prefix name = Some p ->
  sensors_lookup_feature_nr p feature = Some main_feature ->
  (compute_mapping (data main_feature) = SENSORS_NO_MAPPING /\
   alt_feature = None \/
   compute_mapping (data main_feature) <> SENSORS_NO_MAPPING /\
   alt_feature <> None /\
   sensors_lookup_feature_nr p (compute_mapping (data main_feature)) =
   alt_feature) ->
  Z.land (mode (data main_feature)) SENSORS_MODE_W <> 0 ->
  Forall (fun c => chip_fits name c = true ->
                   entry_from_expr main_feature alt_feature (computes c) = None)
    sensors_config_chips ->
  exists r m',
    sensors_set_feature fuel name feature value m = Some (r, m') /\
    trace m' = trace m ++ [ev_write_proc name feature value] /\
    (r = 0 \/ r = - SENSORS_ERR_PROC) /\
    (r = 0 <-> fst (sensors_write_proc name feature value (hw m)) = 0).
Proof.
  intros Hw Hp Hf Halt Hmode Hnone.
  rewrite sensors_set_feature_eq, Hw, Hp, Hf. cbv zeta.
  apply Z.eqb_neq in Hmode.
  assert (Hexpr : fst (set_feature_chips main_feature alt_feature
                         (matching_config_chips name) (None, false)) = None).
  { rewrite set_feature_chips_none; [reflexivity|].
    rewrite Forall_forall in Hnone |- *. intros c Hc.
    apply in_matching_config_chips in Hc. destruct Hc as [Hin Hfit]. auto. }
  assert (Hgoal : exists r m',
    set_feature_write fuel name feature value m None = Some (r, m') /\
    trace m' = trace m ++ [ev_write_proc name feature value] /\
    (r = 0 \/ r = - SENSORS_ERR_PROC) /\
    (r = 0 <-> fst (sensors_write_proc name feature value (hw m)) = 0)).
  { unfold set_feature_write, write_proc.
    destruct (sensors_write_proc name feature value (hw m)) as [wr h].
    simpl. destruct (wr =? 0) eqn:E; simpl.
    - apply Z.eqb_eq in E. eexists _, _. repeat split; eauto.
    - apply Z.eqb_neq in E. eexists _, _. repeat split; eauto;
        [discriminate | contradiction]. }
  destruct Halt as [[Hm ->] | [Hm [Hne Hl]]].
  - rewrite Hm, Z.eqb_refl, Hmode, Hexpr. exact Hgoal.
  - apply Z.eqb_neq in Hm. rewrite Hm, Hl.
    destruct alt_feature; [|congruence].
    rewrite Hmode, Hexpr. exact Hgoal.
Qed.

(** ** sensors_do_all_sets *)

Lemma all_chips_match (chip : sensors_chip_name) :
  sensors_match_chip all_chips chip = true.
Proof.
  unfold sensors_match_chip, all_chips. simpl. now rewrite !andb_false_r.
Qed.

Lemma filter_all {A} (f : A -> bool) (l : list A) :
  (forall x, f x = true) -> filter f l = l.
Proof.
  intros H. induction l as [|x l IH]; simpl; [reflexivity|].
  now rewrite H, IH.
Qed.

Lemma chip_runs_length fuel names m runs m' :
  chip_runs fuel names m runs m' -> List.length runs = List.length names.
Proof. induction 1; simpl; auto. Qed.

(** X17: [sensors_do_all_sets] calls [sensors_do_this_chip_sets] once for
    every detected chip, in the order of detection, each call starting from
    the machine that the one before it left, and returns the first of their
    results that is not 0. *)
Theorem do_all_sets_every_chip
    (fuel : nat) (m : machine) (res : Z) (m' : machine)
    (runs : list sets_state) :
  do_all_sets_run fuel m = Some (res, m', runs) ->
  chip_runs fuel (map proc_name sensors_proc_chips) m runs m' /\
  List.length runs = List.length sensors_proc_chips /\
  res = first_nonzero (map sets_err runs) /\
  sensors_do_all_sets fuel m = Some (res, m').
Proof.
  unfold do_all_sets_run, sensors_do_all_sets, sensors_do_chip_sets.
  intros H. rewrite H.
  apply do_chip_sets_run_chain in H. destruct H as [Hc Hres].
  rewrite (filter_all _ _ all_chips_match) in Hc.
  repeat split; auto.
  rewrite (chip_runs_length _ _ _ _ _ Hc). apply length_map.
Qed.

(** ** The list of processed features *)

Lemma add_number_step fuel name p st s st' :
  prefix name = Some p ->
  do_this_chip_set fuel name st s = Some st' ->
  sets_feature_list st' =
  fold_left add_number (resolved_numbers p [s]) (sets_feature_list st).
Proof.
  intros Hp H. apply do_this_chip_set_inv in H.
  destruct H as [p' [Hp' H]]. rewrite Hp in Hp'. inversion Hp'; subst p'.
  unfold resolved_numbers. simpl.
  destruct (sensors_lookup_feature_name p (set_name s)) as [f|]; simpl.
  - unfold add_number.
    destruct H as [[Hin ->] | [Hnin [Hfl _]]].
    + apply existsb_eqb_In in Hin. now rewrite Hin.
    + destruct (existsb _ _) eqn:E; [|exact Hfl].
      apply existsb_eqb_In in E. contradiction.
  - now subst st'.
Qed.

Lemma resolved_numbers_app p ss1 ss2 :
  resolved_numbers p (ss1 ++ ss2) =
  resolved_numbers p ss1 ++ resolved_numbers p ss2.
Proof. apply flat_map_app. Qed.

Lemma add_number_entry fuel name p : forall ss st st',
  prefix name = Some p ->
  do_this_chip_sets_entry fuel name ss st = Some st' ->
  sets_feature_list st' =
  fold_left add_number (resolved_numbers p ss) (sets_feature_list st).
Proof.
  induction ss as [|s rest IH]; intros st st' Hp H; simpl in H.
  - now inversion H.
  - destruct (do_this_chip_set fuel name st s) as [st1|] eqn:E;
      [|discriminate].
    change (s :: rest) with ([s] ++ rest).
    rewrite resolved_numbers_app, fold_left_app.
    rewrite <- (add_number_step _ _ _ _ _ _ Hp E). now apply IH.
Qed.

Lemma add_number_chips fuel name p : forall cs st st',
  prefix name = Some p ->
  do_this_chip_sets_chips fuel name cs st = Some st' ->
  sets_feature_list st' =
  fold_left add_number (resolved_numbers p (flat_map sets cs))
    (sets_feature_list st).
Proof.
  induction cs as [|c rest IH]; intros st st' Hp H; simpl in H.
  - now inversion H.
  - destruct (do_this_chip_sets_entry fuel name (sets c) st) as [st1|] eqn:E;
      [|discriminate].
    simpl. rewrite resolved_numbers_app, fold_left_app.
    rewrite <- (add_number_entry _ _ _ _ _ _ Hp E). now apply IH.
Qed.

Lemma add_number_nodup : forall l acc,
  NoDup acc -> NoDup (fold_left add_number l acc).
Proof.
  induction l as [|n l IH]; intros acc H; simpl; auto.
  apply IH. unfold add_number.
  destruct (existsb (Z.eqb n) acc) eqn:E; auto.
  apply NoDup_app; auto.
  - constructor; [intros [] | constructor].
  - intros a Ha [<- | []]. apply existsb_eqb_In in Ha. congruence.
Qed.

Lemma add_number_in : forall l acc n,
  In n (fold_left add_number l acc) <-> In n acc \/ In n l.
Proof.
  induction l as [|k l IH]; intros acc n; simpl; [tauto|].
  rewrite IH. unfold add_number.
  destruct (existsb (Z.eqb k) acc) eqn:E.
  - apply existsb_eqb_In in E. split; [tauto|].
    intros [H | [<- | H]]; auto.
  - rewrite in_app_iff. simpl. tauto.
Qed.

(** X18: when [sensors_do_this_chip_sets] returns, its list of processed
    feature numbers holds the numbers that the [set] statements met for the
    chip resolve to, each once, in the order in which the scan meets them
    first: the entry declared last comes first, and inside an entry the
    statements come in their order. *)
Theorem sets_feature_list_scan_order
    (fuel : nat) (name : sensors_chip_name) (p : string) (m : machine)
    (st : sets_state) :
  prefix name = Some p ->
  do_this_chip_sets_run fuel name m = Some st ->
  sets_feature_list st =
    first_occurrences (resolved_numbers p (sets_in_scan_order name)) /\
  NoDup (sets_feature_list st) /\
  (forall n, In n (sets_feature_list st) <->
             exists s f, In s (sets_in_scan_order name) /\
                         sensors_lookup_feature_name p (set_name s) = Some f /\
                         number (data f) = n).
Proof.
  intros Hp H. unfold do_this_chip_sets_run in H.
  pose proof (add_number_chips _ _ _ _ _ _ Hp H) as Hfl. simpl in Hfl.
  fold (sets_in_scan_order name) in Hfl.
  fold (first_occurrences (resolved_numbers p (sets_in_scan_order name)))
    in Hfl.
  split; [exact Hfl|]. split.
  - rewrite Hfl. apply add_number_nodup. constructor.
  - intros n. rewrite Hfl. unfold first_occurrences.
    rewrite add_number_in. unfold resolved_numbers. rewrite in_flat_map.
    split.
    + intros [[] | [s [Hs Hn]]].
      destruct (sensors_lookup_feature_name p (set_name s)) as [f|] eqn:E;
        [|destruct Hn].
      destruct Hn as [<- | []]. eauto.
    + intros [s [f [Hs [Hf Hn]]]]. right. exists s. split; auto.
      rewrite Hf. simpl; auto.
Qed.

(** ** sensors_get_adapter_name *)

(** X19: [sensors_get_adapter_name] always has a name for the ISA, PCI and
    dummy buses, whatever the table of buses holds; any other bus number
    gets the adapter of the first table entry with that number, and NULL
    exactly when the table has no entry with it. *)
Theorem get_adapter_name_cases (bus_nr : Z) :
  (bus_nr = SENSORS_CHIP_NAME_BUS_ISA \/ bus_nr = SENSORS_CHIP_NAME_BUS_PCI \/
   bus_nr = SENSORS_CHIP_NAME_BUS_DUMMY ->
   exists s, sensors_get_adapter_name bus_nr = Some s) /\
  (bus_nr <> SENSORS_CHIP_NAME_BUS_ISA ->
   bus_nr <> SENSORS_CHIP_NAME_BUS_PCI ->
   bus_nr <> SENSORS_CHIP_NAME_BUS_DUMMY ->
   (sensors_get_adapter_name bus_nr = None <->
    forall b, In b sensors_proc_bus -> bus_number b <> bus_nr) /\
   (forall s, sensors_get_adapter_name bus_nr = Some s ->
      exists before b after,
        sensors_proc_bus = before ++ b :: after /\
        bus_number b = bus_nr /\ bus_adapter b = s /\
        forall b', In b' before -> bus_number b' <> bus_nr)).
Proof.
  unfold sensors_get_adapter_name. split.
  - intros [-> | [-> | ->]]; simpl; eauto.
  - intros H1 H2 H3. apply Z.eqb_neq in H1, H2, H3. rewrite H1, H2, H3.
    split.
    + destruct (find _ sensors_proc_bus) as [b|] eqn:E.
      * split; [discriminate|]. intros H. apply find_some in E.
        destruct E as [Hin Hb]. apply Z.eqb_eq in Hb.
        exfalso. exact (H b Hin Hb).
      * split; auto. intros _ b Hin. apply Z.eqb_neq.
        exact (find_none _ _ E b Hin).
    + intros s Hs. clear H1 H2 H3.
      induction sensors_proc_bus as [|b rest IH]; simpl in Hs;
        [discriminate|].
      destruct (bus_number b =? bus_nr) eqn:E.
      * inversion Hs; subst. apply Z.eqb_eq in E.
        exists [], b, rest. repeat split; auto.
      * destruct (IH Hs) as [before [b0 [after [Hl [Hn [Ha Hb]]]]]].
        exists (b :: before), b0, after. rewrite Hl.
        repeat split; auto. intros b' [<- | Hin]; auto.
        now apply Z.eqb_neq.
Qed.

(** ** What is reported through sensors_parse_error *)















(** ** sensors_get_all_features *)

Lemma scan_offset_found test l :
  match nth_error l (scan_offset test l) with
  | Some g =>
      test g = true /\
      filter test l = g :: filter test (skipn (S (scan_offset test l)) l)
  | None => filter test l = []
  end.
Proof.
  induction l as [|g rest IH]; [reflexivity|].
  cbn [scan_offset filter]. destruct (test g) eqn:E.
  - simpl. auto.
  - exact IH.
Qed.

Lemma scan_offset_main l :
  match nth_error l
          (scan_offset (fun g => mapping (data g) =? SENSORS_NO_MAPPING) l)
  with
  | Some g =>
      main_features_with_subs l =
      g :: subfeatures g
             (skipn (S (scan_offset
                          (fun g => mapping (data g) =? SENSORS_NO_MAPPING) l))
                l)
        ++ main_features_with_subs
             (skipn (S (scan_offset
                          (fun g => mapping (data g) =? SENSORS_NO_MAPPING) l))
                l)
  | None => main_features_with_subs l = []
  end.
Proof.
  induction l as [|g rest IH]; [reflexivity|].
  cbn [scan_offset main_features_with_subs].
  destruct (mapping (data g) =? SENSORS_NO_MAPPING) eqn:E.
  - reflexivity.
  - exact IH.
Qed.

Lemma scan_stop_nth test feature_list from :
  nth_error feature_list (scan_stop test feature_list from) =
  nth_error (skipn from feature_list)
    (scan_offset test (skipn from feature_list)).
Proof. unfold scan_stop. now rewrite nth_error_skipn. Qed.

Lemma scan_stop_skipn test feature_list from :
  skipn (S (scan_stop test feature_list from)) feature_list =
  skipn (S (scan_offset test (skipn from feature_list)))
    (skipn from feature_list).
Proof.
  unfold scan_stop. rewrite skipn_skipn. f_equal. lia.
Qed.

Lemma all_features_rounds_from name p e :
  prefix name = Some p ->
  find (fun e => same_name (features_prefix e) p) sensors_chip_features_list =
    Some e ->
  forall n i1 main nr2,
    nth_error (features_feature e) i1 = Some main ->
    (i1 < nr2)%nat -> (nr2 <= List.length (features_feature e))%nat ->
    (List.length
       (subfeatures main (skipn nr2 (features_feature e)) ++
        main_features_with_subs (skipn (S i1) (features_feature e))) < n)%nat ->
    all_features_rounds n name (S i1) nr2 =
    map data
      (subfeatures main (skipn nr2 (features_feature e)) ++
       main_features_with_subs (skipn (S i1) (features_feature e))).
Proof.
  intros Hp Hfind. set (fl := features_feature e).
  induction n as [|n IH]; intros i1 main nr2 Hmain Hlt Hle Hn; [lia|].
  cbn [all_features_rounds]. unfold sensors_get_all_features.
  rewrite Hp, Hfind. fold fl. cbn [Nat.eqb andb]. rewrite Hmain.
  assert (Hnr2 : (List.length fl <? nr2)%nat = false)
    by (apply Nat.ltb_ge; exact Hle).
  rewrite Hnr2. cbv zeta.
  pose proof (scan_offset_found
                (fun g => mapping (data g) =? number (data main))
                (skipn nr2 fl)) as Hsub.
  rewrite (scan_stop_nth _ fl nr2).
  destruct (nth_error (skipn nr2 fl) _) as [g|] eqn:Eq.
  - destruct Hsub as [_ Hsub].
    assert (Hq : nth_error fl
                   (scan_stop (fun g => mapping (data g) =? number (data main))
                      fl nr2) = Some g)
      by (now rewrite scan_stop_nth).
    assert (Hqlt : (scan_stop
                      (fun g => (mapping (data g) =? number (data main))%Z)
                      fl nr2 < List.length fl)%nat).
    { apply nth_error_Some. rewrite Hq. discriminate. }
    unfold subfeatures in Hn |- *. rewrite Hsub in Hn |- *.
    rewrite <- (scan_stop_skipn _ fl nr2) in Hn |- *.
    cbn [map app Datatypes.length] in Hn |- *. f_equal.
    apply (IH i1 main); auto;
      [unfold scan_stop; lia | unfold subfeatures; lia].
  - unfold subfeatures in Hn |- *. rewrite Hsub in Hn |- *.
    cbn [map app Datatypes.length] in Hn |- *.
    pose proof (scan_offset_main (skipn (S i1) fl)) as Hm.
    rewrite (scan_stop_nth _ fl (S i1)).
    destruct (nth_error (skipn (S i1) fl) _) as [g|] eqn:Er.
    + assert (Hr : nth_error fl
                     (scan_stop (fun g => mapping (data g) =? SENSORS_NO_MAPPING)
                        fl (S i1)) = Some g)
        by (now rewrite scan_stop_nth).
      assert (Hrlt : (scan_stop
                        (fun g => (mapping (data g) =? SENSORS_NO_MAPPING)%Z)
                        fl (S i1) < List.length fl)%nat).
      { apply nth_error_Some. rewrite Hr. discriminate. }
      rewrite Hm in Hn |- *.
      rewrite <- (scan_stop_skipn _ fl (S i1)) in Hn |- *.
      cbn [map app Datatypes.length] in Hn |- *. f_equal.
      apply (IH _ g); auto; try lia.
    + now rewrite Hm.
Qed.

Lemma main_features_in l f :
  In f l -> mapping (data f) = SENSORS_NO_MAPPING ->
  In f (main_features_with_subs l).
Proof.
  induction l as [|g rest IH]; intros Hin Hm; [destruct Hin|].
  simpl. destruct Hin as [-> | Hin].
  - rewrite Hm, Z.eqb_refl. simpl; auto.
  - destruct (mapping (data g) =? SENSORS_NO_MAPPING); auto.
    simpl. right. apply in_or_app. auto.
Qed.

(** X21: a caller of [sensors_get_all_features] who starts with 0 and 0 and
    calls until NULL gets the descriptors of the first catalog entry with
    the chip's prefix in this order: the first descriptor of the entry,
    whatever its mapping, then each later descriptor without mapping in
    turn, and right after each of them the descriptors that come behind it
    in the entry and are mapped to its number.  Every descriptor without
    mapping is among them; a descriptor that stands before the one it is
    mapped to is not returned for it. *)
Theorem get_all_features_enumeration
    (name : sensors_chip_name) (p : string) (e : sensors_chip_features)
    (n : nat) :
  prefix name = Some p ->
  find (fun e => same_name (features_prefix e) p) sensors_chip_features_list =
    Some e ->
  (List.length (features_in_order (features_feature e)) < n)%nat ->
  all_features_rounds n name 0 0 =
    map data (features_in_order (features_feature e)) /\
  (forall f, In f (features_feature e) ->
             mapping (data f) = SENSORS_NO_MAPPING ->
             In (data f) (all_features_rounds n name 0 0)).
Proof.
  intros Hp Hfind Hn.
  assert (Heq : all_features_rounds n name 0 0 =
                map data (features_in_order (features_feature e))).
  { destruct n as [|n]; [lia|].
    cbn [all_features_rounds]. unfold sensors_get_all_features.
    rewrite Hp, Hfind. cbn [Nat.eqb andb].
    pose proof (all_features_rounds_from name p e Hp Hfind n) as Hfrom.
    destruct (features_feature e) as [|first rest] eqn:Efl; [reflexivity|].
    simpl in Hn |- *. f_equal.
    apply (Hfrom 0%nat first 1%nat); simpl; auto; lia. }
  split; [exact Heq|].
  intros f Hin Hm. rewrite Heq. apply in_map.
  destruct (features_feature e) as [|first rest]; [destruct Hin|].
  simpl. destruct Hin as [-> | Hin]; auto.
  right. apply in_or_app. right. now apply main_features_in.
Qed.

End Access.

Arguments hw {hardware} _.
Arguments trace {hardware} _.
Arguments sets_err {hardware} _.
Arguments sets_feature_list {hardware} _.
Arguments sets_value {hardware} _.
Arguments sets_mach {hardware} _.
Arguments sets_err_log {hardware} _.
Arguments first_error {hardware} _.
Arguments sets_init {hardware} _ _.

(** * The statements on the board *)

Import Board.

#[local] Set Warnings "-notation-for-abbreviation".

Local Notation m0 := {| hw := tt; trace := [] |}.
Local Notation get_feature_on cfg :=
  (sensors_get_feature catalog cfg unit read libm libm nan).
Local Notation eval_expr_on cfg :=
  (sensors_eval_expr catalog cfg unit read libm libm nan).
Local Notation set_feature_on cfg :=
  (sensors_set_feature catalog cfg unit read write libm libm nan).
Local Notation do_chip_sets_on cfg :=
  (do_chip_sets_run catalog cfg detected unit read write libm libm nan).
Local Notation do_set_on cfg :=
  (do_this_chip_set catalog cfg unit read write libm libm nan).

(** C1: with [compute in0 @*2, @/2] and [compute temp @*10, @/10] in one
    entry, setting [temp] to 50 writes 25, the value of the [to] expression
    of the statement for [in0], the first of the entry; the [to] expression
    of the statement for [temp], the one whose name matched, gives 5. *)
Theorem set_feature_takes_first_to_proc :
  set_feature_on config_computes 1 lm78 8 50%float m0 =
    Some (0, {| hw := tt; trace := [ev_write_proc lm78 8 25%float] |}) /\
  eval_expr_on config_computes 1 lm78 (to_proc compute_temp)
    50%float 50%float m0 = Some (0, 5%float, m0) /\
  eval_expr_on config_computes 1 lm78 (to_proc compute_in0)
    50%float 50%float m0 = Some (0, 25%float, m0).
Proof. repeat split; vm_compute; reflexivity. Qed.

(** C2: [beep] is in the catalog and cannot be read, so
    [sensors_get_feature] fails on it with [-SENSORS_ERR_ACCESS_R]; the
    evaluation of the variable reference [beep] returns 0 all the same, with
    the out-parameter as it was.  A name that the catalog does not have
    gives [SENSORS_ERR_NO_ENTRY], without the minus sign of the other
    errors. *)
Theorem eval_var_drops_get_feature_error :
  get_feature_on config_computes 1 lm78 4 33%float m0 =
    Some (- SENSORS_ERR_ACCESS_R, 33%float, m0) /\
  eval_expr_on config_computes 1 lm78 (sensors_kind_var "beep")
    0%float 33%float m0 = Some (0, 33%float, m0) /\
  eval_expr_on config_computes 1 lm78 (sensors_kind_var "nosuch")
    0%float 33%float m0 = Some (SENSORS_ERR_NO_ENTRY, 33%float, m0).
Proof. repeat split; vm_compute; reflexivity. Qed.

(** C3, the claim as it stands: on [config_sets] the first statement that
    fails is the write of [in1] (line 11, [-SENSORS_ERR_PROC]); the call
    returns the error of the last one that fails, the unknown name of line
    21. *)
Lemma sets_first_error_not_returned :
  match do_chip_sets_on config_sets 1 any_chip m0 with
  | Some (res, _, runs) =>
      map sets_err_log runs =
        [[- SENSORS_ERR_PROC; - SENSORS_ERR_DIV_ZERO; SENSORS_ERR_NO_ENTRY];
         []] /\
      first_error runs = - SENSORS_ERR_PROC /\
      res = SENSORS_ERR_NO_ENTRY /\
      res <> first_error runs
  | None => False
  end.
Proof. vm_compute. repeat split; discriminate. Qed.

(** On [config_sets] the write of [in1] fails first; the statements after
    it are attempted all the same, two more of them fail, and the call
    returns the code of the last of the three, the unknown name of line
    21.  No config entry matches the second chip. *)
Lemma sets_all_handled_error_returned_witness :
  exists res m',
    sensors_do_chip_sets catalog config_sets detected unit read write libm
      libm nan 1 any_chip m0 = Some (res, m') /\
    res = SENSORS_ERR_NO_ENTRY /\
    exists oss,
      attempt_chips catalog config_sets unit read write libm libm nan 1
        (filter (sensors_match_chip any_chip) (map proc_name detected)) m0 =
        Some (oss, m') /\
      oss = [[set_done; set_failed (- SENSORS_ERR_PROC); set_skipped;
              set_failed (- SENSORS_ERR_DIV_ZERO); set_skipped;
              set_failed SENSORS_ERR_NO_ENTRY; set_skipped; set_skipped];
             []] /\
      res = first_nonzero (map last_failure oss).
Proof.
  eexists _, _. split; [vm_compute; reflexivity|]. split; [reflexivity|].
  match goal with
  | |- exists oss, _ = Some (_, ?M) /\ _ =>
      destruct (proj2 (sets_all_handled_error_returned catalog config_sets
                         detected unit read write libm libm nan 1 any_chip
                         m0 SENSORS_ERR_NO_ENTRY M eq_refl))
        as [oss [Ha [_ [Hr _]]]]
  end.
  exists oss. split; [exact Ha|]. split; [|exact Hr].
  vm_compute in Ha. injection Ha as <-. reflexivity.
Defined.

(** C4, the claim as it stands: [entry_alt], declared last and so scanned
    first, has a statement for [in0] only, the alternate of [in0_min];
    [entry_main], scanned after it, has the statement for [in0_min] itself.
    Reading [in0_min] applies the expression of [entry_alt] to the raw
    value 10 and gives 11; the expression of [entry_main] gives 20. *)
Lemma get_feature_alternate_ends_search :
  matching_config_chips config_two_entries lm78 = [entry_alt; entry_main] /\
  sensors_lookup_feature_nr catalog "lm78" 2 = Some in0_min /\
  sensors_lookup_feature_nr catalog "lm78"
    (compute_mapping (data in0_min)) = Some in0 /\
  map compute_name (computes entry_alt) = ["in0"%string] /\
  map compute_name (computes entry_main) = ["in0_min"%string] /\
  get_feature_on config_two_entries 1 lm78 2 0%float m0 =
    Some (0, 11%float, {| hw := tt; trace := [ev_read_proc lm78 2] |}) /\
  eval_expr_on config_two_entries 0 lm78 (from_proc compute_in0_min)
    10%float 0%float m0 = Some (0, 20%float, m0).
Proof. repeat split; vm_compute; reflexivity. Qed.

(** Reading [in0_min] under [config_two_entries]: the entry scanned first
    contributes the expression of its statement for the alternate. *)
Lemma get_feature_from_expr_search_witness :
  get_feature_on config_two_entries 1 lm78 2 0%float m0 =
  eval_expr_on config_two_entries 0 lm78 (from_proc compute_in0_shift)
    10%float 0%float {| hw := tt; trace := [ev_read_proc lm78 2] |}.
Proof.
  apply (get_feature_from_expr_search catalog config_two_entries unit read
           libm libm nan 0 lm78 "lm78" 2 0%float m0 in0_min (Some in0)
           [] [entry_main] entry_alt).
  - reflexivity.
  - reflexivity.
  - reflexivity.
  - right. split; [discriminate | split; [discriminate | reflexivity]].
  - discriminate.
  - reflexivity.
  - vm_compute; reflexivity.
  - constructor.
  - reflexivity.
Defined.

(** C5, the claim as it stands: [fan1_div] has a [compute_mapping] to a
    feature number that the catalog does not have, and [sensors_get_ignored]
    answers 1, visible; [in1_max] has no [compute_mapping] and a [mapping]
    to a number that the catalog does not have, and [sensors_get_ignored]
    fails on it. *)
Lemma get_ignored_not_through_compute_mapping :
  sensors_lookup_feature_nr catalog "lm78" 5 = Some fan1_div /\
  compute_mapping (data fan1_div) <> SENSORS_NO_MAPPING /\
  sensors_lookup_feature_nr catalog "lm78"
    (compute_mapping (data fan1_div)) = None /\
  sensors_get_ignored catalog config_ignore lm78 5 = 1 /\
  sensors_lookup_feature_nr catalog "lm78" 7 = Some in1_max /\
  compute_mapping (data in1_max) = SENSORS_NO_MAPPING /\
  sensors_get_ignored catalog config_ignore lm78 7 = - SENSORS_ERR_NO_ENTRY.
Proof. repeat split; try (vm_compute; reflexivity). discriminate. Qed.

(** Under [ignore in0]: [fan1_div] has no mapping and is visible, the
    mapping of [in1_max] leads nowhere, and [in0_min], mapped to [in0], is
    ignored. *)
Lemma get_ignored_alternate_through_mapping_witness :
  sensors_get_ignored catalog config_ignore lm78 5 = 1 /\
  sensors_get_ignored catalog config_ignore lm78 7 = - SENSORS_ERR_NO_ENTRY /\
  sensors_get_ignored catalog config_ignore lm78 2 = 0.
Proof.
  split; [|split].
  - apply (proj1 (get_ignored_alternate_through_mapping catalog config_ignore
                    lm78 "lm78" 5 fan1_div eq_refl eq_refl eq_refl)).
    reflexivity.
  - apply (proj1 (proj2 (get_ignored_alternate_through_mapping catalog
                           config_ignore lm78 "lm78" 7 in1_max
                           eq_refl eq_refl eq_refl))).
    + discriminate.
    + reflexivity.
  - apply (proj2 (proj2 (get_ignored_alternate_through_mapping catalog
                           config_ignore lm78 "lm78" 2 in0_min
                           eq_refl eq_refl eq_refl)) in0).
    + discriminate.
    + reflexivity.
Defined.

(** Under [ignore in0]: [in0] is ignored by its own name, [in0_min] by the
    name of its alternate, and [in1] is visible. *)
Lemma get_ignored_precedence_witness :
  sensors_get_ignored catalog config_ignore lm78 1 = 0 /\
  sensors_get_ignored catalog config_ignore lm78 2 = 0 /\
  sensors_get_ignored catalog config_ignore lm78 3 = 1.
Proof.
  assert (Hin0 : ignored_by config_ignore lm78 "in0").
  { exists (entry [] [] [] [ {| ignore_name := "IN0" |} ]),
           {| ignore_name := "IN0" |}.
    repeat split; simpl; auto. }
  split; [|split].
  - apply (proj1 (get_ignored_precedence catalog config_ignore lm78 "lm78" 1
                    in0 None eq_refl eq_refl eq_refl
                    (or_introl (conj eq_refl eq_refl)))).
    exact Hin0.
  - assert (Halt : mapping (data in0_min) = SENSORS_NO_MAPPING /\
                   Some in0 = None \/
                   mapping (data in0_min) <> SENSORS_NO_MAPPING /\
                   Some in0 <> None /\
                   sensors_lookup_feature_nr catalog "lm78"
                     (mapping (data in0_min)) = Some in0).
    { right. split; [discriminate | split; [discriminate | reflexivity]]. }
    apply (proj1 (proj2 (get_ignored_precedence catalog config_ignore lm78
                    "lm78" 2 in0_min (Some in0) eq_refl eq_refl eq_refl
                    Halt)) in0 eq_refl).
    exact Hin0.
  - apply (proj2 (proj2 (get_ignored_precedence catalog config_ignore lm78
                    "lm78" 3 in1 None eq_refl eq_refl eq_refl
                    (or_introl (conj eq_refl eq_refl))))).
    + intros H. apply ignores_name_iff in H. vm_compute in H. discriminate H.
    + intros a Ha. discriminate Ha.
Defined.

(** 4/0 and the logarithm of -1 fail with [-SENSORS_ERR_DIV_ZERO], 4/2 is 2,
    and a first operand that fails is all that is evaluated. *)
Lemma eval_divide_and_log_witness :
  eval_expr_on config_computes 0 lm78
    (binop sensors_divide (num 4) (num 0)) 0%float 7%float m0 =
    Some (- SENSORS_ERR_DIV_ZERO, 7%float, m0) /\
  eval_expr_on config_computes 0 lm78
    (binop sensors_divide (num 4) (num 2)) 0%float 7%float m0 =
    Some (0, 2%float, m0) /\
  eval_expr_on config_computes 0 lm78
    (sensors_kind_sub sensors_log (num (-1)) None) 0%float 7%float m0 =
    Some (- SENSORS_ERR_DIV_ZERO, 7%float, m0) /\
  eval_expr_on config_computes 0 lm78
    (binop sensors_divide (sensors_kind_var "nosuch") (num 0))
    0%float 7%float m0 = Some (SENSORS_ERR_NO_ENTRY, 7%float, m0).
Proof.
  pose proof (eval_divide_and_log catalog config_computes unit read libm libm
                nan 0 lm78 (num 4) (num 0) (num (-1)) 0%float 7%float m0)
    as [_ [_ [Hzero [_ Hneg]]]].
  pose proof (eval_divide_and_log catalog config_computes unit read libm libm
                nan 0 lm78 (num 4) (num 2) (num (-1)) 0%float 7%float m0)
    as [_ [_ [Htwo _]]].
  pose proof (eval_divide_and_log catalog config_computes unit read libm libm
                nan 0 lm78 (sensors_kind_var "nosuch") (num 0) (num (-1))
                0%float 7%float m0) as [Hfail _].
  split; [|split; [|split]].
  - exact (proj1 (Hzero 4%float m0 0%float m0 eq_refl eq_refl)).
  - exact (proj1 (Htwo 4%float m0 2%float m0 eq_refl eq_refl)).
  - exact (proj1 (Hneg (-1)%float m0 eq_refl)).
  - apply (Hfail SENSORS_ERR_NO_ENTRY nan m0); [reflexivity | discriminate].
Defined.

(** C9, the claim as it stands: the chip name [lm78-i2c-*-2d] has no ANY
    component, its bus is the selector AnyI2C, and the four calls reject it
    with [-SENSORS_ERR_WILDCARDS]. *)
Lemma any_i2c_bus_is_rejected :
  spec_wildcard_pattern lm78_any_i2c = false /\
  sensors_get_label catalog config_ignore lm78_any_i2c 1 =
    (- SENSORS_ERR_WILDCARDS, None) /\
  sensors_get_ignored catalog config_ignore lm78_any_i2c 1 =
    - SENSORS_ERR_WILDCARDS /\
  get_feature_on config_computes 1 lm78_any_i2c 1 0%float m0 =
    Some (- SENSORS_ERR_WILDCARDS, 0%float, m0) /\
  set_feature_on config_computes 1 lm78_any_i2c 1 0%float m0 =
    Some (- SENSORS_ERR_WILDCARDS, m0).
Proof. repeat split; vm_compute; reflexivity. Qed.

(** The AnyI2C name is rejected; the concrete name reads [in0] (10.0, times
    2 by the config), and 0 is not the code of a rejection. *)
Lemma wildcards_rejected_first_witness :
  get_feature_on config_computes 1 lm78_any_i2c 1 0%float m0 =
    Some (- SENSORS_ERR_WILDCARDS, 0%float, m0) /\
  get_feature_on config_computes 1 lm78 1 0%float m0 =
    Some (0, 20%float, {| hw := tt; trace := [ev_read_proc lm78 1] |}) /\
  0 <> - SENSORS_ERR_WILDCARDS.
Proof.
  pose proof (wildcards_rejected_first catalog config_computes unit read write
                libm libm nan lm78_any_i2c 1 0%float 0%float m0 1) as [_ Hw].
  pose proof (wildcards_rejected_first catalog config_computes unit read write
                libm libm nan lm78 1 0%float 0%float m0 1) as [_ Hc].
  change (sensors_chip_name_has_wildcards lm78_any_i2c) with true in Hw.
  change (sensors_chip_name_has_wildcards lm78) with false in Hc.
  cbv iota in Hw, Hc.
  destruct Hw as [_ [_ [Hw _]]]. destruct Hc as [_ [_ [Hc _]]].
  split; [exact Hw|]. split; [vm_compute; reflexivity|].
  apply (Hc 0 20%float {| hw := tt; trace := [ev_read_proc lm78 1] |}).
  vm_compute; reflexivity.
Defined.

(** On [config_sets], where three entries set [in0], two set [temp] and one
    sets [in1] twice: [temp] and [in1] are written once, [in0], whose first
    statement divides by zero, is not written. *)
Lemma sets_write_each_feature_once_witness :
  exists res m' runs,
    do_chip_sets_on config_sets 1 any_chip m0 = Some (res, m', runs) /\
    written (trace m') = [(lm78, 8); (lm78, 3)] /\
    exists segs,
      trace m' = trace m0 ++ List.concat segs /\
      Forall2 (fun found seg =>
                 NoDup (written_features seg) /\
                 Forall (fun w => fst w = found) (written seg))
        [lm78; w83781d] segs /\
      (NoDup [lm78; w83781d] -> NoDup (written (List.concat segs))).
Proof.
  eexists _, _, _. split; [vm_compute; reflexivity|].
  split; [vm_compute; reflexivity|].
  refine (proj1 (sets_write_each_feature_once catalog config_sets detected
                   unit read write libm libm nan 1 any_chip m0 _ _ _ _)).
  vm_compute; reflexivity.
Defined.

(** The statement of line 11 fails in the write of [in1]; the number of
    [in1] is on the list all the same, and the statement of line 12 for the
    same feature is skipped. *)
Lemma sets_feature_marked_before_use_witness :
  exists st1,
    do_set_on config_sets 1 lm78 (sets_init nan m0)
      (set_stmt "in1" (num 3) 11) = Some st1 /\
    sets_err st1 = - SENSORS_ERR_PROC /\
    In 3 (sets_feature_list st1) /\
    do_set_on config_sets 1 lm78 st1 (set_stmt "in1" (num 4) 12) = Some st1.
Proof.
  eexists. split; [vm_compute; reflexivity|].
  split; [reflexivity|].
  pose proof (sets_feature_marked_before_use catalog config_sets unit read
                write libm libm nan 1 lm78 "lm78" (sets_init nan m0) _
                (set_stmt "in1" (num 3) 11) in1 eq_refl eq_refl
                (fun H : In 3 [] => H) eq_refl) as [Hin [_ Hskip]].
  split; [exact Hin|].
  exact (Hskip _ (set_stmt "in1" (num 4) 12) in1 eq_refl eq_refl Hin).
Defined.

(** * The further properties on the board *)

Lemma c_string_lm78 : c_string "lm78" /\ c_string "LM78" /\
                      c_string "in0" /\ c_string "In0".
Proof.
  unfold c_string. repeat split; repeat constructor; discriminate.
Qed.

Lemma catalog_c_strings_board : catalog_c_strings catalog.
Proof.
  unfold catalog_c_strings, c_string.
  repeat (constructor; simpl; try discriminate).
Qed.

(** Two spellings of one chip match; the chip at the next address does
    not. *)
Lemma match_chip_concrete_witness :
  sensors_match_chip lm78
    {| prefix := Some "LM78"%string; bus := 0; addr := 45 |} = true.
Proof.
  apply (proj2 (match_chip_concrete lm78
                  {| prefix := Some "LM78"%string; bus := 0; addr := 45 |}
                  eq_refl eq_refl)).
  split; [|split; reflexivity].
  exists "lm78"%string, "LM78"%string. repeat split; reflexivity.
Defined.

Lemma match_chip_reflexive_and_any_witness :
  sensors_match_chip lm78_any_i2c lm78_any_i2c = true /\
  sensors_match_chip any_chip w83781d = true.
Proof.
  split.
  - exact (proj1 (match_chip_reflexive_and_any lm78_any_i2c lm78)).
  - apply (proj2 (match_chip_reflexive_and_any any_chip w83781d));
      reflexivity.
Defined.

(** AnyI2C covers the dummy bus. *)
Lemma match_chip_bus_classes_witness :
  sensors_match_chip lm78_any_i2c
    {| prefix := Some "lm78"%string; bus := SENSORS_CHIP_NAME_BUS_DUMMY;
       addr := 45 |} = true.
Proof.
  apply (proj2 (match_chip_bus_classes lm78_any_i2c
                  {| prefix := Some "lm78"%string;
                     bus := SENSORS_CHIP_NAME_BUS_DUMMY; addr := 45 |}));
    try reflexivity; discriminate.
Defined.

Lemma lookup_feature_round_trip_witness :
  (exists g, sensors_lookup_feature_name catalog "lm78" "in1" = Some g) /\
  (exists g, sensors_lookup_feature_nr catalog "lm78" 3 = Some g).
Proof.
  destruct (lookup_feature_round_trip catalog "lm78" in1) as [Hnr Hname].
  split.
  - destruct (Hnr 3 eq_refl) as [g [Hg _]]. exists g. exact Hg.
  - destruct (Hname "IN1"%string eq_refl) as [g [Hg _]]. exists g. exact Hg.
Defined.

Lemma lookup_feature_ignores_case_witness :
  sensors_lookup_feature_name catalog "lm78" "in0" =
  sensors_lookup_feature_name catalog "LM78" "In0".
Proof.
  destruct c_string_lm78 as [H1 [H2 [H3 H4]]].
  exact (proj1 (lookup_feature_ignores_case catalog "lm78" "LM78" "in0" "In0"
                  0 catalog_c_strings_board H1 H2 H3 H4 eq_refl eq_refl)).
Defined.

(** The entry declared last decides, by its first statement for [in0]. *)
Lemma get_label_last_declared_wins_witness :
  sensors_get_label catalog config_labels lm78 1 = (0, Some "Vcore"%string) /\
  sensors_get_label catalog config_labels lm78 3 = (0, Some "in1"%string).
Proof.
  split.
  - apply (proj1 (get_label_last_declared_wins catalog config_labels lm78
                    "lm78" 1 in0 eq_refl eq_refl eq_refl)
             [labels_older] labels_newer [] (label_stmt "IN0" "Vcore"));
      try reflexivity. constructor.
  - apply (proj2 (get_label_last_declared_wins catalog config_labels lm78
                    "lm78" 3 in1 eq_refl eq_refl eq_refl)).
    repeat constructor.
Defined.

Lemma eval_expr_codes_and_effects_witness :
  SENSORS_ERR_NO_ENTRY = 0 \/ SENSORS_ERR_NO_ENTRY = SENSORS_ERR_NO_ENTRY \/
  SENSORS_ERR_NO_ENTRY = - SENSORS_ERR_DIV_ZERO.
Proof.
  exact (proj1 (eval_expr_codes_and_effects catalog config_computes unit read
                  libm libm nan 1 lm78
                  (binop sensors_add (sensors_kind_var "in0")
                     (sensors_kind_var "nosuch"))
                  0%float 7%float m0 SENSORS_ERR_NO_ENTRY 7%float
                  {| hw := tt; trace := [ev_read_proc lm78 1] |} eq_refl)).
Defined.

Lemma eval_expr_without_variables_witness :
  exists r v, forall fuel chipname (m : machine unit),
    sensors_eval_expr catalog config_computes unit read libm libm nan fuel
      chipname (at_times 2) 21%float 0%float m = Some (r, v, m).
Proof.
  exact (eval_expr_without_variables catalog config_computes unit read libm
           libm nan (at_times 2) 21%float 0%float eq_refl).
Defined.


Lemma get_feature_raw_without_compute_witness :
  get_feature_on config_computes 0 lm78 3 0%float m0 =
  Some (0, 10%float, {| hw := tt; trace := [ev_read_proc lm78 3] |}).
Proof.
  apply (get_feature_raw_without_compute catalog config_computes unit read
           libm libm nan 0 lm78 "lm78" 3 0%float m0 in1 None).
  - reflexivity.
  - reflexivity.
  - reflexivity.
  - left. split; reflexivity.
  - discriminate.
  - reflexivity.
  - repeat constructor.
Defined.

Lemma set_feature_write_discipline_witness :
  exists evs,
    [ev_write_proc lm78 8 25%float] = [] ++ evs /\
    exists rd v, evs = rd ++ [ev_write_proc lm78 8 v] /\ written rd = [].
Proof.
  destruct (set_feature_write_discipline catalog config_computes unit read
              write libm libm nan 1 lm78 8 50%float m0 0
              {| hw := tt; trace := [ev_write_proc lm78 8 25%float] |}
              eq_refl) as [evs [Ht [Hw _]]].
  exists evs. split; [exact Ht | exact (Hw (or_introl eq_refl))].
Defined.

Lemma set_feature_raw_without_compute_witness :
  exists r m',
    set_feature_on config_computes 0 lm78 3 50%float m0 = Some (r, m') /\
    trace m' = [] ++ [ev_write_proc lm78 3 50%float] /\
    (r = 0 \/ r = - SENSORS_ERR_PROC) /\
    (r = 0 <-> fst (write lm78 3 50%float tt) = 0).
Proof.
  apply (set_feature_raw_without_compute catalog config_computes unit read
           write libm libm nan 0 lm78 "lm78" 3 50%float m0 in1 None).
  - reflexivity.
  - reflexivity.
  - reflexivity.
  - left. split; reflexivity.
  - discriminate.
  - repeat constructor.
Defined.

Lemma do_all_sets_every_chip_witness :
  exists res m' runs,
    do_all_sets_run catalog config_sets detected unit read write libm libm
      nan 1 m0 = Some (res, m', runs) /\
    List.length runs = 2%nat.
Proof.
  eexists _, _, _. split; [vm_compute; reflexivity|].
  refine (proj1 (proj2 (do_all_sets_every_chip catalog config_sets detected
                          unit read write libm libm nan 1 m0 _ _ _ _))).
  vm_compute; reflexivity.
Defined.

(** On [config_sets] the scan meets [temp], [in1], [in1], [in0], [in0],
    an unknown name, [temp] and [in0]. *)
Lemma sets_feature_list_scan_order_witness :
  exists st,
    do_this_chip_sets_run catalog config_sets unit read write libm libm nan
      1 lm78 m0 = Some st /\
    sets_feature_list st = [8; 3; 1].
Proof.
  eexists. split; [vm_compute; reflexivity|].
  refine (eq_trans (proj1 (sets_feature_list_scan_order catalog config_sets
                             unit read write libm libm nan 1 lm78 "lm78" m0
                             _ eq_refl _)) _).
  - vm_compute; reflexivity.
  - vm_compute; reflexivity.
Defined.

Lemma get_adapter_name_cases_witness :
  sensors_get_adapter_name buses 0 = Some "SMBus PIIX4 adapter"%string /\
  sensors_get_adapter_name buses 7 = None.
Proof.
  split.
  - reflexivity.
  - destruct (proj2 (get_adapter_name_cases buses 7)) as [Hnone _];
      try discriminate.
    apply (proj2 Hnone).
    intros b [<- | [<- | [<- | []]]]; discriminate.
Defined.


(** [in1_max], mapped to a number that the catalog does not have, is not
    among the features returned. *)
Lemma get_all_features_enumeration_witness :
  all_features_rounds catalog 9 lm78 0 0 =
  map data [in0; in0_min; in1; beep; fan1_div; alarms; temp].
Proof.
  refine (eq_trans (proj1 (get_all_features_enumeration catalog lm78 "lm78"
                             {| features_prefix := "lm78";
                                features_feature :=
                                  [in0; in0_min; in1; beep; fan1_div; alarms;
                                   in1_max; temp] |}
                             9 eq_refl eq_refl _)) eq_refl).
  vm_compute. lia.
Defined.
